(** * A lexer, a recursive-descent parser and a tree-walking interpreter

    Shallow embedding of [spi_updated.py]: the [Lexer], [Parser],
    [NodeVisitor] and [Interpreter] classes, followed by the properties
    established about them.

    The file is Python 3 only (it uses [...] as a statement), so [/] is
    true division and produces a float.  Python's [int] is [Z]; Python's
    [float] is the kernel's binary64 [float]; conversions between them and
    the correctly rounded quotient of two ints are taken from
    [SpecFloat].

    A [str] is a [string] whose characters stand for the code points
    U+0000 .. U+00FF. *)

From Stdlib Require Import ZArith QArith String Ascii List Floats Lia Bool.
From Stdlib Require Import DecimalString DecimalN DecimalPos.
From stdpp Require Import base option gmap strings.

Import ListNotations.
Local Open Scope string_scope.
Local Open Scope Z_scope.
Local Open Scope list_scope.

(** ** Exceptions and outcomes *)

(** The exceptions the program can raise.  [InvalidCharacter] and
    [InvalidSyntax] are [Exception('Invalid character')] and
    [Exception('Invalid syntax')]; [NameError] carries the identifier whose
    [repr] is the message. *)
Inductive exception : Type :=
| IndexError
| ValueError
| InvalidCharacter
| InvalidSyntax
| NameError (var_name : string)
| TypeError
| ZeroDivisionError
| OverflowError.

(** [ZeroDivisionError] and [OverflowError] are the subclasses of Python's
    [ArithmeticError] that this program can raise. *)
Definition is_ArithmeticError (e : exception) : bool :=
  match e with
  | ZeroDivisionError | OverflowError => true
  | _ => false
  end.

(** The outcome of a call: a returned value, a raised exception, or
    [OutOfFuel] when a loop or a recursion of the model used up its bound
    (Python itself has no such outcome). *)
Inductive outcome (A : Type) : Type :=
| Ok (a : A)
| Raise (e : exception)
| OutOfFuel.
Arguments Ok {A} a.
Arguments Raise {A} e.
Arguments OutOfFuel {A}.

#[global] Instance outcome_ret : MRet outcome := fun A a => Ok a.

#[global] Instance outcome_bind : MBind outcome := fun A B k r =>
  match r with
  | Ok a => k a
  | Raise e => Raise e
  | OutOfFuel => OutOfFuel
  end.

(** ** Tokens *)

Inductive TokenType : Type :=
| INTEGER | PLUS | MINUS | MUL | DIV | LPAREN | RPAREN | EOF
| BEGIN | END | ASSIGN | SEMI | DOT | ID.

#[global] Instance TokenType_eq_dec : EqDecision TokenType.
Proof. solve_decision. Defined.

(** [Token(type, value)].  The lexer builds an [INTEGER] token with the
    [int] it read, an [ID] token with the identifier, and every other token
    with a fixed value ([Token(PLUS, '+')], [Token(EOF, None)], ...), so a
    token is its type together with the value of an [INTEGER] or an [ID]. *)
Inductive Token : Type :=
| TokInteger (value : Z)
| TokPlus | TokMinus | TokMul | TokDiv | TokLParen | TokRParen | TokEOF
| TokBegin | TokEnd | TokAssign | TokSemi | TokDot
| TokId (value : string).

Definition type (token : Token) : TokenType :=
  match token with
  | TokInteger _ => INTEGER
  | TokPlus => PLUS
  | TokMinus => MINUS
  | TokMul => MUL
  | TokDiv => DIV
  | TokLParen => LPAREN
  | TokRParen => RPAREN
  | TokEOF => EOF
  | TokBegin => BEGIN
  | TokEnd => END
  | TokAssign => ASSIGN
  | TokSemi => SEMI
  | TokDot => DOT
  | TokId _ => ID
  end.

(** ** Character classes of [str]

    [str.isspace], [str.isdigit], [str.isalpha] and [str.isalnum] on the
    code points below 256. *)
Module Char.

Definition code (c : ascii) : N := N_of_ascii c.

Definition between (lo hi : N) (c : ascii) : bool :=
  ((lo <=? code c) && (code c <=? hi))%N.

Definition isspace (c : ascii) : bool :=
  between 9 13 c || between 28 32 c || (code c =? 133)%N || (code c =? 160)%N.

Definition isdecimal (c : ascii) : bool := between 48 57 c.

(** The superscripts U+00B2, U+00B3 and U+00B9 are digits that are not
    decimal. *)
Definition isdigit (c : ascii) : bool :=
  isdecimal c || (code c =? 178)%N || (code c =? 179)%N || (code c =? 185)%N.

(** The vulgar fractions U+00BC .. U+00BE are numeric. *)
Definition isnumeric (c : ascii) : bool := isdigit c || between 188 190 c.

Definition isalpha (c : ascii) : bool :=
  between 65 90 c || between 97 122 c
  || (code c =? 170)%N || (code c =? 181)%N || (code c =? 186)%N
  || between 192 214 c || between 216 246 c || between 248 255 c.

Definition isalnum (c : ascii) : bool :=
  isalpha c || isdecimal c || isdigit c || isnumeric c.

(** [int(s)] for a string [s] of characters taken by [isdigit]: the
    decimal value, or [ValueError] when [s] is empty or holds a digit
    that is not decimal.  (The limit that recent versions of Python put on
    the number of digits is left out.) *)
Fixpoint int_digits (acc : Z) (s : string) : option Z :=
  match s with
  | EmptyString => Some acc
  | String c s' =>
      if isdecimal c
      then int_digits (10 * acc + Z.of_N (code c - 48)) s'
      else None
  end.

Definition int (s : string) : outcome Z :=
  match s with
  | EmptyString => Raise ValueError
  | _ => match int_digits 0 s with
         | Some n => Ok n
         | None => Raise ValueError
         end
  end.

End Char.

(** [s += c] *)
Definition append_char (s : string) (c : ascii) : string :=
  String.append s (String c EmptyString).

(** ** Lexer *)
Module Lexer.

Record t : Type := mk { text : string; pos : nat; current_char : option ascii }.

(** [len(self.text)] *)
Definition len (text : string) : Z := Z.of_nat (String.length text).

(** [Lexer.__init__]: [self.text[self.pos]] with [pos = 0] raises
    [IndexError] on the empty string. *)
Definition init (text : string) : outcome t :=
  match String.get 0 text with
  | Some c => Ok (mk text 0 (Some c))
  | None => Raise IndexError
  end.

Definition advance (self : t) : t :=
  let pos := S (pos self) in
  if Z.of_nat pos >? len (text self) - 1
  then mk (text self) pos None
  else mk (text self) pos (String.get pos (text self)).

(** The bound given to the loops that advance the cursor: each turn
    moves [pos] one step towards the end of [text]. *)
Definition fuel (self : t) : nat := S (String.length (text self) - pos self).

Fixpoint skip_whitespace_loop (n : nat) (self : t) : outcome t :=
  match current_char self with
  | Some c =>
      if Char.isspace c
      then match n with
           | O => OutOfFuel
           | S n' => skip_whitespace_loop n' (advance self)
           end
      else Ok self
  | None => Ok self
  end.

Definition skip_whitespace (self : t) : outcome t :=
  skip_whitespace_loop (fuel self) self.

Fixpoint integer_loop (n : nat) (result : string) (self : t)
  : outcome (string * t) :=
  match current_char self with
  | Some c =>
      if Char.isdigit c
      then match n with
           | O => OutOfFuel
           | S n' => integer_loop n' (append_char result c) (advance self)
           end
      else Ok (result, self)
  | None => Ok (result, self)
  end.

(** [integer]: the digits are collected, then [int(result)] is taken. *)
Definition integer (self : t) : outcome (Z * t) :=
  '(result, self) ← integer_loop (fuel self) "" self;
  n ← Char.int result;
  Ok (n, self).

Definition peek (self : t) : option ascii :=
  let peek_pos := S (pos self) in
  if Z.of_nat peek_pos >? len (text self) - 1
  then None
  else String.get peek_pos (text self).

(** [RESERVED_KEYWORDS.get(result, default)] *)
Definition RESERVED_KEYWORDS_get (result : string) (default : Token) : Token :=
  if String.eqb result "BEGIN" then TokBegin
  else if String.eqb result "END" then TokEnd
  else default.

Fixpoint _id_loop (n : nat) (result : string) (self : t)
  : outcome (string * t) :=
  match current_char self with
  | Some c =>
      if Char.isalnum c
      then match n with
           | O => OutOfFuel
           | S n' => _id_loop n' (append_char result c) (advance self)
           end
      else Ok (result, self)
  | None => Ok (result, self)
  end.

Definition _id (self : t) : outcome (Token * t) :=
  '(result, self) ← _id_loop (fuel self) "" self;
  Ok (RESERVED_KEYWORDS_get result (TokId result), self).

(** [self.current_char == c] for a character that is not [None], and
    [self.peek() == c]. *)
Definition char_is (c : ascii) (d : ascii) : bool := Ascii.eqb c d.
Definition peek_is (self : t) (d : ascii) : bool :=
  match peek self with
  | Some c => Ascii.eqb c d
  | None => false
  end.

(** The [while] loop of [get_next_token]; a turn is taken again only by
    the [continue] after [skip_whitespace]. *)
Fixpoint get_next_token_loop (n : nat) (self : t) : outcome (Token * t) :=
  match current_char self with
  | None => Ok (TokEOF, self)
  | Some c =>
      if Char.isalpha c then _id self
      else if char_is c ":" && peek_is self "=" then
        Ok (TokAssign, advance (advance self))
      else if char_is c ";" then Ok (TokSemi, advance self)
      else if char_is c "." then Ok (TokDot, advance self)
      else if Char.isspace c then
        match n with
        | O => OutOfFuel
        | S n' => self ← skip_whitespace self; get_next_token_loop n' self
        end
      else if Char.isdigit c then
        '(n, self) ← integer self; Ok (TokInteger n, self)
      else if char_is c "+" then Ok (TokPlus, advance self)
      else if char_is c "-" then Ok (TokMinus, advance self)
      else if char_is c "*" then Ok (TokMul, advance self)
      else if char_is c "/" then Ok (TokDiv, advance self)
      else if char_is c "(" then Ok (TokLParen, advance self)
      else if char_is c ")" then Ok (TokRParen, advance self)
      else Raise InvalidCharacter
  end.

Definition get_next_token (self : t) : outcome (Token * t) :=
  get_next_token_loop (fuel self) self.

(** [k] calls of [get_next_token] in a row: the tokens they return and
    the state they leave. *)
Fixpoint get_next_tokens (k : nat) (self : t) : outcome (list Token * t) :=
  match k with
  | O => Ok ([], self)
  | S k =>
      '(token, self) ← get_next_token self;
      '(tokens, self) ← get_next_tokens k self;
      Ok (token :: tokens, self)
  end.

(** What [__init__] sets up and [advance] keeps: [current_char] is the
    character of [text] at [pos], and [None] past the end. *)
Definition cursor_ok (self : t) : Prop :=
  current_char self = String.get (pos self) (text self).

(** The cursor has passed the end of the input. *)
Definition exhausted (self : t) : Prop :=
  (String.length (text self) <= pos self)%nat.

(** The number of characters from the cursor to the end of the input. *)
Definition remaining (self : t) : nat := (String.length (text self) - pos self)%nat.

End Lexer.


(** ** Abstract syntax

    [Num] and [Var] keep the [value] of the token they are built from (an
    [INTEGER] and an [ID] token); [Assign] keeps, for [left], the [value]
    of the [Var] node that [Parser.variable] returns, which is all that
    [visit_Assign] reads of it. *)
#[local] Unset Elimination Schemes.
Inductive AST : Type :=
| BinOp (left : AST) (op : Token) (right : AST)
| Num (value : Z)
| Compound (children : list AST)
| Assign (left : string) (op : Token) (right : AST)
| Var (value : string)
| NoOp
| UnaryOp (op : Token) (expr : AST).
#[local] Set Elimination Schemes.

(** Induction on a tree, with the hypothesis for every child of a
    [Compound]. *)
Section AST_induction.
Variable P : AST -> Prop.
Hypothesis HBinOp : forall l op r, P l -> P r -> P (BinOp l op r).
Hypothesis HNum : forall value, P (Num value).
Hypothesis HCompound : forall children, Forall P children -> P (Compound children).
Hypothesis HAssign : forall l op r, P r -> P (Assign l op r).
Hypothesis HVar : forall value, P (Var value).
Hypothesis HNoOp : P NoOp.
Hypothesis HUnaryOp : forall op expr, P expr -> P (UnaryOp op expr).

Fixpoint AST_ind (node : AST) : P node :=
  match node with
  | BinOp l op r => HBinOp l op r (AST_ind l) (AST_ind r)
  | Num value => HNum value
  | Compound children =>
      HCompound children
        ((fix children_ind (children : list AST) : Forall P children :=
            match children with
            | [] => @Stdlib.Lists.List.Forall_nil AST P
            | child :: children =>
                @Stdlib.Lists.List.Forall_cons AST P child children (AST_ind child) (children_ind children)
            end) children)
  | Assign l op r => HAssign l op r (AST_ind r)
  | Var value => HVar value
  | NoOp => HNoOp
  | UnaryOp op expr => HUnaryOp op expr (AST_ind expr)
  end.
End AST_induction.


(** ** Parser *)
Module Parser.

Record t : Type := mk { lexer : Lexer.t; current_token : Token }.

(** A parsing method: it returns a value and leaves the parser in a new
    state, or raises. *)
Definition M (A : Type) : Type := t -> outcome (A * t).

Definition init (lexer : Lexer.t) : outcome t :=
  '(token, lexer) ← Lexer.get_next_token lexer; Ok (mk lexer token).

Definition error {A : Type} : outcome A := Raise InvalidSyntax.

Definition eat (token_type : TokenType) (self : t) : outcome t :=
  if decide (type (current_token self) = token_type)
  then '(token, lexer) ← Lexer.get_next_token (lexer self); Ok (mk lexer token)
  else error.

Definition variable : M AST := fun self =>
  match current_token self with
  | TokId name => self ← eat ID self; Ok (Var name, self)
  | _ => error
  end.

Definition empty : M AST := fun self => Ok (NoOp, self).

(** [factor], [term] and [expr], with the loops of the last two; [n]
    bounds the depth of the calls.  In [factor] the tests of [token.type]
    are the cases of the match on [token]; the [INTEGER] case gives its
    value to [Num]. *)
Fixpoint factor (n : nat) : M AST := fun self =>
  match n with
  | O => OutOfFuel
  | S n =>
      let token := current_token self in
      match token with
      | TokPlus =>
          self ← eat PLUS self;
          '(node, self) ← factor n self;
          Ok (UnaryOp token node, self)
      | TokMinus =>
          self ← eat MINUS self;
          '(node, self) ← factor n self;
          Ok (UnaryOp token node, self)
      | TokInteger value =>
          self ← eat INTEGER self;
          Ok (Num value, self)
      | TokLParen =>
          self ← eat LPAREN self;
          '(node, self) ← expr n self;
          self ← eat RPAREN self;
          Ok (node, self)
      | TokId _ => variable self
      | _ => error
      end
  end

with term_loop (n : nat) (node : AST) : M AST := fun self =>
  match n with
  | O => OutOfFuel
  | S n =>
      let token := current_token self in
      if bool_decide (type token = MUL) || bool_decide (type token = DIV) then
        self ← (if decide (type token = MUL) then eat MUL self
                else if decide (type token = DIV) then eat DIV self
                else Ok self);
        '(r, self) ← factor n self;
        term_loop n (BinOp node token r) self
      else Ok (node, self)
  end

with term (n : nat) : M AST := fun self =>
  match n with
  | O => OutOfFuel
  | S n => '(node, self) ← factor n self; term_loop n node self
  end

with expr_loop (n : nat) (node : AST) : M AST := fun self =>
  match n with
  | O => OutOfFuel
  | S n =>
      let token := current_token self in
      if bool_decide (type token = PLUS) || bool_decide (type token = MINUS) then
        self ← (if decide (type token = PLUS) then eat PLUS self
                else if decide (type token = MINUS) then eat MINUS self
                else Ok self);
        '(r, self) ← term n self;
        expr_loop n (BinOp node token r) self
      else Ok (node, self)
  end

with expr (n : nat) : M AST := fun self =>
  match n with
  | O => OutOfFuel
  | S n => '(node, self) ← term n self; expr_loop n node self
  end.

(** [node.value] of the node that [variable] returns. *)
Definition Var_value (node : AST) : string :=
  match node with
  | Var value => value
  | _ => ""
  end.

Definition assignment_statement (n : nat) : M AST := fun self =>
  '(l, self) ← variable self;
  let token := current_token self in
  self ← eat ASSIGN self;
  '(r, self) ← expr n self;
  Ok (Assign (Var_value l) token r, self).

(** [compound_statement], [statement_list] with its loop, and
    [statement]. *)
Fixpoint compound_statement (n : nat) : M AST := fun self =>
  match n with
  | O => OutOfFuel
  | S n =>
      self ← eat BEGIN self;
      '(nodes, self) ← statement_list n self;
      self ← eat END self;
      Ok (Compound nodes, self)
  end

with statement_list_loop (n : nat) (results : list AST) : M (list AST) :=
  fun self =>
  match n with
  | O => OutOfFuel
  | S n =>
      if decide (type (current_token self) = SEMI) then
        self ← eat SEMI self;
        '(node, self) ← statement n self;
        statement_list_loop n (results ++ [node]) self
      else Ok (results, self)
  end

with statement_list (n : nat) : M (list AST) := fun self =>
  match n with
  | O => OutOfFuel
  | S n => '(node, self) ← statement n self; statement_list_loop n [node] self
  end

with statement (n : nat) : M AST := fun self =>
  match n with
  | O => OutOfFuel
  | S n =>
      if decide (type (current_token self) = BEGIN) then compound_statement n self
      else if decide (type (current_token self) = ID) then assignment_statement n self
      else empty self
  end.

Definition program (n : nat) : M AST := fun self =>
  '(node, self) ← compound_statement n self;
  self ← eat DOT self;
  Ok (node, self).

Definition parse (n : nat) : M AST := fun self =>
  '(node, self) ← program n self;
  if decide (type (current_token self) ≠ EOF) then error
  else Ok (node, self).

End Parser.

(** ** Values and arithmetic of Python

    What [visit] can return: [None], an [int] or a [float]. *)
Inductive pyval : Type :=
| PNone
| PInt (n : Z)
| PFloat (x : float).

Definition is_number (v : pyval) : bool :=
  match v with
  | PNone => false
  | _ => true
  end.

Module Py.

(** binary64 *)
Definition prec : Z := 53.
Definition emax : Z := 1024.

(** [float(n)] for an [int]: rounded to nearest, ties to even;
    [OverflowError] when the result is not finite. *)
Definition float_of_int (n : Z) : outcome float :=
  match binary_normalize prec emax n 0 false with
  | S754_infinity _ => Raise OverflowError
  | x => Ok (SF2Prim x)
  end.

Definition spec_of_int (n : Z) : spec_float :=
  match n with
  | Z0 => S754_zero false
  | Zpos m => S754_finite false m 0
  | Zneg m => S754_finite true m 0
  end.

(** [a / b] for two [int]: the quotient rounded once to nearest. *)
Definition int_truediv (a b : Z) : outcome float :=
  if b =? 0 then Raise ZeroDivisionError
  else match SFdiv prec emax (spec_of_int a) (spec_of_int b) with
       | S754_infinity _ => Raise OverflowError
       | x => Ok (SF2Prim x)
       end.

(** The operand of a float operation, converted when it is an [int]. *)
Definition to_float (v : pyval) : outcome float :=
  match v with
  | PNone => Raise TypeError
  | PInt n => float_of_int n
  | PFloat x => Ok x
  end.

Definition arith (int_op : Z -> Z -> Z) (float_op : float -> float -> float)
    (a b : pyval) : outcome pyval :=
  match a, b with
  | PNone, _ | _, PNone => Raise TypeError
  | PInt x, PInt y => Ok (PInt (int_op x y))
  | _, _ => x ← to_float a; y ← to_float b; Ok (PFloat (float_op x y))
  end.

Definition add : pyval -> pyval -> outcome pyval := arith Z.add PrimFloat.add.
Definition sub : pyval -> pyval -> outcome pyval := arith Z.sub PrimFloat.sub.
Definition mul : pyval -> pyval -> outcome pyval := arith Z.mul PrimFloat.mul.

Definition truediv (a b : pyval) : outcome pyval :=
  match a, b with
  | PNone, _ | _, PNone => Raise TypeError
  | PInt x, PInt y => z ← int_truediv x y; Ok (PFloat z)
  | _, _ =>
      x ← to_float a; y ← to_float b;
      if PrimFloat.eqb y 0%float then Raise ZeroDivisionError
      else Ok (PFloat (PrimFloat.div x y))
  end.

(** Unary [+] and [-]. *)
Definition pos (a : pyval) : outcome pyval :=
  match a with
  | PNone => Raise TypeError
  | _ => Ok a
  end.

Definition neg (a : pyval) : outcome pyval :=
  match a with
  | PNone => Raise TypeError
  | PInt x => Ok (PInt (- x))
  | PFloat x => Ok (PFloat (PrimFloat.opp x))
  end.

(** The exact value of a number, as a rational; none for [None], an
    infinity or a nan. *)
Definition to_Q (v : pyval) : option Q :=
  match v with
  | PNone => None
  | PInt n => Some (inject_Z n)
  | PFloat x =>
      match Prim2SF x with
      | S754_zero _ => Some 0%Q
      | S754_finite s m e =>
          let n := if s then Zneg m else Zpos m in
          Some (Qred (inject_Z n * Qpower 2 e))
      | _ => None
      end
  end.

(** [v == 0] *)
Definition is_zero (v : pyval) : bool :=
  match v with
  | PNone => false
  | PInt n => n =? 0
  | PFloat x => PrimFloat.eqb x 0%float
  end.

(** [v == n] for an [int] [n]. *)
Definition eq_int (v : pyval) (n : Z) : bool :=
  match to_Q v with
  | Some q => Qeq_bool q (inject_Z n)
  | None => false
  end.

End Py.

(** ** NodeVisitor and Interpreter *)
Module Interpreter.

(** A visit returns or raises, and leaves [GLOBAL_SCOPE] as it is by
    then: what was stored before an exception stays stored. *)
Definition V (A : Type) : Type :=
  gmap string pyval -> outcome A * gmap string pyval.

Definition ret {A : Type} (r : outcome A) : V A := fun scope => (r, scope).

Definition seq {A B : Type} (m : V A) (k : A -> V B) : V B := fun scope =>
  match m scope with
  | (Ok a, scope) => k a scope
  | (Raise e, scope) => (Raise e, scope)
  | (OutOfFuel, scope) => (OutOfFuel, scope)
  end.

Definition visit_Var (var_name : string) : V pyval := fun scope =>
  match default PNone (scope !! var_name) with
  | PNone => (Raise (NameError var_name), scope)
  | val => (Ok val, scope)
  end.

Fixpoint visit (node : AST) : V pyval :=
  match node with
  | BinOp l op r =>
      if decide (type op = PLUS) then
        seq (visit l) (fun a => seq (visit r) (fun b => ret (Py.add a b)))
      else if decide (type op = MINUS) then
        seq (visit l) (fun a => seq (visit r) (fun b => ret (Py.sub a b)))
      else if decide (type op = MUL) then
        seq (visit l) (fun a => seq (visit r) (fun b => ret (Py.mul a b)))
      else if decide (type op = DIV) then
        seq (visit l) (fun a => seq (visit r) (fun b => ret (Py.truediv a b)))
      else ret (Ok PNone)
  | Num value => ret (Ok (PInt value))
  | Compound children =>
      (fix visit_children (children : list AST) : V pyval :=
         match children with
         | [] => ret (Ok PNone)
         | child :: children => seq (visit child) (fun _ => visit_children children)
         end) children
  | Assign var_name _ r =>
      seq (visit r) (fun val scope => (Ok PNone, <[var_name := val]> scope))
  | Var value => visit_Var value
  | NoOp => ret (Ok PNone)
  | UnaryOp op expr =>
      if decide (type op = PLUS) then seq (visit expr) (fun a => ret (Py.pos a))
      else if decide (type op = MINUS) then seq (visit expr) (fun a => ret (Py.neg a))
      else ret (Ok PNone)
  end.

Record t : Type := mk { parser : Parser.t; GLOBAL_SCOPE : gmap string pyval }.

Definition init (parser : Parser.t) : t := mk parser ∅.

(** [interpret]: [n] bounds the depth of the parser's calls. *)
Definition interpret (n : nat) (self : t) : outcome pyval * gmap string pyval :=
  match Parser.parse n (parser self) with
  | Ok (tree, _) => visit tree (GLOBAL_SCOPE self)
  | Raise e => (Raise e, GLOBAL_SCOPE self)
  | OutOfFuel => (OutOfFuel, GLOBAL_SCOPE self)
  end.

End Interpreter.

(** [visit_Compound]: the children in order, as a function of its own. *)
Fixpoint visit_children (children : list AST) : Interpreter.V pyval :=
  match children with
  | [] => Interpreter.ret (Ok PNone)
  | child :: children =>
      Interpreter.seq (Interpreter.visit child) (fun _ => visit_children children)
  end.


(** The bound on the depth of the parser's calls for a text; three calls
    for each character are enough ([main_total]), so that the bound never
    shows.  (The recursion limit of Python is left out.) *)
Definition depth (text : string) : nat := 4 * String.length text + 16.

(** The statements of the loop of [main] that follow its guard
    [if not text: continue], for one line [text]: a fresh lexer, parser and
    interpreter, then [interpret]. *)
Definition main (text : string) : outcome pyval * gmap string pyval :=
  match (lexer ← Lexer.init text; Parser.init lexer) with
  | Ok parser => Interpreter.interpret (depth text) (Interpreter.init parser)
  | Raise e => (Raise e, ∅)
  | OutOfFuel => (OutOfFuel, ∅)
  end.

(** The tree that [main] visits. *)
Definition parse_text (text : string) : outcome AST :=
  lexer ← Lexer.init text;
  parser ← Parser.init lexer;
  '(tree, _) ← Parser.parse (depth text) parser;
  Ok tree.

(** Modelled from the spec: the entry of the expression-only dialect, which
    "parses just the [expr] grammar directly"; the source files do not hold
    it in working form.  The text is given to [Parser.expr] instead of
    [Parser.parse]; [parse_expr] returns the node together with the token
    the parser stopped at. *)
Definition parse_expr (text : string) : outcome (AST * Token) :=
  lexer ← Lexer.init text;
  parser ← Parser.init lexer;
  '(node, parser) ← Parser.expr (depth text) parser;
  Ok (node, Parser.current_token parser).

(** Modelled from the spec: the run of the expression-only dialect on a
    text, in a given scope. *)
Definition main_expr (text : string) (scope : gmap string pyval)
  : outcome pyval * gmap string pyval :=
  match parse_expr text with
  | Ok (node, _) => Interpreter.visit node scope
  | Raise e => (Raise e, scope)
  | OutOfFuel => (OutOfFuel, scope)
  end.

(** ** Well-formed trees and scopes

    The nodes that the grammar puts where an expression stands, and the
    nodes it puts where a statement stands. *)
Fixpoint is_expr (node : AST) : bool :=
  match node with
  | Num _ | Var _ => true
  | BinOp l op r =>
      (bool_decide (type op = PLUS) || bool_decide (type op = MINUS)
       || bool_decide (type op = MUL) || bool_decide (type op = DIV))
      && is_expr l && is_expr r
  | UnaryOp op e =>
      (bool_decide (type op = PLUS) || bool_decide (type op = MINUS)) && is_expr e
  | _ => false
  end.

Fixpoint is_stmt (node : AST) : bool :=
  match node with
  | Compound children => forallb is_stmt children
  | Assign _ _ r => is_expr r
  | NoOp => true
  | _ => false
  end.

(** A scope that holds numbers only. *)
Definition numeric (scope : gmap string pyval) : Prop :=
  forall (name : string) (val : pyval), scope !! name = Some val -> is_number val = true.

(** ** Token streams

    [yields lexer tokens]: the next calls of [get_next_token] return
    [tokens], in this order.  [reads parser tokens]: the parser holds the
    first of [tokens] as its current token and its lexer yields the
    others. *)
Inductive yields : Lexer.t -> list Token -> Prop :=
| yields_nil lexer : yields lexer []
| yields_cons lexer token lexer' tokens :
    Lexer.get_next_token lexer = Ok (token, lexer') ->
    yields lexer' tokens ->
    yields lexer (token :: tokens).

Inductive reads : Parser.t -> list Token -> Prop :=
| reads_intro lexer token tokens :
    yields lexer tokens -> reads (Parser.mk lexer token) (token :: tokens).

(** The lexer that has read [before] and has [rest] left of the text
    [before ++ rest]. *)
Definition reading (before rest : string) : Lexer.t :=
  Lexer.mk (String.append before rest) (String.length before) (String.get 0 rest).

(** A run of unary operators, [true] for [-] and [false] for [+], in front
    of an operand: as characters, as tokens, as nodes and as values. *)
Definition sign_char (minus : bool) : ascii := if minus then "-"%char else "+"%char.
Definition sign_token (minus : bool) : Token := if minus then TokMinus else TokPlus.

Definition signs_text (signs : list bool) (operand : string) : string :=
  fold_right (fun b s => String (sign_char b) s) operand signs.

Definition signs_tokens (signs : list bool) : list Token := map sign_token signs.

Definition signs_tree (signs : list bool) (operand : AST) : AST :=
  fold_right (fun b node => UnaryOp (sign_token b) node) operand signs.

Definition signs_value (signs : list bool) (operand : Z) : Z :=
  fold_right (fun (b : bool) n => if b then - n else n) operand signs.

(** A chain [a0 op1 a1 op2 a2 ...] of integer operands: as tokens and as
    the tree that folds it from the left. *)
Definition chain_tokens (chain : list (Token * Z)) : list Token :=
  flat_map (fun '(op, a) => [op; TokInteger a]) chain.

Definition chain_tree (node : AST) (chain : list (Token * Z)) : AST :=
  fold_left (fun node '(op, a) => BinOp node op (Num a)) chain node.

(** The operators of a chain are all additive, or all multiplicative. *)
Definition additive (chain : list (Token * Z)) : Prop :=
  Forall (fun '(op, _) => type op = PLUS \/ type op = MINUS) chain.

Definition multiplicative (chain : list (Token * Z)) : Prop :=
  Forall (fun '(op, _) => type op = MUL \/ type op = DIV) chain.

(** The value of an additive chain, folded from the left. *)
Definition chain_value (n : Z) (chain : list (Token * Z)) : Z :=
  fold_left (fun n '(op, a) => if decide (type op = PLUS) then n + a else n - a)
    chain n.

(** A chain of one-digit operands joined by [+] and [-], written without
    spaces: its text after the first operand, and its operators and
    operands. *)
Definition digit_char (k : nat) : ascii := ascii_of_nat (48 + k).

Definition digits_text (chain : list (bool * nat)) : string :=
  fold_right (fun '(b, k) s => String (sign_char b) (String (digit_char k) s))
    "" chain.

Definition digits_chain (chain : list (bool * nat)) : list (Token * Z) :=
  map (fun '(b, k) => (sign_token b, Z.of_nat k)) chain.

Definition one_digit (chain : list (bool * nat)) : Prop :=
  Forall (fun '(_, k) => (k < 10)%nat) chain.

(** The type of a token that continues neither [term] nor [expr]. *)
Definition stops (t : Token) : Prop :=
  type t <> PLUS /\ type t <> MINUS /\ type t <> MUL /\ type t <> DIV.

(** ** Progress of the lexer and of the parser *)

(** What a loop of the lexer leaves: the same text, a cursor that is in
    order and not further from the end. *)
Definition forward (lx lx' : Lexer.t) : Prop :=
  Lexer.cursor_ok lx' /\ Lexer.text lx' = Lexer.text lx
  /\ (Lexer.remaining lx' <= Lexer.remaining lx)%nat.

(** A call of [get_next_token] is in order when it returns a token, having
    moved forward (strictly, unless the token is [EOF]), or raises. *)
Definition token_or_raise (lx : Lexer.t) (r : outcome (Token * Lexer.t)) : Prop :=
  (exists tok lx',
      r = Ok (tok, lx') /\ forward lx lx'
      /\ (type tok <> EOF -> (Lexer.remaining lx' < Lexer.remaining lx)%nat))
  \/ (exists e, r = Raise e).

(** The tokens left to the parser, counted in characters: those the lexer
    has not read, and one for a current token that is not [EOF]. *)
Definition weight (p : Parser.t) : nat :=
  (Lexer.remaining (Parser.lexer p)
   + if decide (type (Parser.current_token p) = EOF) then 0 else 1)%nat.

(** A parsing method is in order when it returns, leaving a parser of
    weight at most [w] whose lexer is in order, or raises. *)
Definition steps {A : Type} (w : nat) (r : outcome (A * Parser.t)) : Prop :=
  (exists a p', r = Ok (a, p') /\ Lexer.cursor_ok (Parser.lexer p') /\ (weight p' <= w)%nat)
  \/ (exists e, r = Raise e).

(** ** Runs of characters

    [run p s]: every character of [s] is taken by [p].  [ends_run p rest]:
    a run of [p] ends in front of [rest], which is empty or starts with a
    character that [p] does not take. *)
Fixpoint run (p : ascii -> bool) (s : string) : bool :=
  match s with
  | EmptyString => true
  | String c s => p c && run p s
  end.

Definition ends_run (p : ascii -> bool) (rest : string) : bool :=
  match rest with
  | EmptyString => true
  | String c _ => negb (p c)
  end.

(** The decimal numeral of a natural number, as [str] writes it. *)
Definition numeral (n : N) : string := NilZero.string_of_uint (N.to_uint n).

(** ** Kinds of values and of exceptions *)

Definition is_float (v : pyval) : bool :=
  match v with
  | PFloat _ => true
  | _ => false
  end.

(** [has_float scope node]: the expression [node] holds a division, or
    reads a variable whose value in [scope] is a float. *)
Fixpoint has_float (scope : gmap string pyval) (node : AST) : bool :=
  match node with
  | BinOp l op r =>
      bool_decide (type op = DIV) || has_float scope l || has_float scope r
  | UnaryOp _ e => has_float scope e
  | Var name =>
      match scope !! name with
      | Some (PFloat _) => true
      | _ => false
      end
  | _ => false
  end.


Definition is_runtime_error (e : exception) : bool :=
  match e with
  | NameError _ | ZeroDivisionError | OverflowError => true
  | _ => false
  end.


(** ** Writing a tree as tokens and as text

    [expr_tokens node]: the tokens of an expression, written with every
    operand of an operator in parentheses.  [stmt_tokens node]: the tokens
    of a statement; the statements of a block are separated by [;]. *)
Fixpoint expr_tokens (node : AST) : list Token :=
  match node with
  | Num value => [TokInteger value]
  | Var name => [TokId name]
  | UnaryOp op e => op :: TokLParen :: expr_tokens e ++ [TokRParen]
  | BinOp l op r =>
      TokLParen :: expr_tokens l ++ [TokRParen; op; TokLParen]
        ++ expr_tokens r ++ [TokRParen]
  | _ => []
  end.

Fixpoint stmt_tokens (node : AST) : list Token :=
  match node with
  | Compound children =>
      TokBegin
        :: match children with
           | [] => []
           | child :: children =>
               stmt_tokens child
                 ++ flat_map (fun child => TokSemi :: stmt_tokens child) children
           end
        ++ [TokEnd]
  | Assign name _ r => TokId name :: TokAssign :: expr_tokens r
  | _ => []
  end.

(** The tokens of a program: its block, the dot and [EOF]. *)
Definition program_tokens (tree : AST) : list Token :=
  stmt_tokens tree ++ [TokDot; TokEOF].

(** The number of nodes of a tree. *)
Fixpoint nodes (node : AST) : nat :=
  match node with
  | BinOp l _ r => S (nodes l + nodes r)
  | UnaryOp _ e => S (nodes e)
  | Assign _ _ r => S (nodes r)
  | Compound children => S (list_sum (map nodes children))
  | _ => 1
  end.

(** The statement nodes that the parser can return: a block has a child
    at least, and an assignment keeps the token [:=]. *)
Fixpoint is_parsed (node : AST) : bool :=
  match node with
  | Compound children =>
      match children with [] => false | _ => true end && forallb is_parsed children
  | Assign _ op r => match op with TokAssign => true | _ => false end && is_expr r
  | NoOp => true
  | _ => false
  end.

(** A token that can follow a statement in a program, and a token that
    the statement [node] does not go on with: no start of a statement
    after the empty statement, no operator after an assignment. *)
Definition follows (t : Token) : Prop :=
  type t = SEMI \/ type t = END \/ type t = DOT.

Definition after (node : AST) (t : Token) : Prop :=
  match node with
  | NoOp => type t <> BEGIN /\ type t <> ID
  | Assign _ _ _ => stops t
  | _ => True
  end.

(** An identifier: a letter followed by alphanumeric characters. *)
Definition is_word (s : string) : bool :=
  match s with
  | String c w => Char.isalpha c && run Char.isalnum w
  | EmptyString => false
  end.

(** The characters that the lexer reads a token from. *)
Definition lexeme (t : Token) : string :=
  match t with
  | TokInteger value => numeral (Z.to_N value)
  | TokPlus => "+"
  | TokMinus => "-"
  | TokMul => "*"
  | TokDiv => "/"
  | TokLParen => "("
  | TokRParen => ")"
  | TokEOF => ""
  | TokBegin => "BEGIN"
  | TokEnd => "END"
  | TokAssign => ":="
  | TokSemi => ";"
  | TokDot => "."
  | TokId value => value
  end.

(** The number of digits up to which every version of Python converts a
    [str] to an [int]: recent versions refuse a longer one unless they are
    told otherwise. *)
Definition max_str_digits : nat := 4300.

(** The tokens that the lexer can return before the end of the text: the
    integer of an [INTEGER] token is not negative and has no more than
    [max_str_digits] digits, and the name of an [ID] token is an
    identifier other than the keywords. *)
Definition lexable (t : Token) : bool :=
  match t with
  | TokInteger value =>
      (0 <=? value)
      && (String.length (numeral (Z.to_N value)) <=? max_str_digits)%nat
  | TokId value =>
      is_word value && negb (String.eqb value "BEGIN") && negb (String.eqb value "END")
  | TokEOF => false
  | _ => true
  end.

(** Tokens written one after the other, each followed by a blank. *)
Definition tokens_text (tokens : list Token) : string :=
  fold_right (fun t s => String.append (lexeme t) (String " " s)) "" tokens.

(** A program tree written as text, and the trees that can be written:
    blocks of parsed statements whose integers and names are lexable. *)
Definition program_text (tree : AST) : string :=
  tokens_text (stmt_tokens tree ++ [TokDot]).

Definition is_program (tree : AST) : bool :=
  match tree with Compound _ => true | _ => false end
  && is_parsed tree && forallb lexable (stmt_tokens tree).

(** The names that a statement assigns to. *)
Fixpoint assigned (node : AST) : list string :=
  match node with
  | Compound children => flat_map assigned children
  | Assign name _ _ => [name]
  | _ => []
  end.

(** * Properties *)

(** ** The lexer *)

Lemma string_get_None (s : string) (n : nat) :
  (String.length s <= n)%nat -> String.get n s = None.
Proof.
  revert n; induction s as [|c s IH]; intros n Hn; destruct n; simpl in *;
    try reflexivity; try lia.
  apply IH; lia.
Qed.

Lemma string_get_Some (s : string) (n : nat) :
  (n < String.length s)%nat -> exists c, String.get n s = Some c.
Proof.
  revert n; induction s as [|c s IH]; intros n Hn; simpl in *; [lia|].
  destruct n; [eauto|]. apply IH; lia.
Qed.

Lemma cursor_ok_init (text : string) (lx : Lexer.t) :
  Lexer.init text = Ok lx -> Lexer.cursor_ok lx.
Proof.
  unfold Lexer.init, Lexer.cursor_ok.
  destruct (String.get 0 text) eqn:E; intros H; inversion H; subst; simpl; auto.
Qed.

Lemma cursor_ok_advance (lx : Lexer.t) : Lexer.cursor_ok (Lexer.advance lx).
Proof.
  unfold Lexer.cursor_ok, Lexer.advance, Lexer.len.
  destruct (Z.gtb_spec (Z.of_nat (S (Lexer.pos lx)))
              (Z.of_nat (String.length (Lexer.text lx)) - 1)); simpl; auto.
  symmetry; apply string_get_None; lia.
Qed.

Lemma exhausted_current_char (lx : Lexer.t) :
  Lexer.cursor_ok lx -> Lexer.exhausted lx -> Lexer.current_char lx = None.
Proof.
  unfold Lexer.cursor_ok, Lexer.exhausted; intros -> H.
  now apply string_get_None.
Qed.

Lemma get_next_token_None (lx : Lexer.t) :
  Lexer.current_char lx = None -> Lexer.get_next_token lx = Ok (TokEOF, lx).
Proof.
  intros H. unfold Lexer.get_next_token, Lexer.fuel; simpl. now rewrite H.
Qed.

Lemma get_next_tokens_None (k : nat) (lx : Lexer.t) :
  Lexer.current_char lx = None ->
  Lexer.get_next_tokens k lx = Ok (repeat TokEOF k, lx).
Proof.
  intros H; induction k as [|k IH]; simpl; [reflexivity|].
  rewrite (get_next_token_None lx H); simpl. now rewrite IH.
Qed.


(** ** The visitor *)

Lemma visit_Compound (children : list AST) (scope : gmap string pyval) :
  Interpreter.visit (Compound children) scope = visit_children children scope.
Proof.
  simpl. revert scope. induction children as [|c cs IH]; intros scope; [reflexivity|].
  simpl. unfold Interpreter.seq. destruct (Interpreter.visit c scope) as [[?| |] ?]; auto.
Qed.

Lemma visit_children_value children scope v scope' :
  visit_children children scope = (Ok v, scope') -> v = PNone.
Proof.
  revert scope; induction children as [|c cs IH]; intros scope; simpl.
  - unfold Interpreter.ret. congruence.
  - unfold Interpreter.seq. destruct (Interpreter.visit c scope) as [[?| |] ?];
      try congruence. apply IH.
Qed.

Lemma arith_number f g a b v :
  Py.arith f g a b = Ok v -> is_number a = true /\ is_number b = true /\ is_number v = true.
Proof.
  destruct a, b; simpl; try discriminate; intros H.
  - inversion H; auto.
  - destruct (Py.float_of_int n); simpl in H; inversion H; auto.
  - destruct (Py.float_of_int n); simpl in H; inversion H; auto.
  - inversion H; auto.
Qed.

Lemma truediv_number a b v :
  Py.truediv a b = Ok v -> is_number a = true /\ is_number b = true /\ is_number v = true.
Proof.
  destruct a, b; simpl; try discriminate; intros H.
  - destruct (Py.int_truediv n n0); simpl in H; inversion H; auto.
  - destruct (Py.float_of_int n); simpl in H; try discriminate.
    destruct (PrimFloat.eqb x 0); inversion H; auto.
  - destruct (Py.float_of_int n); simpl in H; try discriminate.
    destruct (PrimFloat.eqb a 0); inversion H; auto.
  - destruct (PrimFloat.eqb x0 0); inversion H; auto.
Qed.

Lemma pos_number a v : Py.pos a = Ok v -> is_number a = true /\ is_number v = true.
Proof. destruct a; simpl; intros H; inversion H; auto. Qed.

Lemma neg_number a v : Py.neg a = Ok v -> is_number a = true /\ is_number v = true.
Proof. destruct a; simpl; intros H; inversion H; auto. Qed.

(** Two operands visited in turn, then an operation applied. *)
Lemma seq2_inv (f : pyval -> pyval -> outcome pyval) l r scope v scope' :
  Interpreter.seq (Interpreter.visit l)
    (fun a => Interpreter.seq (Interpreter.visit r)
                (fun b => Interpreter.ret (f a b))) scope = (Ok v, scope') ->
  exists a s1 b,
    Interpreter.visit l scope = (Ok a, s1)
    /\ Interpreter.visit r s1 = (Ok b, scope')
    /\ f a b = Ok v.
Proof.
  unfold Interpreter.seq, Interpreter.ret.
  destruct (Interpreter.visit l scope) as [[a| |] s1] eqn:El; try (intros; congruence).
  destruct (Interpreter.visit r s1) as [[b| |] s2] eqn:Er; try (intros; congruence).
  intros H; inversion H; subst. exists a, s1, b; auto.
Qed.

Lemma seq1_inv (f : pyval -> outcome pyval) e scope v scope' :
  Interpreter.seq (Interpreter.visit e) (fun a => Interpreter.ret (f a)) scope
    = (Ok v, scope') ->
  exists a, Interpreter.visit e scope = (Ok a, scope') /\ f a = Ok v.
Proof.
  unfold Interpreter.seq, Interpreter.ret.
  destruct (Interpreter.visit e scope) as [[a| |] s1] eqn:Ee; try (intros; congruence).
  intros H; inversion H; subst. exists a; auto.
Qed.

(** A visit that returns a number has stored nothing: only [Assign]
    writes to [GLOBAL_SCOPE], and it returns [None]. *)
Lemma visit_number_scope node :
  forall scope v scope',
    Interpreter.visit node scope = (Ok v, scope') ->
    is_number v = true -> scope' = scope.
Proof.
  induction node as [l op r IHl IHr|value|children _|x op r _|value| |op e IHe]
    using AST_ind; intros scope v scope' H Hv.
  - simpl in H.
    repeat match type of H with
           | (if ?d then _ else _) _ = _ => destruct d
           end;
      try (apply seq2_inv in H; destruct H as (a & s1 & b & Hl & Hr & Hf);
           first [apply arith_number in Hf | apply truediv_number in Hf];
           destruct Hf as (Ha & Hb & _);
           apply IHr in Hr; auto; apply IHl in Hl; auto; congruence).
    unfold Interpreter.ret in H. inversion H; subst; discriminate.
  - inversion H; auto.
  - rewrite visit_Compound in H. apply visit_children_value in H. subst; discriminate.
  - simpl in H. unfold Interpreter.seq in H.
    destruct (Interpreter.visit r scope) as [[?| |] ?]; inversion H; subst; discriminate.
  - simpl in H. unfold Interpreter.visit_Var in H.
    destruct (default PNone (scope !! value)); inversion H; auto.
  - inversion H; subst; discriminate.
  - simpl in H.
    repeat match type of H with
           | (if ?d then _ else _) _ = _ => destruct d
           end;
      try (apply seq1_inv in H; destruct H as (a & He & Hf);
           first [apply pos_number in Hf | apply neg_number in Hf];
           destruct Hf as (Ha & _); apply IHe in He; auto).
    unfold Interpreter.ret in H. inversion H; subst; discriminate.
Qed.


(** ** The parser on token streams *)

Lemma reads_current p t ts : reads p (t :: ts) -> Parser.current_token p = t.
Proof. intros H; inversion H; reflexivity. Qed.

Lemma eat_reads ty p t rest :
  reads p (t :: rest) -> type t = ty -> rest <> [] ->
  exists p', Parser.eat ty p = Ok p' /\ reads p' rest.
Proof.
  intros H Hty Hne. inversion H as [lx t0 ts Hy]; subst.
  destruct rest as [|t' ts]; [congruence|].
  inversion Hy as [|lx0 t1 lx' ts0 Hg Hy']; subst.
  exists (Parser.mk lx' t'). split; [|constructor; assumption].
  unfold Parser.eat; simpl. rewrite decide_True by reflexivity.
  rewrite Hg. reflexivity.
Qed.

Lemma app_cons_nonempty {A : Type} (l l' : list A) (x : A) : l ++ x :: l' <> [].
Proof. destruct l; discriminate. Qed.

Lemma bind_Ok {A B : Type} (a : A) (k : A -> outcome B) : (Ok a ≫= k) = k a.
Proof. reflexivity. Qed.

(** The equations of the parser's methods, one call deep. *)
Lemma factor_S n self :
  Parser.factor (S n) self =
    let token := Parser.current_token self in
    match token with
    | TokPlus =>
        self ← Parser.eat PLUS self;
        '(node, self) ← Parser.factor n self;
        Ok (UnaryOp token node, self)
    | TokMinus =>
        self ← Parser.eat MINUS self;
        '(node, self) ← Parser.factor n self;
        Ok (UnaryOp token node, self)
    | TokInteger value =>
        self ← Parser.eat INTEGER self;
        Ok (Num value, self)
    | TokLParen =>
        self ← Parser.eat LPAREN self;
        '(node, self) ← Parser.expr n self;
        self ← Parser.eat RPAREN self;
        Ok (node, self)
    | TokId _ => Parser.variable self
    | _ => Parser.error
    end.
Proof. reflexivity. Qed.

Lemma term_loop_S n node self :
  Parser.term_loop (S n) node self =
    let token := Parser.current_token self in
    if bool_decide (type token = MUL) || bool_decide (type token = DIV) then
      self ← (if decide (type token = MUL) then Parser.eat MUL self
              else if decide (type token = DIV) then Parser.eat DIV self
              else Ok self);
      '(r, self) ← Parser.factor n self;
      Parser.term_loop n (BinOp node token r) self
    else Ok (node, self).
Proof. reflexivity. Qed.

Lemma term_S n self :
  Parser.term (S n) self =
    '(node, self) ← Parser.factor n self; Parser.term_loop n node self.
Proof. reflexivity. Qed.

Lemma expr_loop_S n node self :
  Parser.expr_loop (S n) node self =
    let token := Parser.current_token self in
    if bool_decide (type token = PLUS) || bool_decide (type token = MINUS) then
      self ← (if decide (type token = PLUS) then Parser.eat PLUS self
              else if decide (type token = MINUS) then Parser.eat MINUS self
              else Ok self);
      '(r, self) ← Parser.term n self;
      Parser.expr_loop n (BinOp node token r) self
    else Ok (node, self).
Proof. reflexivity. Qed.

Lemma expr_S n self :
  Parser.expr (S n) self =
    '(node, self) ← Parser.term n self; Parser.expr_loop n node self.
Proof. reflexivity. Qed.

#[local] Arguments Parser.factor : simpl never.
#[local] Arguments Parser.term : simpl never.
#[local] Arguments Parser.term_loop : simpl never.
#[local] Arguments Parser.expr : simpl never.
#[local] Arguments Parser.expr_loop : simpl never.
#[local] Arguments Parser.eat : simpl never.

Lemma factor_integer n p v rest :
  reads p (TokInteger v :: rest) -> rest <> [] ->
  exists p', Parser.factor (S n) p = Ok (Num v, p') /\ reads p' rest.
Proof.
  intros H Hne. pose proof (reads_current _ _ _ H) as Hc.
  destruct (eat_reads INTEGER p _ _ H eq_refl Hne) as (p' & He & Hr).
  exists p'. split; [|assumption].
  rewrite factor_S, Hc. cbv zeta. rewrite He. reflexivity.
Qed.

(** Unary operators in front of an integer: [factor] calls itself once for
    each and nests the [UnaryOp] nodes in the order of the text. *)
Lemma factor_signs signs :
  forall n p v t ts,
    (length signs < n)%nat ->
    reads p (signs_tokens signs ++ TokInteger v :: t :: ts) ->
    exists p', Parser.factor n p = Ok (signs_tree signs (Num v), p')
               /\ reads p' (t :: ts).
Proof.
  induction signs as [|b signs IH]; intros n p v t ts Hn H; simpl in Hn, H.
  - destruct n as [|n]; [lia|]. now apply factor_integer.
  - destruct n as [|n]; [lia|].
    pose proof (reads_current _ _ _ H) as Hc.
    destruct (eat_reads (type (sign_token b)) p _ _ H eq_refl) as (p1 & He & Hr);
      [apply app_cons_nonempty|].
    destruct (IH n p1 v t ts) as (p' & Hf & Hr'); [lia|assumption|].
    exists p'. split; [|assumption].
    rewrite factor_S, Hc.
    destruct b; simpl in He |- *; rewrite He, bind_Ok, Hf; reflexivity.
Qed.

Lemma term_loop_stop n node p t ts :
  reads p (t :: ts) -> type t <> MUL -> type t <> DIV ->
  Parser.term_loop (S n) node p = Ok (node, p).
Proof.
  intros H H1 H2. rewrite term_loop_S, (reads_current _ _ _ H). cbv zeta.
  rewrite !bool_decide_eq_false_2 by assumption. reflexivity.
Qed.

Lemma expr_loop_stop n node p t ts :
  reads p (t :: ts) -> type t <> PLUS -> type t <> MINUS ->
  Parser.expr_loop (S n) node p = Ok (node, p).
Proof.
  intros H H1 H2. rewrite expr_loop_S, (reads_current _ _ _ H). cbv zeta.
  rewrite !bool_decide_eq_false_2 by assumption. reflexivity.
Qed.

Lemma expr_signs signs n p v t ts :
  (length signs + 2 < n)%nat -> stops t ->
  reads p (signs_tokens signs ++ TokInteger v :: t :: ts) ->
  exists p', Parser.expr n p = Ok (signs_tree signs (Num v), p')
             /\ reads p' (t :: ts).
Proof.
  intros Hn (H1 & H2 & H3 & H4) H.
  destruct n as [|[|[|n]]]; try lia.
  destruct (factor_signs signs (S n) p v t ts) as (p' & Hf & Hr); [lia|assumption|].
  exists p'. split; [|assumption].
  rewrite expr_S, term_S, Hf, bind_Ok. cbv beta iota.
  rewrite (term_loop_stop n _ p' t ts Hr H3 H4), bind_Ok. cbv beta iota.
  apply (expr_loop_stop (S n) _ p' t ts Hr H1 H2).
Qed.

(** A chain of [*] and [/]: each turn of the loop of [term] makes the node
    built so far the left child of a new [BinOp]. *)
Lemma term_loop_chain chain :
  forall n node p t ts,
    multiplicative chain -> type t <> MUL -> type t <> DIV ->
    (length chain < n)%nat ->
    reads p (chain_tokens chain ++ t :: ts) ->
    exists p', Parser.term_loop n node p = Ok (chain_tree node chain, p')
               /\ reads p' (t :: ts).
Proof.
  induction chain as [|[op a] chain IH]; intros n node p t ts Hm H1 H2 Hn H;
    simpl in Hn, H.
  - destruct n as [|n]; [lia|]. exists p. split; [|assumption].
    now apply (term_loop_stop n node p t ts).
  - destruct n as [|[|n]]; try lia.
    inversion Hm as [|x l Hop Hm']; subst.
    pose proof (reads_current _ _ _ H) as Hc.
    destruct (eat_reads (type op) p _ _ H eq_refl) as (p1 & He & Hr1); [discriminate|].
    destruct (factor_integer n p1 a _ Hr1) as (p2 & Hf & Hr2);
      [apply app_cons_nonempty|].
    destruct (IH (S n) (BinOp node op (Num a)) p2 t ts) as (p' & Hl & Hr');
      try assumption; [lia|].
    exists p'. split; [|assumption].
    rewrite term_loop_S, Hc. cbv zeta.
    destruct Hop as [Hop|Hop]; rewrite Hop in He |- *; simpl;
      rewrite He, bind_Ok, Hf, bind_Ok; exact Hl.
Qed.

Lemma chain_head_additive chain t ts :
  additive chain -> stops t ->
  exists x xs, chain_tokens chain ++ t :: ts = x :: xs
               /\ type x <> MUL /\ type x <> DIV.
Proof.
  intros Ha (H1 & H2 & H3 & H4). destruct chain as [|[op a] chain]; simpl.
  - exists t, ts. auto.
  - inversion Ha as [|x l Hop _]; subst.
    exists op, (TokInteger a :: chain_tokens chain ++ t :: ts).
    split; [reflexivity|]. destruct Hop as [-> | ->]; split; discriminate.
Qed.

(** A chain of [+] and [-]: the same for the loop of [expr]. *)
Lemma expr_loop_chain chain :
  forall n node p t ts,
    additive chain -> stops t ->
    (length chain + 2 < n)%nat ->
    reads p (chain_tokens chain ++ t :: ts) ->
    exists p', Parser.expr_loop n node p = Ok (chain_tree node chain, p')
               /\ reads p' (t :: ts).
Proof.
  induction chain as [|[op a] chain IH]; intros n node p t ts Ha Hs Hn H;
    simpl in Hn, H.
  - destruct n as [|n]; [lia|]. exists p. split; [|assumption].
    destruct Hs as (H1 & H2 & _). now apply (expr_loop_stop n node p t ts).
  - destruct n as [|[|[|n]]]; try lia.
    inversion Ha as [|x l Hop Ha']; subst.
    pose proof (reads_current _ _ _ H) as Hc.
    destruct (eat_reads (type op) p _ _ H eq_refl) as (p1 & He & Hr1); [discriminate|].
    destruct (factor_integer n p1 a _ Hr1) as (p2 & Hf & Hr2);
      [apply app_cons_nonempty|].
    destruct (chain_head_additive chain t ts Ha' Hs) as (x & xs & Hx & Hx1 & Hx2).
    assert (Ht : Parser.term (S (S n)) p1 = Ok (Num a, p2)).
    { rewrite term_S, Hf, bind_Ok. cbv beta iota. rewrite Hx in Hr2.
      apply (term_loop_stop n (Num a) p2 x xs Hr2 Hx1 Hx2). }
    destruct (IH (S (S n)) (BinOp node op (Num a)) p2 t ts) as (p' & Hl & Hr');
      try assumption; [lia|].
    exists p'. split; [|assumption].
    rewrite expr_loop_S, Hc. cbv zeta.
    destruct Hop as [Hop|Hop]; rewrite Hop in He |- *; simpl;
      rewrite He, bind_Ok, Ht, bind_Ok; exact Hl.
Qed.

Lemma term_chain chain n p a0 t ts :
  multiplicative chain -> type t <> MUL -> type t <> DIV ->
  (length chain + 1 < n)%nat ->
  reads p (TokInteger a0 :: chain_tokens chain ++ t :: ts) ->
  exists p', Parser.term n p = Ok (chain_tree (Num a0) chain, p')
             /\ reads p' (t :: ts).
Proof.
  intros Hm H1 H2 Hn H. destruct n as [|[|n]]; try lia.
  destruct (factor_integer n p a0 _ H) as (p1 & Hf & Hr1); [apply app_cons_nonempty|].
  destruct (term_loop_chain chain (S n) (Num a0) p1 t ts) as (p' & Hl & Hr');
    try assumption; [lia|].
  exists p'. split; [|assumption].
  rewrite term_S, Hf, bind_Ok. exact Hl.
Qed.

Lemma expr_chain chain n p a0 t ts :
  additive chain -> stops t ->
  (length chain + 3 < n)%nat ->
  reads p (TokInteger a0 :: chain_tokens chain ++ t :: ts) ->
  exists p', Parser.expr n p = Ok (chain_tree (Num a0) chain, p')
             /\ reads p' (t :: ts).
Proof.
  intros Ha Hs Hn H. destruct n as [|[|[|n]]]; try lia.
  destruct (factor_integer n p a0 _ H) as (p1 & Hf & Hr1); [apply app_cons_nonempty|].
  destruct (chain_head_additive chain t ts Ha Hs) as (x & xs & Hx & Hx1 & Hx2).
  assert (Ht : Parser.term (S (S n)) p = Ok (Num a0, p1)).
  { rewrite term_S, Hf, bind_Ok. cbv beta iota. rewrite Hx in Hr1.
    apply (term_loop_stop n (Num a0) p1 x xs Hr1 Hx1 Hx2). }
  destruct (expr_loop_chain chain (S (S n)) (Num a0) p1 t ts) as (p' & Hl & Hr');
    try assumption; [lia|].
  exists p'. split; [|assumption].
  rewrite expr_S, Ht, bind_Ok. exact Hl.
Qed.

(** ** The lexer at a position of its text *)

Lemma append_nil (b : string) : String.append "" b = b.
Proof. reflexivity. Qed.

Lemma append_cons (x : ascii) (a b : string) :
  String.append (String x a) b = String x (String.append a b).
Proof. reflexivity. Qed.

Lemma append_assoc (a b c : string) :
  String.append (String.append a b) c = String.append a (String.append b c).
Proof.
  induction a as [|x a IH]; rewrite ?append_nil, ?append_cons; [reflexivity|].
  now rewrite IH.
Qed.

Lemma length_append (a b : string) :
  String.length (String.append a b) = (String.length a + String.length b)%nat.
Proof.
  induction a as [|x a IH]; rewrite ?append_nil, ?append_cons; simpl; [reflexivity|].
  now rewrite IH.
Qed.

Lemma get_append (a b : string) (n : nat) :
  String.get (String.length a + n) (String.append a b) = String.get n b.
Proof.
  induction a as [|x a IH]; rewrite ?append_nil, ?append_cons; simpl; [reflexivity|].
  exact IH.
Qed.

Lemma init_reading (text : string) :
  text <> "" -> Lexer.init text = Ok (reading "" text).
Proof.
  intros H. destruct text as [|c text]; [congruence|]. reflexivity.
Qed.

Lemma advance_reading (before : string) (c : ascii) (rest : string) :
  Lexer.advance (reading before (String c rest))
  = reading (append_char before c) rest.
Proof.
  unfold Lexer.advance, reading, append_char, Lexer.len; simpl.
  rewrite append_assoc, append_cons, append_nil.
  rewrite !length_append; simpl.
  replace (S (String.length before)) with (String.length before + 1)%nat by lia.
  destruct rest as [|d rest]; simpl.
  - destruct (Z.gtb_spec (Z.of_nat (String.length before + 1))
                (Z.of_nat (String.length before + 1) - 1)); [reflexivity|lia].
  - destruct (Z.gtb_spec (Z.of_nat (String.length before + 1))
                (Z.of_nat (String.length before + S (S (String.length rest))) - 1));
      [lia|].
    f_equal.
    change (String c (String d rest)) with (String.append (String c "") (String d rest)).
    rewrite <- append_assoc.
    replace (String.length before + 1)%nat
      with (String.length (String.append before (String c "")) + 0)%nat
      by (rewrite length_append; simpl; lia).
    apply get_append.
Qed.

Lemma current_char_reading (before rest : string) :
  Lexer.current_char (reading before rest) = String.get 0 rest.
Proof. reflexivity. Qed.

#[local] Arguments Lexer.advance : simpl never.
#[local] Arguments reading : simpl never.

Lemma integer_loop_stop n result lx :
  match Lexer.current_char lx with
  | Some c => Char.isdigit c = false
  | None => True
  end ->
  Lexer.integer_loop n result lx = Ok (result, lx).
Proof.
  intros H. destruct n; simpl; destruct (Lexer.current_char lx); try reflexivity;
    now rewrite H.
Qed.

(** A sign is lexed as its token, whatever comes before and after. *)
Lemma get_next_token_sign (b : bool) (before rest : string) :
  Lexer.get_next_token (reading before (String (sign_char b) rest))
  = Ok (sign_token b, reading (append_char before (sign_char b)) rest).
Proof.
  unfold Lexer.get_next_token, Lexer.fuel.
  destruct b; simpl; now rewrite advance_reading.
Qed.

(** The digit [3] at the end of the text is lexed as the integer 3. *)
Lemma get_next_token_3 (before : string) :
  Lexer.get_next_token (reading before "3")
  = Ok (TokInteger 3, reading (append_char before "3") "").
Proof.
  unfold Lexer.get_next_token, Lexer.fuel. simpl.
  unfold Lexer.integer, Lexer.fuel. simpl.
  rewrite advance_reading.
  rewrite integer_loop_stop by exact I.
  reflexivity.
Qed.

Lemma yields_signs (signs : list bool) :
  forall before,
    yields (reading before (signs_text signs "3"))
      (signs_tokens signs ++ [TokInteger 3; TokEOF]).
Proof.
  induction signs as [|b signs IH]; intros before; simpl.
  - eapply yields_cons; [apply get_next_token_3|].
    eapply yields_cons; [|constructor].
    apply get_next_token_None. reflexivity.
  - eapply yields_cons; [apply get_next_token_sign|]. apply IH.
Qed.

Lemma init_reads lx tokens :
  yields lx tokens -> tokens <> [] ->
  exists p, Parser.init lx = Ok p /\ reads p tokens.
Proof.
  intros H Hne. inversion H as [|lx0 t lx' ts Hg Hy]; subst; [congruence|].
  exists (Parser.mk lx' t). split; [|now constructor].
  unfold Parser.init. rewrite Hg. reflexivity.
Qed.

Lemma length_signs_text signs operand :
  String.length (signs_text signs operand)
  = (length signs + String.length operand)%nat.
Proof. induction signs as [|b signs IH]; simpl; [reflexivity|]. now rewrite IH. Qed.

Lemma signs_text_nonempty signs : signs_text signs "3" <> "".
Proof. destruct signs; discriminate. Qed.

(** The value of nested unary operators on an integer. *)
Lemma visit_signs_tree signs v scope :
  Interpreter.visit (signs_tree signs (Num v)) scope
  = (Ok (PInt (signs_value signs v)), scope).
Proof.
  induction signs as [|b signs IH]; simpl; [reflexivity|].
  destruct b; simpl; unfold Interpreter.seq; simpl in IH; rewrite IH; reflexivity.
Qed.

Lemma parse_expr_signs signs :
  parse_expr (signs_text signs "3") = Ok (signs_tree signs (Num 3), TokEOF).
Proof.
  unfold parse_expr.
  rewrite (init_reading _ (signs_text_nonempty signs)), bind_Ok.
  destruct (init_reads _ _ (yields_signs signs "")) as (p & Hp & Hr);
    [apply app_cons_nonempty|].
  rewrite Hp, bind_Ok.
  destruct (expr_signs signs (depth (signs_text signs "3")) p 3 TokEOF [])
    as (p' & He & Hr'); [| |exact Hr|].
  - unfold depth. rewrite length_signs_text. simpl. lia.
  - repeat split; discriminate.
  - rewrite He, bind_Ok. now rewrite (reads_current _ _ _ Hr').
Qed.

(** A decimal digit followed by the end of the text or by a sign is lexed
    as the integer it denotes. *)
Lemma get_next_token_digit (before : string) (k : nat) (rest : string) :
  (k < 10)%nat ->
  rest = "" \/ (exists b rest', rest = String (sign_char b) rest') ->
  Lexer.get_next_token (reading before (String (digit_char k) rest))
  = Ok (TokInteger (Z.of_nat k), reading (append_char before (digit_char k)) rest).
Proof.
  intros Hk Hrest.
  assert (Hstop : match String.get 0 rest with
                  | Some c => Char.isdigit c = false
                  | None => True
                  end).
  { destruct Hrest as [-> | (b & rest' & ->)]; [exact I|]. destruct b; reflexivity. }
  do 10 (destruct k as [|k];
         [unfold Lexer.get_next_token, Lexer.fuel; simpl;
          unfold Lexer.integer, Lexer.fuel; simpl;
          rewrite advance_reading;
          rewrite integer_loop_stop by exact Hstop; reflexivity|]).
  lia.
Qed.

Lemma digits_text_head chain :
  digits_text chain = "" \/ (exists b rest', digits_text chain = String (sign_char b) rest').
Proof. destruct chain as [|[b k] chain]; simpl; eauto. Qed.

Lemma yields_digits chain :
  forall before,
    one_digit chain ->
    yields (reading before (digits_text chain))
      (chain_tokens (digits_chain chain) ++ [TokEOF]).
Proof.
  induction chain as [|[b k] chain IH]; intros before Hd; simpl.
  - eapply yields_cons; [|constructor]. apply get_next_token_None. reflexivity.
  - inversion Hd as [|x l Hk Hd']; subst.
    eapply yields_cons; [apply get_next_token_sign|].
    eapply yields_cons;
      [apply get_next_token_digit; [exact Hk|apply digits_text_head]|].
    apply IH. exact Hd'.
Qed.

Lemma digits_chain_additive chain : additive (digits_chain chain).
Proof.
  induction chain as [|[b k] chain IH]; constructor; [|exact IH].
  destruct b; simpl; auto.
Qed.

Lemma length_digits_text chain :
  String.length (digits_text chain) = (2 * length chain)%nat.
Proof. induction chain as [|[b k] chain IH]; simpl; [reflexivity|]. rewrite IH. lia. Qed.

Lemma parse_expr_digits (first : nat) (chain : list (bool * nat)) :
  (first < 10)%nat -> one_digit chain ->
  parse_expr (String (digit_char first) (digits_text chain))
  = Ok (chain_tree (Num (Z.of_nat first)) (digits_chain chain), TokEOF).
Proof.
  intros Hf Hd. unfold parse_expr.
  rewrite init_reading by discriminate. rewrite bind_Ok.
  assert (Hy : yields (reading "" (String (digit_char first) (digits_text chain)))
                 (TokInteger (Z.of_nat first)
                    :: chain_tokens (digits_chain chain) ++ [TokEOF])).
  { eapply yields_cons;
      [apply get_next_token_digit; [exact Hf|apply digits_text_head]|].
    now apply yields_digits. }
  destruct (init_reads _ _ Hy) as (p & Hp & Hr); [discriminate|].
  rewrite Hp, bind_Ok.
  destruct (expr_chain (digits_chain chain)
              (depth (String (digit_char first) (digits_text chain)))
              p (Z.of_nat first) TokEOF [])
    as (p' & He & Hr'); [apply digits_chain_additive| | |exact Hr|].
  - repeat split; discriminate.
  - unfold depth, digits_chain. simpl String.length.
    rewrite length_digits_text, length_map. lia.
  - rewrite He, bind_Ok. now rewrite (reads_current _ _ _ Hr').
Qed.

(** The value of an additive chain of integers is the fold from the left
    of [+] and [-]. *)
Lemma visit_chain_tree chain :
  forall node n scope,
    additive chain ->
    Interpreter.visit node scope = (Ok (PInt n), scope) ->
    Interpreter.visit (chain_tree node chain) scope
    = (Ok (PInt (chain_value n chain)), scope).
Proof.
  induction chain as [|[op a] chain IH]; intros node n scope Ha Hv; simpl;
    [exact Hv|].
  inversion Ha as [|x l Hop Ha']; subst.
  apply IH; [exact Ha'|].
  simpl. destruct Hop as [Hop|Hop]; rewrite Hop; simpl;
    unfold Interpreter.seq; rewrite Hv; reflexivity.
Qed.

(** ** Operator precedence on token streams *)

Lemma additive_one o a : type o = PLUS \/ type o = MINUS -> additive [(o, a)].
Proof. intros H. constructor; [exact H|constructor]. Qed.

Lemma multiplicative_one o a : type o = MUL \/ type o = DIV -> multiplicative [(o, a)].
Proof. intros H. constructor; [exact H|constructor]. Qed.

Lemma additive_not_multiplicative o :
  type o = PLUS \/ type o = MINUS -> type o <> MUL /\ type o <> DIV.
Proof. intros [-> | ->]; split; discriminate. Qed.

(** [a + b * c]: the product is the right child of the sum. *)
Lemma expr_add_mul n p a o1 b o2 c t ts :
  type o1 = PLUS \/ type o1 = MINUS -> type o2 = MUL \/ type o2 = DIV -> stops t ->
  reads p (TokInteger a :: o1 :: TokInteger b :: o2 :: TokInteger c :: t :: ts) ->
  exists p', Parser.expr (S (S (S (S (S n))))) p
             = Ok (BinOp (Num a) o1 (BinOp (Num b) o2 (Num c)), p')
             /\ reads p' (t :: ts).
Proof.
  intros H1 H2 Hs H. pose proof Hs as (Hs1 & Hs2 & Hs3 & Hs4).
  destruct (additive_not_multiplicative o1 H1) as (Hn1 & Hn2).
  destruct (factor_integer (S (S n)) p a _ H) as (p1 & Hf1 & Hr1); [discriminate|].
  pose proof (reads_current _ _ _ Hr1) as Hc1.
  destruct (eat_reads (type o1) p1 _ _ Hr1 eq_refl) as (p2 & He & Hr2); [discriminate|].
  assert (Hlen : (length [(o2, c)] + 1 < S (S (S n)))%nat) by (simpl; lia).
  destruct (term_chain [(o2, c)] (S (S (S n))) p2 b t ts
              (multiplicative_one o2 c H2) Hs3 Hs4 Hlen Hr2) as (p3 & Ht & Hr3).
  exists p3. split; [|assumption].
  rewrite expr_S, term_S, Hf1, bind_Ok. cbv beta iota.
  rewrite (term_loop_stop (S (S n)) _ p1 o1 _ Hr1 Hn1 Hn2).
  rewrite bind_Ok. cbv beta iota.
  rewrite expr_loop_S, Hc1. cbv zeta.
  destruct H1 as [Ho|Ho]; rewrite Ho in He |- *; simpl;
    rewrite He, bind_Ok, Ht, bind_Ok; cbv beta iota;
    apply (expr_loop_stop (S (S n)) _ p3 t ts Hr3 Hs1 Hs2).
Qed.

(** [a * b + c]: the product is the left child of the sum. *)
Lemma expr_mul_add n p a o2 b o1 c t ts :
  type o1 = PLUS \/ type o1 = MINUS -> type o2 = MUL \/ type o2 = DIV -> stops t ->
  reads p (TokInteger a :: o2 :: TokInteger b :: o1 :: TokInteger c :: t :: ts) ->
  exists p', Parser.expr (S (S (S (S (S n))))) p
             = Ok (BinOp (BinOp (Num a) o2 (Num b)) o1 (Num c), p')
             /\ reads p' (t :: ts).
Proof.
  intros H1 H2 Hs H.
  destruct (additive_not_multiplicative o1 H1) as (Hn1 & Hn2).
  assert (Hlen : (length [(o2, b)] + 1 < S (S (S (S n))))%nat) by (simpl; lia).
  destruct (term_chain [(o2, b)] (S (S (S (S n)))) p a o1 (TokInteger c :: t :: ts)
              (multiplicative_one o2 b H2) Hn1 Hn2 Hlen H) as (p1 & Ht & Hr1).
  assert (Hlen' : (length [(o1, c)] + 2 < S (S (S (S n))))%nat) by (simpl; lia).
  destruct (expr_loop_chain [(o1, c)] (S (S (S (S n))))
              (BinOp (Num a) o2 (Num b)) p1 t ts
              (additive_one o1 c H1) Hs Hlen' Hr1) as (p2 & Hl & Hr2).
  exists p2. split; [|assumption].
  rewrite expr_S, Ht, bind_Ok. exact Hl.
Qed.

(** [(a + b) * c]: the parenthesized sum is the left child of the
    product. *)
Lemma expr_paren_mul n p a o1 b o2 c t ts :
  type o1 = PLUS \/ type o1 = MINUS -> type o2 = MUL \/ type o2 = DIV -> stops t ->
  reads p (TokLParen :: TokInteger a :: o1 :: TokInteger b :: TokRParen
             :: o2 :: TokInteger c :: t :: ts) ->
  exists p', Parser.expr (S (S (S (S (S (S (S (S n)))))))) p
             = Ok (BinOp (BinOp (Num a) o1 (Num b)) o2 (Num c), p')
             /\ reads p' (t :: ts).
Proof.
  intros H1 H2 Hs H. pose proof Hs as (Hs1 & Hs2 & Hs3 & Hs4).
  pose proof (reads_current _ _ _ H) as Hc.
  destruct (eat_reads LPAREN p _ _ H eq_refl) as (p1 & He1 & Hr1); [discriminate|].
  assert (Hstop : stops TokRParen) by (repeat split; discriminate).
  assert (Hlen : (length [(o1, b)] + 3 < S (S (S (S (S n)))))%nat) by (simpl; lia).
  destruct (expr_chain [(o1, b)] (S (S (S (S (S n))))) p1 a TokRParen
              (o2 :: TokInteger c :: t :: ts)
              (additive_one o1 b H1) Hstop Hlen Hr1) as (p2 & Hx & Hr2).
  destruct (eat_reads RPAREN p2 _ _ Hr2 eq_refl) as (p3 & He3 & Hr3); [discriminate|].
  assert (Hlen' : (length [(o2, c)] < S (S (S (S (S (S n))))))%nat) by (simpl; lia).
  destruct (term_loop_chain [(o2, c)] (S (S (S (S (S (S n))))))
              (BinOp (Num a) o1 (Num b)) p3 t ts
              (multiplicative_one o2 c H2) Hs3 Hs4 Hlen' Hr3) as (p4 & Hl & Hr4).
  exists p4. split; [|assumption].
  cbn [chain_tree fold_left] in Hx, Hl.
  rewrite expr_S, term_S, factor_S, Hc. cbv zeta.
  rewrite He1, bind_Ok, Hx, bind_Ok. cbv beta iota.
  rewrite He3, !bind_Ok. cbv beta iota.
  rewrite Hl, bind_Ok. cbv beta iota.
  apply (expr_loop_stop _ _ p4 t ts Hr4 Hs1 Hs2).
Qed.

(** ** Statements on token streams *)

Lemma statement_S n self :
  Parser.statement (S n) self =
    if decide (type (Parser.current_token self) = BEGIN)
    then Parser.compound_statement n self
    else if decide (type (Parser.current_token self) = ID)
         then Parser.assignment_statement n self
         else Parser.empty self.
Proof. reflexivity. Qed.

Lemma statement_list_loop_S n results self :
  Parser.statement_list_loop (S n) results self =
    if decide (type (Parser.current_token self) = SEMI) then
      self ← Parser.eat SEMI self;
      '(node, self) ← Parser.statement n self;
      Parser.statement_list_loop n (results ++ [node]) self
    else Ok (results, self).
Proof. reflexivity. Qed.

#[local] Arguments Parser.statement : simpl never.
#[local] Arguments Parser.statement_list_loop : simpl never.

(** A statement that starts with neither [BEGIN] nor an identifier is the
    empty statement: [NoOp], and no token is consumed. *)
Lemma statement_empty n p :
  type (Parser.current_token p) <> BEGIN ->
  type (Parser.current_token p) <> ID ->
  Parser.statement (S n) p = Ok (NoOp, p).
Proof.
  intros H1 H2. rewrite statement_S.
  rewrite !decide_False by assumption. reflexivity.
Qed.

(** A semicolon directly before [END]: the loop of [statement_list] eats
    the semicolon, takes the empty statement and appends [NoOp], and stops
    at [END]. *)
Lemma statement_list_loop_semi_end n results p ts :
  reads p (TokSemi :: TokEnd :: ts) ->
  exists p', Parser.statement_list_loop (S (S n)) results p
             = Ok (results ++ [NoOp], p')
             /\ reads p' (TokEnd :: ts).
Proof.
  intros H. pose proof (reads_current _ _ _ H) as Hc.
  destruct (eat_reads SEMI p _ _ H eq_refl) as (p1 & He & Hr1); [discriminate|].
  pose proof (reads_current _ _ _ Hr1) as Hc1.
  exists p1. split; [|assumption].
  rewrite statement_list_loop_S, Hc. simpl.
  rewrite He, bind_Ok.
  rewrite statement_empty by (rewrite Hc1; discriminate).
  rewrite bind_Ok. cbv beta iota.
  rewrite statement_list_loop_S, Hc1. reflexivity.
Qed.



(** ** What the parser builds and what the visitor stores *)

Lemma bind_Ok_inv {A B : Type} (m : outcome A) (k : A -> outcome B) (b : B) :
  m ≫= k = Ok b -> exists a, m = Ok a /\ k a = Ok b.
Proof. destruct m as [a| |]; simpl; intros H; try discriminate. eauto. Qed.

Lemma factor_0 p : Parser.factor 0 p = OutOfFuel.
Proof. reflexivity. Qed.
Lemma term_loop_0 node p : Parser.term_loop 0 node p = OutOfFuel.
Proof. reflexivity. Qed.
Lemma term_0 p : Parser.term 0 p = OutOfFuel.
Proof. reflexivity. Qed.
Lemma expr_loop_0 node p : Parser.expr_loop 0 node p = OutOfFuel.
Proof. reflexivity. Qed.
Lemma expr_0 p : Parser.expr 0 p = OutOfFuel.
Proof. reflexivity. Qed.

Lemma variable_Var p node p' :
  Parser.variable p = Ok (node, p') -> exists name, node = Var name.
Proof.
  unfold Parser.variable. destruct (Parser.current_token p); try discriminate.
  intros H. apply bind_Ok_inv in H as (p1 & _ & H). inversion H; eauto.
Qed.

(** Every node that [factor], [term] and [expr] return is an expression
    node. *)
Lemma expr_is_expr n :
  (forall p node p', Parser.factor n p = Ok (node, p') -> is_expr node = true)
  /\ (forall node0 p node p',
        is_expr node0 = true ->
        Parser.term_loop n node0 p = Ok (node, p') -> is_expr node = true)
  /\ (forall p node p', Parser.term n p = Ok (node, p') -> is_expr node = true)
  /\ (forall node0 p node p',
        is_expr node0 = true ->
        Parser.expr_loop n node0 p = Ok (node, p') -> is_expr node = true)
  /\ (forall p node p', Parser.expr n p = Ok (node, p') -> is_expr node = true).
Proof.
  induction n as [|n (IHf & IHtl & IHt & IHel & IHe)].
  - repeat split; intros; try rewrite factor_0 in *; try rewrite term_loop_0 in *;
      try rewrite term_0 in *; try rewrite expr_loop_0 in *;
      try rewrite expr_0 in *; discriminate.
  - assert (Hf : forall p node p',
               Parser.factor (S n) p = Ok (node, p') -> is_expr node = true).
    { intros p node p' H. rewrite factor_S in H. cbv zeta in H.
      destruct (Parser.current_token p) eqn:Hc; try discriminate.
      - apply bind_Ok_inv in H as (p1 & _ & H). inversion H; reflexivity.
      - apply bind_Ok_inv in H as (p1 & _ & H).
        apply bind_Ok_inv in H as ([e p2] & He & H). inversion H; subst.
        simpl. now apply IHf in He.
      - apply bind_Ok_inv in H as (p1 & _ & H).
        apply bind_Ok_inv in H as ([e p2] & He & H). inversion H; subst.
        simpl. now apply IHf in He.
      - apply bind_Ok_inv in H as (p1 & _ & H).
        apply bind_Ok_inv in H as ([e p2] & He & H).
        apply bind_Ok_inv in H as (p3 & _ & H). inversion H; subst.
        now apply IHe in He.
      - apply variable_Var in H as (name & ->). reflexivity. }
    assert (Htl : forall node0 p node p',
               is_expr node0 = true ->
               Parser.term_loop (S n) node0 p = Ok (node, p') -> is_expr node = true).
    { intros node0 p node p' H0 H. rewrite term_loop_S in H. cbv zeta in H.
      destruct (bool_decide (type (Parser.current_token p) = MUL)
                || bool_decide (type (Parser.current_token p) = DIV)) eqn:Hop.
      - apply bind_Ok_inv in H as (p1 & _ & H).
        apply bind_Ok_inv in H as ([r p2] & Hr & H).
        apply IHtl in H; [exact H|]. simpl. apply IHf in Hr. rewrite H0, Hr.
        rewrite !andb_true_r. rewrite <- orb_assoc, Hop. apply orb_true_r.
      - inversion H; subst; assumption. }
    assert (Ht : forall p node p',
               Parser.term (S n) p = Ok (node, p') -> is_expr node = true).
    { intros p node p' H. rewrite term_S in H.
      apply bind_Ok_inv in H as ([e p1] & He & H). apply IHf in He.
      now apply IHtl in H. }
    assert (Hel : forall node0 p node p',
               is_expr node0 = true ->
               Parser.expr_loop (S n) node0 p = Ok (node, p') -> is_expr node = true).
    { intros node0 p node p' H0 H. rewrite expr_loop_S in H. cbv zeta in H.
      destruct (bool_decide (type (Parser.current_token p) = PLUS)
                || bool_decide (type (Parser.current_token p) = MINUS)) eqn:Hop.
      - apply bind_Ok_inv in H as (p1 & _ & H).
        apply bind_Ok_inv in H as ([r p2] & Hr & H).
        apply IHel in H; [exact H|]. simpl. apply IHt in Hr. rewrite H0, Hr, Hop.
        reflexivity.
      - inversion H; subst; assumption. }
    assert (He : forall p node p',
               Parser.expr (S n) p = Ok (node, p') -> is_expr node = true).
    { intros p node p' H. rewrite expr_S in H.
      apply bind_Ok_inv in H as ([e p1] & He & H). apply IHt in He.
      now apply IHel in H. }
    repeat split; assumption.
Qed.

Lemma compound_statement_S n self :
  Parser.compound_statement (S n) self =
    self ← Parser.eat BEGIN self;
    '(nodes, self) ← Parser.statement_list n self;
    self ← Parser.eat END self;
    Ok (Compound nodes, self).
Proof. reflexivity. Qed.

Lemma statement_list_S n self :
  Parser.statement_list (S n) self =
    '(node, self) ← Parser.statement n self;
    Parser.statement_list_loop n [node] self.
Proof. reflexivity. Qed.

#[local] Arguments Parser.compound_statement : simpl never.
#[local] Arguments Parser.statement_list : simpl never.

Lemma assignment_statement_is_stmt n p node p' :
  Parser.assignment_statement n p = Ok (node, p') -> is_stmt node = true.
Proof.
  unfold Parser.assignment_statement. intros H.
  apply bind_Ok_inv in H as ([l p1] & _ & H).
  apply bind_Ok_inv in H as (p2 & _ & H).
  apply bind_Ok_inv in H as ([r p3] & Hr & H). inversion H; subst.
  simpl. now apply (expr_is_expr n) in Hr.
Qed.

(** Every node that the statement rules return is a statement node. *)
Lemma statement_is_stmt n :
  (forall p node p',
      Parser.compound_statement n p = Ok (node, p') -> is_stmt node = true)
  /\ (forall results p nodes p',
        forallb is_stmt results = true ->
        Parser.statement_list_loop n results p = Ok (nodes, p') ->
        forallb is_stmt nodes = true)
  /\ (forall p nodes p',
        Parser.statement_list n p = Ok (nodes, p') -> forallb is_stmt nodes = true)
  /\ (forall p node p', Parser.statement n p = Ok (node, p') -> is_stmt node = true).
Proof.
  induction n as [|n (IHc & IHl & IHsl & IHs)].
  - repeat split; intros; discriminate.
  - repeat split.
    + intros p node p' H. rewrite compound_statement_S in H.
      apply bind_Ok_inv in H as (p1 & _ & H).
      apply bind_Ok_inv in H as ([nodes p2] & Hn & H).
      apply bind_Ok_inv in H as (p3 & _ & H). inversion H; subst.
      simpl. now apply IHsl in Hn.
    + intros results p nodes p' H0 H. rewrite statement_list_loop_S in H.
      destruct (decide (type (Parser.current_token p) = SEMI)).
      * apply bind_Ok_inv in H as (p1 & _ & H).
        apply bind_Ok_inv in H as ([node p2] & Hs & H).
        apply IHl in H; [exact H|]. rewrite forallb_app, H0. simpl.
        apply IHs in Hs. now rewrite Hs.
      * inversion H; subst; assumption.
    + intros p nodes p' H. rewrite statement_list_S in H.
      apply bind_Ok_inv in H as ([node p1] & Hs & H).
      apply IHl in H; [exact H|]. simpl. apply IHs in Hs. now rewrite Hs.
    + intros p node p' H. rewrite statement_S in H.
      destruct (decide (type (Parser.current_token p) = BEGIN)); [now apply IHc in H|].
      destruct (decide (type (Parser.current_token p) = ID));
        [now apply assignment_statement_is_stmt in H|].
      inversion H; reflexivity.
Qed.

Lemma parse_is_stmt n p tree p' :
  Parser.parse n p = Ok (tree, p') -> is_stmt tree = true.
Proof.
  unfold Parser.parse, Parser.program. intros H.
  apply bind_Ok_inv in H as ([node p1] & H & H').
  apply bind_Ok_inv in H as ([node' p2] & Hc & H).
  apply bind_Ok_inv in H as (p3 & _ & H). inversion H; subst.
  destruct (decide (type (Parser.current_token p1) <> EOF)); [discriminate|].
  inversion H'; subst. now apply (statement_is_stmt n) in Hc.
Qed.

(** Visiting an expression node stores nothing, whether it returns or
    raises, and what it returns is a number. *)
Lemma visit_expr node :
  is_expr node = true ->
  forall scope r scope',
    Interpreter.visit node scope = (r, scope') ->
    scope' = scope /\ (forall v, r = Ok v -> is_number v = true).
Proof.
  induction node as [l op r IHl IHr|value|children _|x op r _|value| |op e IHe]
    using AST_ind; intros He scope res scope' H; simpl in He; try discriminate.
  - apply andb_true_iff in He as (He & Hr). apply andb_true_iff in He as (Hop & Hl).
    specialize (IHl Hl). specialize (IHr Hr).
    assert (Hgen : forall f,
               (forall a b v, f a b = Ok v -> is_number v = true) ->
               Interpreter.seq (Interpreter.visit l)
                 (fun a => Interpreter.seq (Interpreter.visit r)
                             (fun b => Interpreter.ret (f a b))) scope = (res, scope') ->
               scope' = scope /\ (forall v, res = Ok v -> is_number v = true)).
    { intros f Hf Hs. unfold Interpreter.seq, Interpreter.ret in Hs.
      destruct (Interpreter.visit l scope) as [rl s1] eqn:El.
      destruct (IHl _ _ _ El) as (-> & _).
      destruct rl as [a| |]; try (inversion Hs; subst; split; [reflexivity|discriminate]).
      destruct (Interpreter.visit r scope) as [rr s2] eqn:Er.
      destruct (IHr _ _ _ Er) as (-> & _).
      destruct rr as [b| |]; try (inversion Hs; subst; split; [reflexivity|discriminate]).
      inversion Hs; subst. split; [reflexivity|]. intros v Hv. now apply Hf in Hv. }
    simpl in H.
    destruct (decide (type op = PLUS));
      [apply (Hgen Py.add); [intros a b v Hv; now apply arith_number in Hv|exact H]|].
    destruct (decide (type op = MINUS));
      [apply (Hgen Py.sub); [intros a b v Hv; now apply arith_number in Hv|exact H]|].
    destruct (decide (type op = MUL));
      [apply (Hgen Py.mul); [intros a b v Hv; now apply arith_number in Hv|exact H]|].
    destruct (decide (type op = DIV));
      [apply (Hgen Py.truediv); [intros a b v Hv; now apply truediv_number in Hv|exact H]|].
    rewrite !bool_decide_eq_false_2 in Hop by assumption. discriminate.
  - inversion H; subst. split; [reflexivity|]. intros v Hv; inversion Hv; reflexivity.
  - simpl in H. unfold Interpreter.visit_Var in H.
    destruct (default PNone (scope !! value)) eqn:Ed; inversion H; subst;
      (split; [reflexivity|]); intros v Hv; inversion Hv; reflexivity.
  - apply andb_true_iff in He as (Hop & He). specialize (IHe He).
    assert (Hgen : forall f,
               (forall a v, f a = Ok v -> is_number v = true) ->
               Interpreter.seq (Interpreter.visit e)
                 (fun a => Interpreter.ret (f a)) scope = (res, scope') ->
               scope' = scope /\ (forall v, res = Ok v -> is_number v = true)).
    { intros f Hf Hs. unfold Interpreter.seq, Interpreter.ret in Hs.
      destruct (Interpreter.visit e scope) as [re s1] eqn:Ee.
      destruct (IHe _ _ _ Ee) as (-> & _).
      destruct re as [a| |]; try (inversion Hs; subst; split; [reflexivity|discriminate]).
      inversion Hs; subst. split; [reflexivity|]. intros v Hv. now apply Hf in Hv. }
    simpl in H.
    destruct (decide (type op = PLUS));
      [apply (Hgen Py.pos); [intros a v Hv; now apply pos_number in Hv|exact H]|].
    destruct (decide (type op = MINUS));
      [apply (Hgen Py.neg); [intros a v Hv; now apply neg_number in Hv|exact H]|].
    rewrite !bool_decide_eq_false_2 in Hop by assumption. discriminate.
Qed.

Lemma numeric_insert scope name val :
  numeric scope -> is_number val = true -> numeric (<[name := val]> scope).
Proof.
  intros Hs Hv k v H. destruct (decide (name = k)) as [->|Hne].
  - rewrite lookup_insert_eq in H. now inversion H; subst.
  - rewrite lookup_insert_ne in H by assumption. now apply (Hs k).
Qed.

(** Visiting a statement node keeps a numeric scope numeric, whether it
    returns or raises. *)
Lemma visit_stmt_numeric node :
  is_stmt node = true ->
  forall scope r scope',
    numeric scope -> Interpreter.visit node scope = (r, scope') -> numeric scope'.
Proof.
  induction node as [l op r IHl IHr|value|children IH|x op r _|value| |op e IHe]
    using AST_ind; intros Hs scope res scope' Hn H; simpl in Hs; try discriminate.
  - rewrite visit_Compound in H. revert scope Hn H.
    induction children as [|c cs IHcs]; intros scope Hn H; simpl in H.
    + inversion H; subst; assumption.
    + simpl in Hs. apply andb_true_iff in Hs as (Hc & Hcs).
      inversion IH as [|c' cs' IHc IHrest]; subst.
      unfold Interpreter.seq in H.
      destruct (Interpreter.visit c scope) as [rc s1] eqn:Ec.
      pose proof (IHc Hc _ _ _ Hn Ec) as Hn1.
      destruct rc as [a| |]; try (inversion H; subst; assumption).
      now apply (IHcs IHrest Hcs s1).
  - simpl in H. unfold Interpreter.seq in H.
    destruct (Interpreter.visit r scope) as [rr s1] eqn:Er.
    destruct (visit_expr r Hs _ _ _ Er) as (-> & Hv).
    destruct rr as [v| |]; inversion H; subst; try assumption.
    apply numeric_insert; [assumption|now apply Hv].
  - inversion H; subst; assumption.
Qed.

Lemma numeric_empty : numeric ∅.
Proof. intros k v H. rewrite lookup_empty in H. discriminate. Qed.

(** Whatever [main] is given, the scope it leaves holds numbers only. *)
Lemma main_numeric text r scope : main text = (r, scope) -> numeric scope.
Proof.
  unfold main. destruct (lexer ← Lexer.init text; Parser.init lexer) as [p| |];
    try (intros H; inversion H; subst; apply numeric_empty).
  unfold Interpreter.interpret, Interpreter.init; simpl.
  destruct (Parser.parse (depth text) p) as [[tree p']| |] eqn:Ep;
    try (intros H; inversion H; subst; apply numeric_empty).
  intros H. apply parse_is_stmt in Ep.
  exact (visit_stmt_numeric tree Ep _ _ _ numeric_empty H).
Qed.


Lemma visit_Assign name op r scope :
  Interpreter.visit (Assign name op r) scope
  = Interpreter.seq (Interpreter.visit r)
      (fun val scope => (Ok PNone, <[name := val]> scope)) scope.
Proof. reflexivity. Qed.

Lemma float_of_int_raise n e : Py.float_of_int n = Raise e -> e = OverflowError.
Proof.
  unfold Py.float_of_int.
  destruct (binary_normalize Py.prec Py.emax n 0 false); intros H;
    inversion H; reflexivity.
Qed.

Lemma float_of_int_fuel n : Py.float_of_int n <> OutOfFuel.
Proof.
  unfold Py.float_of_int.
  destruct (binary_normalize Py.prec Py.emax n 0 false); discriminate.
Qed.

(** What [a / b] raises when [b == 0] and [a] is a number. *)
Lemma truediv_zero a b :
  is_number a = true -> Py.is_zero b = true ->
  Py.truediv a b = Raise ZeroDivisionError
  \/ (Py.truediv a b = Raise OverflowError
      /\ exists n x, a = PInt n /\ b = PFloat x
                     /\ Py.float_of_int n = Raise OverflowError).
Proof.
  intros Ha Hb. destruct a as [|n|x]; [discriminate| |];
    destruct b as [|m|y]; try discriminate; simpl in Hb.
  - left. simpl. unfold Py.int_truediv. rewrite Hb. reflexivity.
  - simpl. destruct (Py.float_of_int n) as [x| |] eqn:En.
    + left. simpl. rewrite Hb. reflexivity.
    + right. apply float_of_int_raise in En as Ee. subst e.
      split; [reflexivity|]. eauto.
    + now apply float_of_int_fuel in En.
  - left. apply Z.eqb_eq in Hb. subst m. reflexivity.
  - left. simpl. rewrite Hb. reflexivity.
Qed.


(** ** The lexer always returns or raises, and moves forward *)

Lemma cursor_ok_Some lx c :
  Lexer.cursor_ok lx -> Lexer.current_char lx = Some c ->
  (Lexer.pos lx < String.length (Lexer.text lx))%nat.
Proof.
  unfold Lexer.cursor_ok. intros Hok Hc.
  destruct (Nat.lt_ge_cases (Lexer.pos lx) (String.length (Lexer.text lx)))
    as [H|H]; [exact H|].
  apply string_get_None in H. congruence.
Qed.

Lemma advance_remaining lx c :
  Lexer.cursor_ok lx -> Lexer.current_char lx = Some c ->
  S (Lexer.remaining (Lexer.advance lx)) = Lexer.remaining lx
  /\ Lexer.text (Lexer.advance lx) = Lexer.text lx.
Proof.
  intros Hok Hc. pose proof (cursor_ok_Some lx c Hok Hc) as Hlt.
  unfold Lexer.remaining, Lexer.advance.
  destruct (Z.of_nat (S (Lexer.pos lx)) >? Lexer.len (Lexer.text lx) - 1);
    simpl; split; try reflexivity; lia.
Qed.

Lemma forward_refl lx : Lexer.cursor_ok lx -> forward lx lx.
Proof. intros H. repeat split; auto. Qed.

Lemma forward_advance lx lx' c :
  Lexer.cursor_ok lx -> Lexer.current_char lx = Some c ->
  forward (Lexer.advance lx) lx' ->
  forward lx lx' /\ (Lexer.remaining lx' < Lexer.remaining lx)%nat.
Proof.
  intros Hok Hc (H1 & H2 & H3).
  destruct (advance_remaining lx c Hok Hc) as (Hr & Ht).
  repeat split; [assumption|congruence|lia|lia].
Qed.

Lemma skip_whitespace_loop_forward n lx :
  Lexer.cursor_ok lx -> (Lexer.remaining lx < n)%nat ->
  exists lx', Lexer.skip_whitespace_loop n lx = Ok lx' /\ forward lx lx'
              /\ match Lexer.current_char lx' with
                 | Some c => Char.isspace c = false
                 | None => True
                 end.
Proof.
  revert lx. induction n as [|n IH]; intros lx Hok Hn; [lia|].
  simpl. destruct (Lexer.current_char lx) as [c|] eqn:Hc.
  - destruct (Char.isspace c) eqn:Hs.
    + destruct (advance_remaining lx c Hok Hc) as (Hr & Ht).
      destruct (IH (Lexer.advance lx) (cursor_ok_advance lx)) as (lx' & He & Hf & Hh);
        [lia|].
      exists lx'. split; [exact He|]. split; [|exact Hh].
      now apply (forward_advance lx lx' c).
    + exists lx. rewrite Hc, Hs. auto using forward_refl.
  - exists lx. rewrite Hc. auto using forward_refl.
Qed.

Lemma integer_loop_forward n result lx :
  Lexer.cursor_ok lx -> (Lexer.remaining lx < n)%nat ->
  exists result' lx',
    Lexer.integer_loop n result lx = Ok (result', lx') /\ forward lx lx'
    /\ (forall c, Lexer.current_char lx = Some c -> Char.isdigit c = true ->
                  (Lexer.remaining lx' < Lexer.remaining lx)%nat).
Proof.
  revert result lx. induction n as [|n IH]; intros result lx Hok Hn; [lia|].
  simpl. destruct (Lexer.current_char lx) as [c|] eqn:Hc.
  - destruct (Char.isdigit c) eqn:Hs.
    + destruct (advance_remaining lx c Hok Hc) as (Hr & Ht).
      destruct (IH (append_char result c) (Lexer.advance lx) (cursor_ok_advance lx))
        as (r' & lx' & He & Hf & _); [lia|].
      exists r', lx'. split; [exact He|].
      destruct (forward_advance lx lx' c Hok Hc Hf) as (Hf' & Hlt). auto.
    + exists result, lx. split; [reflexivity|]. split; [now apply forward_refl|].
      intros c' Hc' Hd. congruence.
  - exists result, lx. split; [reflexivity|]. split; [now apply forward_refl|].
    intros c' Hc'. discriminate.
Qed.

Lemma _id_loop_forward n result lx :
  Lexer.cursor_ok lx -> (Lexer.remaining lx < n)%nat ->
  exists result' lx',
    Lexer._id_loop n result lx = Ok (result', lx') /\ forward lx lx'
    /\ (forall c, Lexer.current_char lx = Some c -> Char.isalnum c = true ->
                  (Lexer.remaining lx' < Lexer.remaining lx)%nat).
Proof.
  revert result lx. induction n as [|n IH]; intros result lx Hok Hn; [lia|].
  simpl. destruct (Lexer.current_char lx) as [c|] eqn:Hc.
  - destruct (Char.isalnum c) eqn:Hs.
    + destruct (advance_remaining lx c Hok Hc) as (Hr & Ht).
      destruct (IH (append_char result c) (Lexer.advance lx) (cursor_ok_advance lx))
        as (r' & lx' & He & Hf & _); [lia|].
      exists r', lx'. split; [exact He|].
      destruct (forward_advance lx lx' c Hok Hc Hf) as (Hf' & Hlt). auto.
    + exists result, lx. split; [reflexivity|]. split; [now apply forward_refl|].
      intros c' Hc' Hd. congruence.
  - exists result, lx. split; [reflexivity|]. split; [now apply forward_refl|].
    intros c' Hc'. discriminate.
Qed.

Lemma advance_le lx :
  Lexer.text (Lexer.advance lx) = Lexer.text lx
  /\ (Lexer.remaining (Lexer.advance lx) <= Lexer.remaining lx)%nat.
Proof.
  unfold Lexer.remaining, Lexer.advance.
  destruct (Z.of_nat (S (Lexer.pos lx)) >? Lexer.len (Lexer.text lx) - 1);
    simpl; split; try reflexivity; lia.
Qed.

Lemma forward_trans a b c : forward a b -> forward b c -> forward a c.
Proof.
  intros (H1 & H2 & H3) (H4 & H5 & H6). repeat split; [assumption|congruence|lia].
Qed.

Lemma token_advance lx c tok :
  Lexer.cursor_ok lx -> Lexer.current_char lx = Some c ->
  token_or_raise lx (Ok (tok, Lexer.advance lx)).
Proof.
  intros Hok Hc. left. exists tok, (Lexer.advance lx). split; [reflexivity|].
  destruct (advance_remaining lx c Hok Hc) as (Hr & Ht).
  repeat split; [apply cursor_ok_advance|assumption|lia|lia].
Qed.

Lemma isalpha_isalnum c : Char.isalpha c = true -> Char.isalnum c = true.
Proof. unfold Char.isalnum. intros ->. reflexivity. Qed.

Lemma get_next_token_loop_ok n lx :
  Lexer.cursor_ok lx ->
  (1 <= n)%nat \/ match Lexer.current_char lx with
                  | Some c => Char.isspace c = false
                  | None => True
                  end ->
  token_or_raise lx (Lexer.get_next_token_loop n lx).
Proof.
  assert (Hfuel : forall lx, (Lexer.remaining lx < Lexer.fuel lx)%nat)
    by (intros; unfold Lexer.remaining, Lexer.fuel; lia).
  assert (Hbody : forall n lx,
             (forall lx1, Lexer.cursor_ok lx1 ->
                          match Lexer.current_char lx1 with
                          | Some c => Char.isspace c = false
                          | None => True
                          end ->
                          forall m, n = S m ->
                          token_or_raise lx1 (Lexer.get_next_token_loop m lx1)) ->
             Lexer.cursor_ok lx ->
             (1 <= n)%nat \/ match Lexer.current_char lx with
                             | Some c => Char.isspace c = false
                             | None => True
                             end ->
             token_or_raise lx (Lexer.get_next_token_loop n lx)).
  { clear n lx. intros n lx IH Hok Hn.
    assert (Heq : Lexer.get_next_token_loop n lx =
                  match Lexer.current_char lx with
                  | None => Ok (TokEOF, lx)
                  | Some c =>
                      if Char.isalpha c then Lexer._id lx
                      else if Lexer.char_is c ":" && Lexer.peek_is lx "=" then
                        Ok (TokAssign, Lexer.advance (Lexer.advance lx))
                      else if Lexer.char_is c ";" then Ok (TokSemi, Lexer.advance lx)
                      else if Lexer.char_is c "." then Ok (TokDot, Lexer.advance lx)
                      else if Char.isspace c then
                        match n with
                        | O => OutOfFuel
                        | S n' => self ← Lexer.skip_whitespace lx;
                                  Lexer.get_next_token_loop n' self
                        end
                      else if Char.isdigit c then
                        '(n, self) ← Lexer.integer lx; Ok (TokInteger n, self)
                      else if Lexer.char_is c "+" then Ok (TokPlus, Lexer.advance lx)
                      else if Lexer.char_is c "-" then Ok (TokMinus, Lexer.advance lx)
                      else if Lexer.char_is c "*" then Ok (TokMul, Lexer.advance lx)
                      else if Lexer.char_is c "/" then Ok (TokDiv, Lexer.advance lx)
                      else if Lexer.char_is c "(" then Ok (TokLParen, Lexer.advance lx)
                      else if Lexer.char_is c ")" then Ok (TokRParen, Lexer.advance lx)
                      else Raise InvalidCharacter
                  end) by (destruct n; reflexivity).
    rewrite Heq. clear Heq.
    destruct (Lexer.current_char lx) as [c|] eqn:Hc.
    2:{ left. exists TokEOF, lx. split; [reflexivity|].
        split; [now apply forward_refl|]. intros H; now elim H. }
    destruct (Char.isalpha c) eqn:Ha.
    { unfold Lexer._id.
      destruct (_id_loop_forward (Lexer.fuel lx) "" lx Hok (Hfuel lx))
        as (r' & lx' & He & Hf & Hlt).
      rewrite He. left. eexists _, lx'. split; [reflexivity|].
      split; [exact Hf|]. intros _. apply (Hlt c Hc). now apply isalpha_isalnum. }
    destruct (Lexer.char_is c ":" && Lexer.peek_is lx "=").
    { left. exists TokAssign, (Lexer.advance (Lexer.advance lx)).
      split; [reflexivity|].
      destruct (advance_remaining lx c Hok Hc) as (Hr & Ht).
      destruct (advance_le (Lexer.advance lx)) as (Ht' & Hr').
      repeat split; [apply cursor_ok_advance|congruence|lia|lia]. }
    destruct (Lexer.char_is c ";"); [now apply (token_advance lx c)|].
    destruct (Lexer.char_is c "."); [now apply (token_advance lx c)|].
    destruct (Char.isspace c) eqn:Hs.
    { destruct Hn as [Hn|Hn]; [|congruence].
      destruct n as [|m]; [lia|].
      unfold Lexer.skip_whitespace.
      destruct (skip_whitespace_loop_forward (Lexer.fuel lx) lx Hok (Hfuel lx))
        as (lx1 & He & Hf & Hh).
      rewrite He, bind_Ok.
      destruct (IH lx1 (proj1 Hf) Hh m eq_refl)
        as [(tok & lx' & Hr & Hf' & Hlt)|(e & Hr)]; [left|right; eauto].
      exists tok, lx'. split; [exact Hr|]. split; [now apply (forward_trans lx lx1)|].
      intros Ht. specialize (Hlt Ht). destruct Hf as (_ & _ & Hle). lia. }
    destruct (Char.isdigit c) eqn:Hd.
    { unfold Lexer.integer.
      destruct (integer_loop_forward (Lexer.fuel lx) "" lx Hok (Hfuel lx))
        as (r' & lx' & He & Hf & Hlt).
      rewrite He, bind_Ok. cbv beta iota.
      destruct (Char.int r') as [v| |] eqn:Ei.
      - left. exists (TokInteger v), lx'. split; [reflexivity|].
        split; [exact Hf|]. intros _. now apply (Hlt c Hc).
      - right. eexists. reflexivity.
      - unfold Char.int in Ei. destruct r'; [discriminate|].
        destruct (Char.int_digits 0 (String a r')); discriminate. }
    destruct (Lexer.char_is c "+"); [now apply (token_advance lx c)|].
    destruct (Lexer.char_is c "-"); [now apply (token_advance lx c)|].
    destruct (Lexer.char_is c "*"); [now apply (token_advance lx c)|].
    destruct (Lexer.char_is c "/"); [now apply (token_advance lx c)|].
    destruct (Lexer.char_is c "("); [now apply (token_advance lx c)|].
    destruct (Lexer.char_is c ")"); [now apply (token_advance lx c)|].
    right. eexists. reflexivity. }
  revert lx. induction n as [|n IH]; intros lx Hok Hn.
  - apply Hbody; [|assumption|assumption]. intros lx1 _ _ m Hm. discriminate.
  - apply Hbody; [|assumption|assumption].
    intros lx1 Hok1 Hh m Hm. inversion Hm; subst. apply IH; [assumption|now right].
Qed.

(** [get_next_token] never exhausts the bound of its loops: it returns a
    token, with the cursor moved forward, or raises. *)
Lemma get_next_token_ok lx :
  Lexer.cursor_ok lx -> token_or_raise lx (Lexer.get_next_token lx).
Proof.
  intros Hok. unfold Lexer.get_next_token.
  apply get_next_token_loop_ok; [assumption|]. left. unfold Lexer.fuel. lia.
Qed.

(** ** The parser always returns or raises *)

Lemma init_steps lx :
  Lexer.cursor_ok lx ->
  (exists p, Parser.init lx = Ok p /\ Lexer.cursor_ok (Parser.lexer p)
             /\ (weight p <= Lexer.remaining lx)%nat)
  \/ (exists e, Parser.init lx = Raise e).
Proof.
  intros Hok. unfold Parser.init.
  destruct (get_next_token_ok lx Hok) as [(tok & lx' & -> & (H1 & H2 & H3) & Hlt)|(e & ->)];
    [left|right; eexists; reflexivity].
  exists (Parser.mk lx' tok). split; [reflexivity|]. split; [exact H1|].
  unfold weight; simpl. destruct (decide (type tok = EOF)); [lia|].
  specialize (Hlt n). lia.
Qed.

Lemma eat_steps ty p :
  Lexer.cursor_ok (Parser.lexer p) -> ty <> EOF ->
  (exists p', Parser.eat ty p = Ok p' /\ Lexer.cursor_ok (Parser.lexer p')
              /\ (weight p' < weight p)%nat)
  \/ (exists e, Parser.eat ty p = Raise e).
Proof.
  intros Hok Hty. unfold Parser.eat.
  destruct (decide (type (Parser.current_token p) = ty)) as [Heq|Hne];
    [|right; eexists; reflexivity].
  destruct (init_steps _ Hok) as [(p' & He & Hok' & Hw)|(e & He)];
    unfold Parser.init in He; rewrite He; [left|right; eexists; reflexivity].
  exists p'. split; [reflexivity|]. split; [exact Hok'|].
  unfold weight at 2. rewrite decide_False by congruence. lia.
Qed.

Lemma steps_raise {A : Type} w e : @steps A w (Raise e).
Proof. right. eexists. reflexivity. Qed.

Lemma steps_le {A : Type} w w' (r : outcome (A * Parser.t)) :
  steps w r -> (w <= w')%nat -> steps w' r.
Proof.
  intros [(a & p' & -> & H1 & H2)|(e & ->)] Hle; [left|apply steps_raise].
  exists a, p'. repeat split; [assumption|lia].
Qed.

Lemma variable_steps p :
  Lexer.cursor_ok (Parser.lexer p) -> steps (weight p - 1) (Parser.variable p).
Proof.
  intros Hok. unfold Parser.variable.
  destruct (Parser.current_token p); try apply steps_raise.
  destruct (eat_steps ID p Hok) as [(p' & -> & Hok' & Hw)|(e & ->)];
    [discriminate| |apply steps_raise].
  left. eexists _, p'. split; [reflexivity|]. split; [assumption|lia].
Qed.

(** With a bound of three calls for each unit of weight, [factor], [term]
    and [expr] return or raise; what they return leaves less weight. *)
Lemma expr_steps n :
  forall p, Lexer.cursor_ok (Parser.lexer p) ->
  ((3 * weight p + 1 <= n)%nat -> steps (weight p - 1) (Parser.factor n p))
  /\ ((3 * weight p + 1 <= n)%nat ->
      forall node, steps (weight p) (Parser.term_loop n node p))
  /\ ((3 * weight p + 2 <= n)%nat -> steps (weight p - 1) (Parser.term n p))
  /\ ((3 * weight p + 2 <= n)%nat ->
      forall node, steps (weight p) (Parser.expr_loop n node p))
  /\ ((3 * weight p + 3 <= n)%nat -> steps (weight p - 1) (Parser.expr n p)).
Proof.
  induction n as [|n IH]; intros p Hok; [repeat split; intros; lia|].
  assert (IHf : forall q, Lexer.cursor_ok (Parser.lexer q) ->
                          (3 * weight q + 1 <= n)%nat ->
                          steps (weight q - 1) (Parser.factor n q))
    by (intros q Hq; apply (IH q Hq)).
  assert (IHtl : forall q, Lexer.cursor_ok (Parser.lexer q) ->
                           (3 * weight q + 1 <= n)%nat ->
                           forall node, steps (weight q) (Parser.term_loop n node q))
    by (intros q Hq; apply (IH q Hq)).
  assert (IHt : forall q, Lexer.cursor_ok (Parser.lexer q) ->
                          (3 * weight q + 2 <= n)%nat ->
                          steps (weight q - 1) (Parser.term n q))
    by (intros q Hq; apply (IH q Hq)).
  assert (IHel : forall q, Lexer.cursor_ok (Parser.lexer q) ->
                           (3 * weight q + 2 <= n)%nat ->
                           forall node, steps (weight q) (Parser.expr_loop n node q))
    by (intros q Hq; apply (IH q Hq)).
  assert (IHe : forall q, Lexer.cursor_ok (Parser.lexer q) ->
                          (3 * weight q + 3 <= n)%nat ->
                          steps (weight q - 1) (Parser.expr n q))
    by (intros q Hq; apply (IH q Hq)).
  clear IH. repeat split.
  - (* factor *)
    intros Hn. rewrite factor_S. cbv zeta.
    destruct (Parser.current_token p) eqn:Hc; try apply steps_raise.
    + destruct (eat_steps INTEGER p Hok) as [(p1 & -> & Hok1 & Hw1)|(e & ->)];
        [discriminate| |apply steps_raise].
      left. eexists _, p1. split; [reflexivity|]. split; [assumption|lia].
    + destruct (eat_steps PLUS p Hok) as [(p1 & -> & Hok1 & Hw1)|(e & ->)];
        [discriminate| |apply steps_raise].
      rewrite bind_Ok.
      destruct (IHf p1 Hok1) as [(a & p2 & -> & Hok2 & Hw2)|(e & ->)];
        [lia| |apply steps_raise].
      left. eexists _, p2. split; [reflexivity|]. split; [assumption|lia].
    + destruct (eat_steps MINUS p Hok) as [(p1 & -> & Hok1 & Hw1)|(e & ->)];
        [discriminate| |apply steps_raise].
      rewrite bind_Ok.
      destruct (IHf p1 Hok1) as [(a & p2 & -> & Hok2 & Hw2)|(e & ->)];
        [lia| |apply steps_raise].
      left. eexists _, p2. split; [reflexivity|]. split; [assumption|lia].
    + destruct (eat_steps LPAREN p Hok) as [(p1 & -> & Hok1 & Hw1)|(e & ->)];
        [discriminate| |apply steps_raise].
      rewrite bind_Ok.
      destruct (IHe p1 Hok1) as [(a & p2 & -> & Hok2 & Hw2)|(e & ->)];
        [lia| |apply steps_raise].
      rewrite bind_Ok. cbv beta iota.
      destruct (eat_steps RPAREN p2 Hok2) as [(p3 & -> & Hok3 & Hw3)|(e & ->)];
        [discriminate| |apply steps_raise].
      left. eexists _, p3. split; [reflexivity|]. split; [assumption|lia].
    + apply variable_steps. exact Hok.
  - (* term_loop *)
    intros Hn node. rewrite term_loop_S. cbv zeta.
    destruct (bool_decide (type (Parser.current_token p) = MUL)
              || bool_decide (type (Parser.current_token p) = DIV)) eqn:Hop.
    2:{ left. exists node, p. repeat split; [assumption|lia]. }
    assert (He : (exists p1,
                     (if decide (type (Parser.current_token p) = MUL)
                      then Parser.eat MUL p
                      else if decide (type (Parser.current_token p) = DIV)
                           then Parser.eat DIV p else Ok p) = Ok p1
                     /\ Lexer.cursor_ok (Parser.lexer p1)
                     /\ (weight p1 < weight p)%nat)
                 \/ (exists e,
                        (if decide (type (Parser.current_token p) = MUL)
                         then Parser.eat MUL p
                         else if decide (type (Parser.current_token p) = DIV)
                              then Parser.eat DIV p else Ok p) = Raise e)).
    { destruct (decide (type (Parser.current_token p) = MUL));
        [apply eat_steps; [assumption|discriminate]|].
      destruct (decide (type (Parser.current_token p) = DIV));
        [apply eat_steps; [assumption|discriminate]|].
      rewrite !bool_decide_eq_false_2 in Hop by assumption. discriminate. }
    destruct He as [(p1 & -> & Hok1 & Hw1)|(e & ->)]; [|apply steps_raise].
    rewrite bind_Ok.
    destruct (IHf p1 Hok1) as [(a & p2 & -> & Hok2 & Hw2)|(e & ->)];
      [lia| |apply steps_raise].
    rewrite bind_Ok. cbv beta iota.
    apply (steps_le (weight p2)); [|lia]. apply IHtl; [assumption|lia].
  - (* term *)
    intros Hn. rewrite term_S.
    destruct (IHf p Hok) as [(a & p1 & -> & Hok1 & Hw1)|(e & ->)];
      [lia| |apply steps_raise].
    rewrite bind_Ok. cbv beta iota.
    apply (steps_le (weight p1)); [|lia]. apply IHtl; [assumption|lia].
  - (* expr_loop *)
    intros Hn node. rewrite expr_loop_S. cbv zeta.
    destruct (bool_decide (type (Parser.current_token p) = PLUS)
              || bool_decide (type (Parser.current_token p) = MINUS)) eqn:Hop.
    2:{ left. exists node, p. repeat split; [assumption|lia]. }
    assert (He : (exists p1,
                     (if decide (type (Parser.current_token p) = PLUS)
                      then Parser.eat PLUS p
                      else if decide (type (Parser.current_token p) = MINUS)
                           then Parser.eat MINUS p else Ok p) = Ok p1
                     /\ Lexer.cursor_ok (Parser.lexer p1)
                     /\ (weight p1 < weight p)%nat)
                 \/ (exists e,
                        (if decide (type (Parser.current_token p) = PLUS)
                         then Parser.eat PLUS p
                         else if decide (type (Parser.current_token p) = MINUS)
                              then Parser.eat MINUS p else Ok p) = Raise e)).
    { destruct (decide (type (Parser.current_token p) = PLUS));
        [apply eat_steps; [assumption|discriminate]|].
      destruct (decide (type (Parser.current_token p) = MINUS));
        [apply eat_steps; [assumption|discriminate]|].
      rewrite !bool_decide_eq_false_2 in Hop by assumption. discriminate. }
    destruct He as [(p1 & -> & Hok1 & Hw1)|(e & ->)]; [|apply steps_raise].
    rewrite bind_Ok.
    destruct (IHt p1 Hok1) as [(a & p2 & -> & Hok2 & Hw2)|(e & ->)];
      [lia| |apply steps_raise].
    rewrite bind_Ok. cbv beta iota.
    apply (steps_le (weight p2)); [|lia]. apply IHel; [assumption|lia].
  - (* expr *)
    intros Hn. rewrite expr_S.
    destruct (IHt p Hok) as [(a & p1 & -> & Hok1 & Hw1)|(e & ->)];
      [lia| |apply steps_raise].
    rewrite bind_Ok. cbv beta iota.
    apply (steps_le (weight p1)); [|lia]. apply IHel; [assumption|lia].
Qed.

Lemma assignment_statement_steps n p :
  Lexer.cursor_ok (Parser.lexer p) -> (3 * weight p + 1 <= n)%nat ->
  steps (weight p - 1) (Parser.assignment_statement n p).
Proof.
  intros Hok Hn. unfold Parser.assignment_statement.
  destruct (variable_steps p Hok) as [(l & p1 & -> & Hok1 & Hw1)|(e & ->)];
    [|apply steps_raise].
  rewrite bind_Ok. cbv beta iota zeta.
  destruct (eat_steps ASSIGN p1 Hok1) as [(p2 & -> & Hok2 & Hw2)|(e & ->)];
    [discriminate| |apply steps_raise].
  rewrite bind_Ok.
  destruct (proj2 (proj2 (proj2 (proj2 (expr_steps n p2 Hok2)))))
    as [(r & p3 & -> & Hok3 & Hw3)|(e & ->)]; [lia| |apply steps_raise].
  left. eexists _, p3. split; [reflexivity|]. split; [assumption|lia].
Qed.

(** The same for the statement rules. *)
Lemma statement_steps n :
  forall p, Lexer.cursor_ok (Parser.lexer p) ->
  ((3 * weight p + 1 <= n)%nat -> steps (weight p - 1) (Parser.compound_statement n p))
  /\ ((3 * weight p + 2 <= n)%nat ->
      forall results, steps (weight p) (Parser.statement_list_loop n results p))
  /\ ((3 * weight p + 3 <= n)%nat -> steps (weight p) (Parser.statement_list n p))
  /\ ((3 * weight p + 2 <= n)%nat -> steps (weight p) (Parser.statement n p)).
Proof.
  induction n as [|n IH]; intros p Hok; [repeat split; intros; lia|].
  assert (IHc : forall q, Lexer.cursor_ok (Parser.lexer q) ->
                          (3 * weight q + 1 <= n)%nat ->
                          steps (weight q - 1) (Parser.compound_statement n q))
    by (intros q Hq; apply (IH q Hq)).
  assert (IHl : forall q, Lexer.cursor_ok (Parser.lexer q) ->
                          (3 * weight q + 2 <= n)%nat ->
                          forall results,
                            steps (weight q) (Parser.statement_list_loop n results q))
    by (intros q Hq; apply (IH q Hq)).
  assert (IHsl : forall q, Lexer.cursor_ok (Parser.lexer q) ->
                           (3 * weight q + 3 <= n)%nat ->
                           steps (weight q) (Parser.statement_list n q))
    by (intros q Hq; apply (IH q Hq)).
  assert (IHs : forall q, Lexer.cursor_ok (Parser.lexer q) ->
                          (3 * weight q + 2 <= n)%nat ->
                          steps (weight q) (Parser.statement n q))
    by (intros q Hq; apply (IH q Hq)).
  clear IH. repeat split.
  - (* compound_statement *)
    intros Hn. rewrite compound_statement_S.
    destruct (eat_steps BEGIN p Hok) as [(p1 & -> & Hok1 & Hw1)|(e & ->)];
      [discriminate| |apply steps_raise].
    rewrite bind_Ok.
    destruct (IHsl p1 Hok1) as [(nodes & p2 & -> & Hok2 & Hw2)|(e & ->)];
      [lia| |apply steps_raise].
    rewrite bind_Ok. cbv beta iota.
    destruct (eat_steps END p2 Hok2) as [(p3 & -> & Hok3 & Hw3)|(e & ->)];
      [discriminate| |apply steps_raise].
    left. eexists _, p3. split; [reflexivity|]. split; [assumption|lia].
  - (* statement_list_loop *)
    intros Hn results. rewrite statement_list_loop_S.
    destruct (decide (type (Parser.current_token p) = SEMI)) as [Hsemi|Hsemi].
    2:{ left. exists results, p. repeat split; [assumption|lia]. }
    destruct (eat_steps SEMI p Hok) as [(p1 & -> & Hok1 & Hw1)|(e & ->)];
      [discriminate| |apply steps_raise].
    rewrite bind_Ok.
    destruct (IHs p1 Hok1) as [(node & p2 & -> & Hok2 & Hw2)|(e & ->)];
      [lia| |apply steps_raise].
    rewrite bind_Ok. cbv beta iota.
    apply (steps_le (weight p2)); [|lia]. apply IHl; [assumption|lia].
  - (* statement_list *)
    intros Hn. rewrite statement_list_S.
    destruct (IHs p Hok) as [(node & p1 & -> & Hok1 & Hw1)|(e & ->)];
      [lia| |apply steps_raise].
    rewrite bind_Ok. cbv beta iota.
    apply (steps_le (weight p1)); [|lia]. apply IHl; [assumption|lia].
  - (* statement *)
    intros Hn. rewrite statement_S.
    destruct (decide (type (Parser.current_token p) = BEGIN)) as [Hb|Hb].
    { apply (steps_le (weight p - 1)); [|lia]. apply IHc; [assumption|lia]. }
    destruct (decide (type (Parser.current_token p) = ID)) as [Hid|Hid].
    { apply (steps_le (weight p - 1)); [|lia].
      apply assignment_statement_steps; [assumption|lia]. }
    left. exists NoOp, p. repeat split; [assumption|lia].
Qed.


Lemma arith_fuel f g a b : Py.arith f g a b <> OutOfFuel.
Proof.
  destruct a as [|m|x], b as [|n|y]; simpl; try discriminate.
  - destruct (Py.float_of_int m) eqn:E; simpl; try discriminate.
    now apply float_of_int_fuel in E.
  - destruct (Py.float_of_int n) eqn:E; simpl; try discriminate.
    now apply float_of_int_fuel in E.
Qed.

Lemma truediv_fuel a b : Py.truediv a b <> OutOfFuel.
Proof.
  destruct a as [|m|x], b as [|n|y]; simpl; try discriminate.
  - unfold Py.int_truediv. destruct (n =? 0); [discriminate|].
    destruct (SFdiv Py.prec Py.emax (Py.spec_of_int m) (Py.spec_of_int n)); discriminate.
  - destruct (Py.float_of_int m) eqn:E; simpl; try discriminate.
    + destruct (PrimFloat.eqb y 0); discriminate.
    + now apply float_of_int_fuel in E.
  - destruct (Py.float_of_int n) eqn:E; simpl; try discriminate.
    + destruct (PrimFloat.eqb a 0); discriminate.
    + now apply float_of_int_fuel in E.
  - destruct (PrimFloat.eqb y 0); discriminate.
Qed.

(** The visitor has no bound to exhaust. *)
Lemma visit_fuel node :
  forall scope, fst (Interpreter.visit node scope) <> OutOfFuel.
Proof.
  induction node as [l op r IHl IHr|value|children IH|x op r IHr|value| |op e IHe]
    using AST_ind; intros scope.
  - assert (Hgen : forall f : pyval -> pyval -> outcome pyval,
               (forall a b, f a b <> OutOfFuel) ->
               fst (Interpreter.seq (Interpreter.visit l)
                      (fun a => Interpreter.seq (Interpreter.visit r)
                                  (fun b => Interpreter.ret (f a b))) scope)
               <> OutOfFuel).
    { intros f Hf. unfold Interpreter.seq, Interpreter.ret.
      specialize (IHl scope).
      destruct (Interpreter.visit l scope) as [[a| |] s1]; simpl in *;
        try discriminate; try congruence.
      specialize (IHr s1).
      destruct (Interpreter.visit r s1) as [[b| |] s2]; simpl in *;
        try discriminate; try congruence; try apply Hf. }
    simpl.
    destruct (decide (type op = PLUS)); [apply Hgen, arith_fuel|].
    destruct (decide (type op = MINUS)); [apply Hgen, arith_fuel|].
    destruct (decide (type op = MUL)); [apply Hgen, arith_fuel|].
    destruct (decide (type op = DIV)); [apply Hgen, truediv_fuel|].
    discriminate.
  - discriminate.
  - rewrite visit_Compound. revert scope.
    induction children as [|c cs IHcs]; intros scope; [discriminate|].
    inversion IH as [|c' cs' IHc IHrest]; subst.
    simpl. unfold Interpreter.seq. specialize (IHc scope).
    destruct (Interpreter.visit c scope) as [[a| |] s1]; simpl in *;
      try discriminate; try congruence.
    now apply IHcs.
  - rewrite visit_Assign. unfold Interpreter.seq. specialize (IHr scope).
    destruct (Interpreter.visit r scope) as [[a| |] s1]; simpl in *;
      try discriminate; congruence.
  - simpl. unfold Interpreter.visit_Var.
    destruct (default PNone (scope !! value)); discriminate.
  - discriminate.
  - assert (Hgen : forall f : pyval -> outcome pyval,
               (forall a, f a <> OutOfFuel) ->
               fst (Interpreter.seq (Interpreter.visit e)
                      (fun a => Interpreter.ret (f a)) scope) <> OutOfFuel).
    { intros f Hf. unfold Interpreter.seq, Interpreter.ret. specialize (IHe scope).
      destruct (Interpreter.visit e scope) as [[a| |] s1]; simpl in *;
        try discriminate; try congruence; try apply Hf. }
    simpl.
    destruct (decide (type op = PLUS));
      [apply Hgen; intros a; destruct a; discriminate|].
    destruct (decide (type op = MINUS));
      [apply Hgen; intros a; destruct a; discriminate|].
    discriminate.
Qed.

Lemma init_remaining text lx :
  Lexer.init text = Ok lx -> Lexer.remaining lx = String.length text.
Proof.
  unfold Lexer.init. destruct (String.get 0 text); intros H; inversion H; subst.
  unfold Lexer.remaining; simpl. lia.
Qed.


(** The same for the expression entry. *)
Theorem main_expr_total (text : string) (scope : gmap string pyval) :
  fst (main_expr text scope) <> OutOfFuel.
Proof.
  unfold main_expr, parse_expr.
  destruct (Lexer.init text) as [lx| |] eqn:Ei; try discriminate;
    [|unfold Lexer.init in Ei; destruct (String.get 0 text); discriminate].
  rewrite bind_Ok.
  destruct (init_steps lx (cursor_ok_init _ _ Ei)) as [(p & -> & Hok & Hw)|(e & ->)];
    [|discriminate].
  rewrite bind_Ok. rewrite (init_remaining _ _ Ei) in Hw.
  destruct (proj2 (proj2 (proj2 (proj2 (expr_steps (depth text) p Hok)))))
    as [(node & p' & -> & _)|(e & ->)]; [unfold depth; lia| |discriminate].
  rewrite bind_Ok. cbv beta iota. apply visit_fuel.
Qed.

Lemma get_next_token_cursor_ok lx tok lx' :
  Lexer.cursor_ok lx -> Lexer.get_next_token lx = Ok (tok, lx') -> Lexer.cursor_ok lx'.
Proof.
  intros Hok H.
  destruct (get_next_token_ok lx Hok) as [(t & l & He & (Hc & _) & _)|(e & He)];
    rewrite He in H; inversion H; subst; assumption.
Qed.

(** Every state that calls of [get_next_token] reach from a new lexer has
    its cursor in order. *)
Lemma get_next_tokens_cursor_ok k :
  forall lx tokens lx',
    Lexer.cursor_ok lx -> Lexer.get_next_tokens k lx = Ok (tokens, lx') ->
    Lexer.cursor_ok lx'.
Proof.
  induction k as [|k IH]; intros lx tokens lx' Hok H; simpl in H.
  - inversion H; subst; assumption.
  - apply bind_Ok_inv in H as ([tok lx1] & Hg & H).
    apply bind_Ok_inv in H as ([toks lx2] & Hk & H). inversion H; subst.
    apply (IH lx1 toks); [|assumption].
    now apply (get_next_token_cursor_ok lx tok).
Qed.

(** * The claims *)

(** C1: the program [BEGIN a := 2; b := 10 * a + 10 / 5; END.], run from an
    empty [GLOBAL_SCOPE], returns [None] and leaves exactly two entries:
    [a] holds the int 2 and [b] holds the number 22 (the float that
    [20 + 10 / 5] gives). *)
Theorem C1_statement_program :
  exists scope : gmap string pyval,
    main "BEGIN a := 2; b := 10 * a + 10 / 5; END." = (Ok PNone, scope)
    /\ scope = <["b" := PFloat 22]> (<["a" := PInt 2]> ∅)
    /\ dom scope = ({["a"; "b"]} : gset string)
    /\ scope !! "a" = Some (PInt 2)
    /\ scope !! "b" = Some (PFloat 22)
    /\ Py.to_Q (PFloat 22) = Some (22 # 1)%Q
    /\ Py.eq_int (PFloat 22) 22 = true.
Proof.
  eexists. split; [vm_compute; reflexivity|].
  repeat split; try (vm_compute; reflexivity).
Qed.

(** C2: division does not truncate.  The bare expression [7 / 2] parses to
    one [BinOp] with [DIV] and evaluates, in any scope, to the float
    [3.5], whose exact value is the rational 7/2; it is not the int 3.
    The same holds when the expression is the right-hand side of an
    assignment of a program. *)
Theorem C2_true_division :
  parse_expr "7 / 2" = Ok (BinOp (Num 7) TokDiv (Num 2), TokEOF)
  /\ (forall scope, main_expr "7 / 2" scope = (Ok (PFloat 3.5), scope))
  /\ Py.truediv (PInt 7) (PInt 2) = Ok (PFloat 3.5)
  /\ Py.to_Q (PFloat 3.5) = Some (7 # 2)%Q
  /\ PFloat 3.5 <> PInt 3
  /\ Py.eq_int (PFloat 3.5) 3 = false
  /\ main "BEGIN r := 7 / 2; END." = (Ok PNone, {["r" := PFloat 3.5]}).
Proof.
  assert (Hp : parse_expr "7 / 2" = Ok (BinOp (Num 7) TokDiv (Num 2), TokEOF))
    by (vm_compute; reflexivity).
  split; [exact Hp|].
  split; [intros scope; unfold main_expr; rewrite Hp; reflexivity|].
  repeat split; try (vm_compute; reflexivity). discriminate.
Qed.


(** C3, as the code has it: when the left operand of a [BinOp] with [DIV]
    evaluates to a number and the right operand then evaluates to zero,
    the visit raises an arithmetic error and the scope is as before:
    [ZeroDivisionError], or [OverflowError] when the left value is an
    int too large for a float and the zero is a float.  An assignment
    with such a right-hand side raises the same error and stores
    nothing. *)
Theorem C3_division_by_zero (l r : AST) (op : Token) (scope s1 s2 : gmap string pyval)
    (a b : pyval) :
  type op = DIV ->
  Interpreter.visit l scope = (Ok a, s1) -> is_number a = true ->
  Interpreter.visit r s1 = (Ok b, s2) -> Py.is_zero b = true ->
  exists e,
    Interpreter.visit (BinOp l op r) scope = (Raise e, scope)
    /\ is_ArithmeticError e = true
    /\ (e = ZeroDivisionError
        \/ (e = OverflowError
            /\ exists n x, a = PInt n /\ b = PFloat x
                           /\ Py.float_of_int n = Raise OverflowError))
    /\ forall name tok,
        Interpreter.visit (Assign name tok (BinOp l op r)) scope = (Raise e, scope).
Proof.
  intros Hop Hl Ha Hr Hb.
  assert (Hnb : is_number b = true) by (destruct b; [discriminate|reflexivity|reflexivity]).
  pose proof (visit_number_scope l _ _ _ Hl Ha) as ->.
  pose proof (visit_number_scope r _ _ _ Hr Hnb) as ->.
  assert (Hv : Interpreter.visit (BinOp l op r) scope = (Py.truediv a b, scope)).
  { destruct op; try discriminate. simpl. unfold Interpreter.seq.
    rewrite Hl, Hr. reflexivity. }
  destruct (truediv_zero a b Ha Hb) as [Ht | (Ht & Hex)].
  - exists ZeroDivisionError. rewrite Hv, Ht.
    split; [reflexivity|]. split; [reflexivity|]. split; [now left|].
    intros name tok. rewrite visit_Assign. unfold Interpreter.seq.
    rewrite Hv, Ht. reflexivity.
  - exists OverflowError. rewrite Hv, Ht.
    split; [reflexivity|]. split; [reflexivity|]. split; [right; now split|].
    intros name tok. rewrite visit_Assign. unfold Interpreter.seq.
    rewrite Hv, Ht. reflexivity.
Qed.

Lemma C3_division_by_zero_witness :
  exists e,
    Interpreter.visit (BinOp (Num 1) TokDiv (Num 0)) ∅ = (Raise e, ∅)
    /\ is_ArithmeticError e = true
    /\ (e = ZeroDivisionError
        \/ (e = OverflowError
            /\ exists n x, PInt 1 = PInt n /\ PInt 0 = PFloat x
                           /\ Py.float_of_int n = Raise OverflowError))
    /\ forall name tok,
        Interpreter.visit (Assign name tok (BinOp (Num 1) TokDiv (Num 0))) ∅
        = (Raise e, ∅).
Proof.
  apply (C3_division_by_zero (Num 1) (Num 0) TokDiv ∅ ∅ ∅ (PInt 1) (PInt 0));
    reflexivity.
Defined.

(** C3, as stated, fails: in [y / 0] with [y] unassigned the right operand
    evaluates to 0, but the left operand is visited first and the error
    is [NameError], which is not an arithmetic error; [1 / 0] does raise
    [ZeroDivisionError]. *)
Lemma C3_counterexample :
  Interpreter.visit (Num 0) ∅ = (Ok (PInt 0), ∅)
  /\ Interpreter.visit (BinOp (Var "y") TokDiv (Num 0)) ∅ = (Raise (NameError "y"), ∅)
  /\ is_ArithmeticError (NameError "y") = false
  /\ parse_expr "y / 0" = Ok (BinOp (Var "y") TokDiv (Num 0), TokEOF)
  /\ main "BEGIN x := y / 0; END." = (Raise (NameError "y"), ∅)
  /\ main "BEGIN x := 1 / 0; END." = (Raise ZeroDivisionError, ∅).
Proof. repeat split; vm_compute; reflexivity. Qed.

(** The [OverflowError] does occur: the right operand [0 / 1] is the float
    zero, and the left operand, 10 to the power 400, is too large for a
    float. *)
Example division_overflow :
  Interpreter.visit
    (BinOp (Num (10 ^ 400)) TokDiv (BinOp (Num 0) TokDiv (Num 1))) ∅
  = (Raise OverflowError, ∅).
Proof. vm_compute. reflexivity. Qed.

(** C4: a [Var] whose name has no entry raises [NameError] with that name;
    a [Var] whose name has an entry returns the value of the entry, which
    is the value of the last assignment to the name.  The scope holds
    numbers, as every scope that [main] leaves does.  In particular
    [BEGIN x := y; END.] run from an empty scope raises [NameError] for
    [y] and stores nothing. *)
Theorem C4_variable_lookup (scope : gmap string pyval) (name : string) :
  numeric scope ->
  (scope !! name = None ->
   Interpreter.visit (Var name) scope = (Raise (NameError name), scope))
  /\ (forall val, scope !! name = Some val ->
                  Interpreter.visit (Var name) scope = (Ok val, scope))
  /\ (forall op r val,
        Interpreter.visit r scope = (Ok val, scope) -> is_number val = true ->
        Interpreter.visit (Assign name op r) scope = (Ok PNone, <[name := val]> scope)
        /\ Interpreter.visit (Var name) (<[name := val]> scope)
           = (Ok val, <[name := val]> scope))
  /\ main "BEGIN x := y; END." = (Raise (NameError "y"), ∅)
  /\ main "BEGIN x := 1; x := 2; y := x; END."
     = (Ok PNone, <["y" := PInt 2]> (<["x" := PInt 2]> ∅))
  /\ (forall text r scope', main text = (r, scope') -> numeric scope').
Proof.
  intros Hn. split.
  { intros H. simpl. unfold Interpreter.visit_Var. rewrite H. reflexivity. }
  split.
  { intros val H. simpl. unfold Interpreter.visit_Var. rewrite H. simpl.
    apply Hn in H. destruct val; [discriminate|reflexivity|reflexivity]. }
  split.
  { intros op r val Hr Hv. split.
    - simpl. unfold Interpreter.seq. rewrite Hr. reflexivity.
    - simpl. unfold Interpreter.visit_Var. rewrite lookup_insert_eq. simpl.
      destruct val; [discriminate|reflexivity|reflexivity]. }
  split; [vm_compute; reflexivity|].
  split; [vm_compute; reflexivity|].
  intros text r scope'. apply main_numeric.
Qed.

Lemma C4_variable_lookup_witness :
  Interpreter.visit (Var "x") {["x" := PInt 5]} = (Ok (PInt 5), {["x" := PInt 5]}).
Proof.
  assert (Hn : numeric ({["x" := PInt 5]} : gmap string pyval)).
  { intros k v H. apply lookup_singleton_Some in H as [_ <-]. reflexivity. }
  apply (proj1 (proj2 (C4_variable_lookup {["x" := PInt 5]} "x" Hn)) (PInt 5)).
  reflexivity.
Defined.

(** C5: [+], [-], [*] and [/] associate to the left.  [7 - 3 - 1] parses
    to [(7 - 3) - 1] and evaluates to 3, not 5, also as the right-hand side
    of an assignment; [8 / 4 / 2] parses to
    [(8 / 4) / 2].  For every chain of integers joined by [+] and [-]
    ([*] and [/]) that the lexer yields, each turn of the loop of [expr]
    ([term]) puts the node built so far at the left of a new [BinOp], so
    the tree is the fold of the chain from the left; for every chain of
    one-digit operands written without spaces, the text parses to that
    fold and evaluates to the fold of the integer operations. *)
Theorem C5_left_associative :
  parse_expr "7 - 3 - 1"
  = Ok (BinOp (BinOp (Num 7) TokMinus (Num 3)) TokMinus (Num 1), TokEOF)
  /\ (forall scope, main_expr "7 - 3 - 1" scope = (Ok (PInt 3), scope))
  /\ PInt 3 <> PInt 5
  /\ main "BEGIN r := 7 - 3 - 1; END." = (Ok PNone, {["r" := PInt 3]})
  /\ parse_expr "8 / 4 / 2"
     = Ok (BinOp (BinOp (Num 8) TokDiv (Num 4)) TokDiv (Num 2), TokEOF)
  /\ (forall scope, main_expr "8 / 4 / 2" scope = (Ok (PFloat 1), scope))
  /\ (forall chain n p a0 t ts,
        additive chain -> stops t -> (length chain + 3 < n)%nat ->
        reads p (TokInteger a0 :: chain_tokens chain ++ t :: ts) ->
        exists p', Parser.expr n p = Ok (chain_tree (Num a0) chain, p')
                   /\ reads p' (t :: ts))
  /\ (forall chain n p a0 t ts,
        multiplicative chain -> type t <> MUL -> type t <> DIV ->
        (length chain + 1 < n)%nat ->
        reads p (TokInteger a0 :: chain_tokens chain ++ t :: ts) ->
        exists p', Parser.term n p = Ok (chain_tree (Num a0) chain, p')
                   /\ reads p' (t :: ts))
  /\ (forall first chain,
        (first < 10)%nat -> one_digit chain ->
        parse_expr (String (digit_char first) (digits_text chain))
        = Ok (chain_tree (Num (Z.of_nat first)) (digits_chain chain), TokEOF)
        /\ forall scope,
            main_expr (String (digit_char first) (digits_text chain)) scope
            = (Ok (PInt (chain_value (Z.of_nat first) (digits_chain chain))), scope)).
Proof.
  assert (H1 : parse_expr "7 - 3 - 1"
               = Ok (BinOp (BinOp (Num 7) TokMinus (Num 3)) TokMinus (Num 1), TokEOF))
    by (vm_compute; reflexivity).
  assert (H2 : parse_expr "8 / 4 / 2"
               = Ok (BinOp (BinOp (Num 8) TokDiv (Num 4)) TokDiv (Num 2), TokEOF))
    by (vm_compute; reflexivity).
  split; [exact H1|].
  split; [intros scope; unfold main_expr; rewrite H1; reflexivity|].
  split; [discriminate|].
  split; [vm_compute; reflexivity|].
  split; [exact H2|].
  split; [intros scope; unfold main_expr; rewrite H2; reflexivity|].
  split; [intros; now apply expr_chain|].
  split; [intros; now apply term_chain|].
  intros first chain Hf Hd.
  pose proof (parse_expr_digits first chain Hf Hd) as Hp.
  split; [exact Hp|].
  intros scope. unfold main_expr. rewrite Hp.
  apply visit_chain_tree; [apply digits_chain_additive|reflexivity].
Qed.

Lemma C5_left_associative_witness :
  parse_expr "7-3-1+2"
  = Ok (BinOp (BinOp (BinOp (Num 7) TokMinus (Num 3)) TokMinus (Num 1))
          TokPlus (Num 2), TokEOF)
  /\ forall scope, main_expr "7-3-1+2" scope = (Ok (PInt 5), scope).
Proof.
  apply (proj2 (proj2 (proj2 (proj2 (proj2 (proj2 (proj2 (proj2 C5_left_associative)))))))
           7%nat [(true, 3%nat); (true, 1%nat); (false, 2%nat)]).
  - lia.
  - repeat constructor.
Defined.


(** C6: [*] and [/] bind tighter than [+] and [-], and parentheses
    override this.  [2 + 3 * 4] evaluates to 14 and [(2 + 3) * 4] to 20.
    For all integers [a], [b], [c], every additive operator [o1] and
    multiplicative operator [o2]: [a o1 b o2 c] parses to
    [a o1 (b o2 c)], [a o2 b o1 c] to [(a o2 b) o1 c], and
    [(a o1 b) o2 c] to [(a o1 b) o2 c]. *)
Theorem C6_precedence :
  parse_expr "2 + 3 * 4"
  = Ok (BinOp (Num 2) TokPlus (BinOp (Num 3) TokMul (Num 4)), TokEOF)
  /\ (forall scope, main_expr "2 + 3 * 4" scope = (Ok (PInt 14), scope))
  /\ parse_expr "(2 + 3) * 4"
     = Ok (BinOp (BinOp (Num 2) TokPlus (Num 3)) TokMul (Num 4), TokEOF)
  /\ (forall scope, main_expr "(2 + 3) * 4" scope = (Ok (PInt 20), scope))
  /\ main "BEGIN a := 2 + 3 * 4; b := (2 + 3) * 4; END."
     = (Ok PNone, <["b" := PInt 20]> (<["a" := PInt 14]> ∅))
  /\ (forall scope, main_expr "2 * 3 + 4" scope = (Ok (PInt 10), scope))
  /\ (forall scope, main_expr "8 - 6 / 3" scope = (Ok (PFloat 6), scope))
  /\ (forall n p a o1 b o2 c t ts,
        type o1 = PLUS \/ type o1 = MINUS -> type o2 = MUL \/ type o2 = DIV ->
        stops t ->
        (reads p (TokInteger a :: o1 :: TokInteger b :: o2 :: TokInteger c :: t :: ts) ->
         exists p', Parser.expr (S (S (S (S (S n))))) p
                    = Ok (BinOp (Num a) o1 (BinOp (Num b) o2 (Num c)), p')
                    /\ reads p' (t :: ts))
        /\ (reads p (TokInteger a :: o2 :: TokInteger b :: o1 :: TokInteger c :: t :: ts) ->
            exists p', Parser.expr (S (S (S (S (S n))))) p
                       = Ok (BinOp (BinOp (Num a) o2 (Num b)) o1 (Num c), p')
                       /\ reads p' (t :: ts))
        /\ (reads p (TokLParen :: TokInteger a :: o1 :: TokInteger b :: TokRParen
                       :: o2 :: TokInteger c :: t :: ts) ->
            exists p', Parser.expr (S (S (S (S (S (S (S (S n)))))))) p
                       = Ok (BinOp (BinOp (Num a) o1 (Num b)) o2 (Num c), p')
                       /\ reads p' (t :: ts))).
Proof.
  assert (H1 : parse_expr "2 + 3 * 4"
               = Ok (BinOp (Num 2) TokPlus (BinOp (Num 3) TokMul (Num 4)), TokEOF))
    by (vm_compute; reflexivity).
  assert (H2 : parse_expr "(2 + 3) * 4"
               = Ok (BinOp (BinOp (Num 2) TokPlus (Num 3)) TokMul (Num 4), TokEOF))
    by (vm_compute; reflexivity).
  assert (H3 : parse_expr "2 * 3 + 4"
               = Ok (BinOp (BinOp (Num 2) TokMul (Num 3)) TokPlus (Num 4), TokEOF))
    by (vm_compute; reflexivity).
  assert (H4 : parse_expr "8 - 6 / 3"
               = Ok (BinOp (Num 8) TokMinus (BinOp (Num 6) TokDiv (Num 3)), TokEOF))
    by (vm_compute; reflexivity).
  split; [exact H1|].
  split; [intros scope; unfold main_expr; rewrite H1; reflexivity|].
  split; [exact H2|].
  split; [intros scope; unfold main_expr; rewrite H2; reflexivity|].
  split; [vm_compute; reflexivity|].
  split; [intros scope; unfold main_expr; rewrite H3; reflexivity|].
  split; [intros scope; unfold main_expr; rewrite H4; reflexivity|].
  intros n p a o1 b o2 c t ts Ho1 Ho2 Hs.
  split; [now apply expr_add_mul|].
  split; [now apply expr_mul_add|now apply expr_paren_mul].
Qed.

Lemma C6_precedence_witness :
  exists p',
    Parser.expr 5 (Parser.mk (Lexer.mk "2+3*4" 1 (Some "+"%char)) (TokInteger 2))
    = Ok (BinOp (Num 2) TokPlus (BinOp (Num 3) TokMul (Num 4)), p')
    /\ reads p' [TokEOF].
Proof.
  assert (Hstop : stops TokEOF) by (repeat split; discriminate).
  apply (proj1 (proj2 (proj2 (proj2 (proj2 (proj2 (proj2 (proj2 C6_precedence))))))
                 0%nat (Parser.mk (Lexer.mk "2+3*4" 1 (Some "+"%char)) (TokInteger 2))
                 2 TokPlus 3 TokMul 4 TokEOF []
                 (or_introl eq_refl) (or_introl eq_refl) Hstop)).
  constructor.
  repeat (eapply yields_cons; [reflexivity|]).
  constructor.
Defined.

(** C7: unary [+] and [-] stack.  [- - 3] parses to
    [UnaryOp(-, UnaryOp(-, 3))] and evaluates to 3; [- 3 + - - + 2]
    evaluates to -1.  For every run of signs, of any length, in front of
    the operand 3, the text parses to the [UnaryOp] nodes nested in the
    order of the signs and evaluates to 3 negated once for each [-]; the
    same nesting comes out of [factor] for every token stream of signs
    followed by an integer. *)
Theorem C7_unary_stacking :
  parse_expr "- - 3" = Ok (UnaryOp TokMinus (UnaryOp TokMinus (Num 3)), TokEOF)
  /\ (forall scope, main_expr "- - 3" scope = (Ok (PInt 3), scope))
  /\ parse_expr "- 3 + - - + 2"
     = Ok (BinOp (UnaryOp TokMinus (Num 3)) TokPlus
             (UnaryOp TokMinus (UnaryOp TokMinus (UnaryOp TokPlus (Num 2)))),
           TokEOF)
  /\ (forall scope, main_expr "- 3 + - - + 2" scope = (Ok (PInt (-1)), scope))
  /\ main "BEGIN a := - - 3; b := - 3 + - - + 2; END."
     = (Ok PNone, <["b" := PInt (-1)]> (<["a" := PInt 3]> ∅))
  /\ (forall signs : list bool,
        parse_expr (signs_text signs "3") = Ok (signs_tree signs (Num 3), TokEOF)
        /\ forall scope,
            main_expr (signs_text signs "3") scope
            = (Ok (PInt (signs_value signs 3)), scope))
  /\ (forall signs n p v t ts,
        (length signs < n)%nat ->
        reads p (signs_tokens signs ++ TokInteger v :: t :: ts) ->
        exists p', Parser.factor n p = Ok (signs_tree signs (Num v), p')
                   /\ reads p' (t :: ts))
  /\ (forall signs v scope,
        Interpreter.visit (signs_tree signs (Num v)) scope
        = (Ok (PInt (signs_value signs v)), scope)).
Proof.
  assert (H1 : parse_expr "- - 3"
               = Ok (UnaryOp TokMinus (UnaryOp TokMinus (Num 3)), TokEOF))
    by (vm_compute; reflexivity).
  assert (H2 : parse_expr "- 3 + - - + 2"
               = Ok (BinOp (UnaryOp TokMinus (Num 3)) TokPlus
                       (UnaryOp TokMinus (UnaryOp TokMinus (UnaryOp TokPlus (Num 2)))),
                     TokEOF))
    by (vm_compute; reflexivity).
  split; [exact H1|].
  split; [intros scope; unfold main_expr; rewrite H1; reflexivity|].
  split; [exact H2|].
  split; [intros scope; unfold main_expr; rewrite H2; reflexivity|].
  split; [vm_compute; reflexivity|].
  split.
  { intros signs. pose proof (parse_expr_signs signs) as Hp.
    split; [exact Hp|]. intros scope. unfold main_expr. rewrite Hp.
    apply visit_signs_tree. }
  split; [intros; now apply factor_signs|].
  intros; apply visit_signs_tree.
Qed.

Lemma C7_unary_stacking_witness :
  exists p',
    Parser.factor 4 (Parser.mk (Lexer.mk "-+-3" 1 (Some "+"%char)) TokMinus)
    = Ok (UnaryOp TokMinus (UnaryOp TokPlus (UnaryOp TokMinus (Num 3))), p')
    /\ reads p' [TokEOF].
Proof.
  apply (proj1 (proj2 (proj2 (proj2 (proj2 (proj2 (proj2 C7_unary_stacking))))))
           [true; false; true] 4%nat
           (Parser.mk (Lexer.mk "-+-3" 1 (Some "+"%char)) TokMinus) 3 TokEOF []).
  - simpl. lia.
  - constructor. repeat (eapply yields_cons; [reflexivity|]). constructor.
Defined.


(** C8: once the cursor of a lexer has passed the end of its input, every
    later call of [get_next_token] returns the [EOF] token and leaves the
    lexer as it is, however many calls follow.  This holds in every state
    whose cursor is in order, and the cursor is in order in every state
    that calls of [get_next_token] reach from a lexer built on a text. *)
Theorem C8_eof_forever :
  (forall lexer : Lexer.t,
      Lexer.cursor_ok lexer -> Lexer.exhausted lexer ->
      forall k : nat,
        Lexer.get_next_tokens k lexer = Ok (repeat TokEOF k, lexer)
        /\ Lexer.get_next_token lexer = Ok (TokEOF, lexer))
  /\ (forall (text : string) (lexer0 lexer : Lexer.t) (k : nat) (tokens : list Token),
        Lexer.init text = Ok lexer0 ->
        Lexer.get_next_tokens k lexer0 = Ok (tokens, lexer) ->
        Lexer.cursor_ok lexer)
  /\ (forall (text : string) (lexer0 lexer : Lexer.t) (k j : nat) (tokens : list Token),
        Lexer.init text = Ok lexer0 ->
        Lexer.get_next_tokens k lexer0 = Ok (tokens, lexer) ->
        Lexer.exhausted lexer ->
        Lexer.get_next_tokens j lexer = Ok (repeat TokEOF j, lexer)).
Proof.
  assert (H1 : forall lexer : Lexer.t,
             Lexer.cursor_ok lexer -> Lexer.exhausted lexer ->
             forall k : nat,
               Lexer.get_next_tokens k lexer = Ok (repeat TokEOF k, lexer)
               /\ Lexer.get_next_token lexer = Ok (TokEOF, lexer)).
  { intros lexer Hok Hex k.
    pose proof (exhausted_current_char lexer Hok Hex) as Hc.
    split; [now apply get_next_tokens_None | now apply get_next_token_None]. }
  assert (H2 : forall (text : string) (lexer0 lexer : Lexer.t) (k : nat)
                      (tokens : list Token),
             Lexer.init text = Ok lexer0 ->
             Lexer.get_next_tokens k lexer0 = Ok (tokens, lexer) ->
             Lexer.cursor_ok lexer).
  { intros text lexer0 lexer k tokens Hi Hk.
    apply (get_next_tokens_cursor_ok k lexer0 tokens); [|assumption].
    now apply (cursor_ok_init text). }
  split; [exact H1|]. split; [exact H2|].
  intros text lexer0 lexer k j tokens Hi Hk Hex.
  apply H1; [|assumption]. now apply (H2 text lexer0 lexer k tokens).
Qed.

Lemma C8_eof_forever_witness :
  Lexer.get_next_tokens 3 (Lexer.mk "7" 1 None)
  = Ok ([TokEOF; TokEOF; TokEOF], Lexer.mk "7" 1 None).
Proof.
  apply (proj2 (proj2 C8_eof_forever) "7" (Lexer.mk "7" 0 (Some "7"%char))
           (Lexer.mk "7" 1 None) 1%nat 3%nat [TokInteger 7]).
  - reflexivity.
  - reflexivity.
  - unfold Lexer.exhausted; simpl; lia.
Defined.

(** C9: building a lexer on the empty string raises [IndexError], so no
    lexer (and no first [EOF] token) comes out of it; every other string
    gives a lexer. *)
Theorem C9_empty_text_index_error :
  Lexer.init "" = Raise IndexError
  /\ forall text : string, (exists lx, Lexer.init text = Ok lx) <-> text <> "".
Proof.
  split; [reflexivity|].
  intros text; split.
  - intros [lx H] ->. discriminate H.
  - intros H. destruct text as [|c text]; [congruence|].
    eexists; reflexivity.
Qed.

(** C10: a semicolon directly before [END] is accepted.
    [BEGIN a := 2; END.] parses to a [Compound] whose children are the
    assignment and then [NoOp]; visiting [NoOp] returns [None] and leaves
    every scope as it is, and the program leaves [a = 2].  Whenever the
    parser is at a semicolon followed by [END], the loop of
    [statement_list] appends [NoOp] and stops at [END]. *)
Theorem C10_trailing_semicolon :
  parse_text "BEGIN a := 2; END."
  = Ok (Compound [Assign "a" TokAssign (Num 2); NoOp])
  /\ (forall scope, Interpreter.visit NoOp scope = (Ok PNone, scope))
  /\ main "BEGIN a := 2; END." = (Ok PNone, {["a" := PInt 2]})
  /\ main "BEGIN a := 2 END." = (Ok PNone, {["a" := PInt 2]})
  /\ (forall n p,
        type (Parser.current_token p) <> BEGIN ->
        type (Parser.current_token p) <> ID ->
        Parser.statement (S n) p = Ok (NoOp, p))
  /\ (forall n results p ts,
        reads p (TokSemi :: TokEnd :: ts) ->
        exists p', Parser.statement_list_loop (S (S n)) results p
                   = Ok (results ++ [NoOp], p')
                   /\ reads p' (TokEnd :: ts)).
Proof.
  split; [vm_compute; reflexivity|].
  split; [reflexivity|].
  split; [vm_compute; reflexivity|].
  split; [vm_compute; reflexivity|].
  split; [intros; now apply statement_empty|].
  intros; now apply statement_list_loop_semi_end.
Qed.

Lemma C10_trailing_semicolon_witness :
  exists p',
    Parser.statement_list_loop 2 [Assign "a" TokAssign (Num 2)]
      (Parser.mk (Lexer.mk "BEGIN a := 2; END." 13 (Some " "%char)) TokSemi)
    = Ok ([Assign "a" TokAssign (Num 2); NoOp], p')
    /\ reads p' [TokEnd; TokDot; TokEOF].
Proof.
  apply (proj2 (proj2 (proj2 (proj2 (proj2 C10_trailing_semicolon))))
           0%nat [Assign "a" TokAssign (Num 2)]
           (Parser.mk (Lexer.mk "BEGIN a := 2; END." 13 (Some " "%char)) TokSemi)
           [TokDot; TokEOF]).
  constructor. repeat (eapply yields_cons; [reflexivity|]). constructor.
Defined.

(** * Further properties

    Lemmas about runs of characters, about what is raised and returned,
    and the properties of the lexer, the parser and the visitor that rest
    on them. *)

(** ** Runs of characters under the lexer *)

Lemma append_nil_r (a : string) : String.append a "" = a.
Proof.
  induction a as [|x a IH]; rewrite ?append_nil, ?append_cons; [reflexivity|].
  now rewrite IH.
Qed.

Lemma append_char_append (before : string) (c : ascii) (s : string) :
  String.append (append_char before c) s = String.append before (String c s).
Proof. unfold append_char. now rewrite append_assoc, append_cons, append_nil. Qed.

Lemma cursor_ok_reading (before rest : string) : Lexer.cursor_ok (reading before rest).
Proof.
  unfold Lexer.cursor_ok, reading; simpl.
  replace (String.length before) with (String.length before + 0)%nat by lia.
  now rewrite get_append.
Qed.

Lemma fuel_reading (before rest : string) :
  Lexer.fuel (reading before rest) = S (String.length rest).
Proof.
  unfold Lexer.fuel, reading; simpl. rewrite length_append. f_equal. lia.
Qed.

Lemma ends_run_current (p : ascii -> bool) (before rest : string) :
  ends_run p rest = true ->
  match Lexer.current_char (reading before rest) with
  | Some c => p c = false
  | None => True
  end.
Proof.
  rewrite current_char_reading. destruct rest as [|c rest]; simpl; [trivial|].
  now destruct (p c).
Qed.

Lemma span (p : ascii -> bool) (s : string) :
  exists a b, s = String.append a b /\ run p a = true /\ ends_run p b = true.
Proof.
  induction s as [|c s (a & b & -> & Ha & Hb)].
  - exists "", "". auto.
  - destruct (p c) eqn:Hc.
    + exists (String c a), b. rewrite append_cons. simpl. rewrite Hc. auto.
    + exists "", (String c (String.append a b)). simpl. rewrite Hc. auto.
Qed.

Lemma skip_whitespace_loop_run ws :
  forall n before rest,
    run Char.isspace ws = true -> ends_run Char.isspace rest = true ->
    (String.length ws <= n)%nat ->
    Lexer.skip_whitespace_loop n (reading before (String.append ws rest))
    = Ok (reading (String.append before ws) rest).
Proof.
  induction ws as [|c ws IH]; intros n before rest Hr He Hn.
  - rewrite append_nil, append_nil_r.
    pose proof (ends_run_current _ before rest He) as H.
    destruct n; cbn [Lexer.skip_whitespace_loop Lexer._id_loop];
      destruct (Lexer.current_char (reading before rest));
      try reflexivity; now rewrite H.
  - simpl in Hr. apply andb_prop in Hr as [Hc Hr].
    destruct n as [|n]; [simpl in Hn; lia|].
    rewrite append_cons.
    cbn [Lexer.skip_whitespace_loop Lexer.integer_loop Lexer._id_loop].
    rewrite current_char_reading. cbn [String.get]. rewrite Hc.
    rewrite advance_reading, IH; [|assumption|assumption|simpl in Hn; lia].
    now rewrite append_char_append.
Qed.

Lemma integer_loop_run ds :
  forall n result before rest,
    run Char.isdigit ds = true -> ends_run Char.isdigit rest = true ->
    (String.length ds <= n)%nat ->
    Lexer.integer_loop n result (reading before (String.append ds rest))
    = Ok (String.append result ds, reading (String.append before ds) rest).
Proof.
  induction ds as [|c ds IH]; intros n result before rest Hr He Hn.
  - rewrite append_nil, !append_nil_r.
    apply integer_loop_stop. now apply ends_run_current.
  - simpl in Hr. apply andb_prop in Hr as [Hc Hr].
    destruct n as [|n]; [simpl in Hn; lia|].
    rewrite append_cons.
    cbn [Lexer.skip_whitespace_loop Lexer.integer_loop Lexer._id_loop].
    rewrite current_char_reading. cbn [String.get]. rewrite Hc.
    rewrite advance_reading, IH; [|assumption|assumption|simpl in Hn; lia].
    now rewrite !append_char_append.
Qed.

Lemma _id_loop_run w :
  forall n result before rest,
    run Char.isalnum w = true -> ends_run Char.isalnum rest = true ->
    (String.length w <= n)%nat ->
    Lexer._id_loop n result (reading before (String.append w rest))
    = Ok (String.append result w, reading (String.append before w) rest).
Proof.
  induction w as [|c w IH]; intros n result before rest Hr He Hn.
  - rewrite append_nil, !append_nil_r.
    pose proof (ends_run_current _ before rest He) as H.
    destruct n; cbn [Lexer.skip_whitespace_loop Lexer._id_loop];
      destruct (Lexer.current_char (reading before rest));
      try reflexivity; now rewrite H.
  - simpl in Hr. apply andb_prop in Hr as [Hc Hr].
    destruct n as [|n]; [simpl in Hn; lia|].
    rewrite append_cons.
    cbn [Lexer.skip_whitespace_loop Lexer.integer_loop Lexer._id_loop].
    rewrite current_char_reading. cbn [String.get]. rewrite Hc.
    rewrite advance_reading, IH; [|assumption|assumption|simpl in Hn; lia].
    now rewrite !append_char_append.
Qed.

Lemma run_append (p : ascii -> bool) (a b : string) :
  run p (String.append a b) = run p a && run p b.
Proof.
  induction a as [|x a IH]; [reflexivity|].
  rewrite append_cons. simpl. now rewrite IH, andb_assoc.
Qed.

(** ** What the lexer takes a character for *)

Lemma isspace_class c :
  Char.isspace c = true ->
  Char.isalpha c = false /\ Lexer.char_is c ":" = false
  /\ Lexer.char_is c ";" = false /\ Lexer.char_is c "." = false.
Proof.
  destruct c as [[] [] [] [] [] [] [] []]; vm_compute; intros H;
    try discriminate H; auto.
Qed.

Lemma isdigit_class c :
  Char.isdigit c = true ->
  Char.isalpha c = false /\ Lexer.char_is c ":" = false
  /\ Lexer.char_is c ";" = false /\ Lexer.char_is c "." = false
  /\ Char.isspace c = false.
Proof.
  destruct c as [[] [] [] [] [] [] [] []]; vm_compute; intros H;
    try discriminate H; auto.
Qed.

Lemma isdecimal_isdigit c : Char.isdecimal c = true -> Char.isdigit c = true.
Proof. unfold Char.isdigit. now intros ->. Qed.

Lemma run_impl (p q : ascii -> bool) (s : string) :
  (forall c, p c = true -> q c = true) -> run p s = true -> run q s = true.
Proof.
  intros Hpq. induction s as [|c s IH]; simpl; [trivial|].
  intros H. apply andb_prop in H as [Hc Hs]. now rewrite (Hpq _ Hc), IH.
Qed.

Lemma get_next_token_loop_eq n self :
  Lexer.get_next_token_loop n self =
    match Lexer.current_char self with
    | None => Ok (TokEOF, self)
    | Some c =>
        if Char.isalpha c then Lexer._id self
        else if Lexer.char_is c ":" && Lexer.peek_is self "=" then
          Ok (TokAssign, Lexer.advance (Lexer.advance self))
        else if Lexer.char_is c ";" then Ok (TokSemi, Lexer.advance self)
        else if Lexer.char_is c "." then Ok (TokDot, Lexer.advance self)
        else if Char.isspace c then
          match n with
          | O => OutOfFuel
          | S n' => self ← Lexer.skip_whitespace self; Lexer.get_next_token_loop n' self
          end
        else if Char.isdigit c then
          '(n, self) ← Lexer.integer self; Ok (TokInteger n, self)
        else if Lexer.char_is c "+" then Ok (TokPlus, Lexer.advance self)
        else if Lexer.char_is c "-" then Ok (TokMinus, Lexer.advance self)
        else if Lexer.char_is c "*" then Ok (TokMul, Lexer.advance self)
        else if Lexer.char_is c "/" then Ok (TokDiv, Lexer.advance self)
        else if Lexer.char_is c "(" then Ok (TokLParen, Lexer.advance self)
        else if Lexer.char_is c ")" then Ok (TokRParen, Lexer.advance self)
        else Raise InvalidCharacter
    end.
Proof. destruct n; reflexivity. Qed.

(** Past the whitespace, the loop of [get_next_token] takes no other
    turn: its bound does not matter. *)
Lemma get_next_token_loop_fuel n m lx :
  match Lexer.current_char lx with
  | Some c => Char.isspace c = false
  | None => True
  end ->
  Lexer.get_next_token_loop n lx = Lexer.get_next_token_loop m lx.
Proof.
  intros H. rewrite (get_next_token_loop_eq n), (get_next_token_loop_eq m).
  destruct (Lexer.current_char lx); [rewrite H|]; reflexivity.
Qed.

Lemma get_next_token_loop_space w :
  forall before r,
    run Char.isspace w = true -> ends_run Char.isspace r = true ->
    Lexer.get_next_token (reading before (String.append w r))
    = Lexer.get_next_token_loop 0 (reading (String.append before w) r).
Proof.
  intros before r Hw Hr. unfold Lexer.get_next_token. rewrite fuel_reading.
  destruct w as [|c w].
  - rewrite append_nil, append_nil_r. apply get_next_token_loop_fuel.
    now apply ends_run_current.
  - rewrite get_next_token_loop_eq, current_char_reading, append_cons.
    cbn [String.get]. simpl in Hw. apply andb_prop in Hw as [Hc Hw].
    destruct (isspace_class c Hc) as (-> & -> & -> & ->). rewrite Hc.
    cbn [andb]. cbv iota.
    unfold Lexer.skip_whitespace.
    rewrite <- append_cons.
    rewrite skip_whitespace_loop_run;
      [|simpl; now rewrite Hc, Hw|assumption|rewrite fuel_reading, length_append; lia].
    rewrite bind_Ok. apply get_next_token_loop_fuel. now apply ends_run_current.
Qed.

(** ** Numerals *)

Lemma int_digits_cons acc c s :
  Char.isdecimal c = true ->
  Char.int_digits acc (String c s)
  = Char.int_digits (10 * acc + Z.of_N (Char.code c - 48)) s.
Proof. intros H. cbn [Char.int_digits]. now rewrite H. Qed.

Lemma int_digits_acc d :
  forall acc : positive,
    Char.int_digits (Zpos acc) (NilEmpty.string_of_uint d)
    = Some (Zpos (Pos.of_uint_acc d acc)).
Proof.
  induction d as [|d IH|d IH|d IH|d IH|d IH|d IH|d IH|d IH|d IH|d IH]; intros acc;
    cbn [NilEmpty.string_of_uint Pos.of_uint_acc]; [reflexivity|..];
    rewrite int_digits_cons by reflexivity; rewrite <- IH; f_equal;
    vm_compute Char.code; lia.
Qed.

Lemma int_digits_uint d :
  Char.int_digits 0 (NilEmpty.string_of_uint d) = Some (Z.of_N (N.of_uint d)).
Proof.
  unfold N.of_uint.
  induction d as [|d IH|d IH|d IH|d IH|d IH|d IH|d IH|d IH|d IH|d IH];
    cbn [NilEmpty.string_of_uint Pos.of_uint]; [reflexivity|..];
    rewrite int_digits_cons by reflexivity;
    [exact IH|apply int_digits_acc..].
Qed.

Lemma run_decimal_uint d : run Char.isdecimal (NilEmpty.string_of_uint d) = true.
Proof. induction d; simpl; [reflexivity|exact IHd..]. Qed.

Lemma to_uint_nonnil (n : N) : N.to_uint n <> Decimal.Nil.
Proof.
  destruct n as [|p]; [discriminate|]. apply DecimalPos.Unsigned.to_uint_nonnil.
Qed.

Lemma numeral_uint (n : N) : numeral n = NilEmpty.string_of_uint (N.to_uint n).
Proof.
  unfold numeral, NilZero.string_of_uint.
  pose proof (to_uint_nonnil n). destruct (N.to_uint n); congruence.
Qed.

Lemma numeral_cons (n : N) : exists c ds, numeral n = String c ds.
Proof.
  rewrite numeral_uint. pose proof (to_uint_nonnil n).
  destruct (N.to_uint n); [congruence|simpl; eauto..].
Qed.

Lemma int_numeral (n : N) : Char.int (numeral n) = Ok (Z.of_N n).
Proof.
  destruct (numeral_cons n) as (c & ds & E). unfold Char.int. rewrite E, <- E.
  rewrite numeral_uint, int_digits_uint, DecimalN.Unsigned.of_to. reflexivity.
Qed.

Lemma int_digits_not_decimal s :
  forall acc, run Char.isdecimal s = false -> Char.int_digits acc s = None.
Proof.
  induction s as [|c s IH]; intros acc H; simpl in *; [discriminate|].
  destruct (Char.isdecimal c); [now apply IH|reflexivity].
Qed.

(** ** Tokens of more than one character *)

Lemma get_next_token_digits c ds before rest :
  run Char.isdigit (String c ds) = true -> ends_run Char.isdigit rest = true ->
  Lexer.get_next_token (reading before (String.append (String c ds) rest))
  = (n ← Char.int (String c ds);
     Ok (TokInteger n, reading (String.append before (String c ds)) rest)).
Proof.
  intros Hr He. unfold Lexer.get_next_token.
  rewrite get_next_token_loop_eq, current_char_reading, append_cons.
  cbn [String.get]. pose proof Hr as Hr'. simpl in Hr'.
  apply andb_prop in Hr' as [Hc _].
  destruct (isdigit_class c Hc) as (-> & -> & -> & -> & ->). rewrite Hc.
  cbn [andb]. cbv iota. unfold Lexer.integer.
  rewrite <- append_cons, integer_loop_run;
    [|assumption|assumption|rewrite fuel_reading, length_append; lia].
  rewrite bind_Ok, append_nil. cbv beta iota.
  destruct (Char.int (String c ds)); reflexivity.
Qed.

Lemma get_next_token_word c w before rest :
  Char.isalpha c = true -> run Char.isalnum w = true ->
  ends_run Char.isalnum rest = true ->
  Lexer.get_next_token (reading before (String.append (String c w) rest))
  = Ok (Lexer.RESERVED_KEYWORDS_get (String c w) (TokId (String c w)),
        reading (String.append before (String c w)) rest).
Proof.
  intros Hc Hw He. unfold Lexer.get_next_token.
  rewrite get_next_token_loop_eq, current_char_reading, append_cons.
  cbn [String.get]. rewrite Hc. unfold Lexer._id.
  rewrite <- append_cons, _id_loop_run;
    [|simpl; now rewrite (isalpha_isalnum c Hc), Hw|assumption
     |rewrite fuel_reading, length_append; lia].
  now rewrite bind_Ok, append_nil.
Qed.

(** ** The end of the input *)

Lemma get_next_token_loop_eof n lx lx' :
  match Lexer.current_char lx with
  | Some c => Char.isspace c = false
  | None => True
  end ->
  Lexer.get_next_token_loop n lx = Ok (TokEOF, lx') ->
  lx' = lx /\ Lexer.current_char lx = None.
Proof.
  intros H. rewrite get_next_token_loop_eq.
  destruct (Lexer.current_char lx) as [c|]; [|intros [= <-]; auto].
  rewrite H.
  destruct (Char.isalpha c).
  { unfold Lexer._id. destruct (Lexer._id_loop _ _ _) as [[r l]|e|]; simpl;
      try discriminate.
    unfold Lexer.RESERVED_KEYWORDS_get.
    destruct (String.eqb r "BEGIN"); [discriminate|].
    destruct (String.eqb r "END"); discriminate. }
  destruct (Lexer.char_is c ":" && Lexer.peek_is lx "="); [discriminate|].
  destruct (Lexer.char_is c ";"); [discriminate|].
  destruct (Lexer.char_is c "."); [discriminate|].
  destruct (Char.isdigit c).
  { destruct (Lexer.integer lx) as [[k l]|e|]; simpl; discriminate. }
  repeat match goal with
         | |- context [if ?b then _ else _] => destruct b; [discriminate|]
         end.
  discriminate.
Qed.

Lemma get_next_token_eof lx lx' :
  Lexer.cursor_ok lx -> Lexer.get_next_token lx = Ok (TokEOF, lx') ->
  Lexer.current_char lx' = None.
Proof.
  intros Hok. unfold Lexer.get_next_token.
  destruct (Lexer.current_char lx) as [c|] eqn:Hc.
  - destruct (Char.isspace c) eqn:Hs.
    + rewrite get_next_token_loop_eq, Hc.
      destruct (isspace_class c Hs) as (-> & -> & -> & ->). rewrite Hs.
      cbn [andb]. cbv iota. unfold Lexer.fuel at 1.
      destruct (skip_whitespace_loop_forward (Lexer.fuel lx) lx Hok)
        as (lx1 & E & _ & H1); [unfold Lexer.fuel, Lexer.remaining; lia|].
      unfold Lexer.skip_whitespace. rewrite E, bind_Ok. intros H.
      destruct (get_next_token_loop_eof _ _ _ H1 H) as [-> ?]. assumption.
    + intros H. destruct (get_next_token_loop_eof (Lexer.fuel lx) lx lx') as [-> ?];
        [now rewrite Hc|exact H|assumption].
  - rewrite get_next_token_loop_eq, Hc. now intros [= <-].
Qed.

Lemma get_next_tokens_bounded k :
  forall lx tokens lx',
    Lexer.cursor_ok lx -> (Lexer.remaining lx <= k)%nat ->
    Lexer.get_next_tokens k lx = Ok (tokens, lx') ->
    Lexer.current_char lx' = None.
Proof.
  induction k as [|k IH]; intros lx tokens lx' Hok Hk; simpl.
  - intros [= _ <-]. apply exhausted_current_char; [assumption|].
    unfold Lexer.exhausted. unfold Lexer.remaining in Hk. lia.
  - destruct (get_next_token_ok lx Hok)
      as [(tok & lx1 & E & (Hok1 & _ & _) & Hlt)|(e & E)]; rewrite E;
      [|discriminate].
    rewrite bind_Ok. cbv beta iota.
    destruct (decide (type tok = EOF)) as [Ht|Ht].
    + destruct tok; try discriminate Ht.
      pose proof (get_next_token_eof _ _ Hok E) as Hn.
      rewrite (get_next_tokens_None k lx1 Hn). simpl. now intros [= _ <-].
    + specialize (Hlt Ht).
      destruct (Lexer.get_next_tokens k lx1) as [[ts l]|e|] eqn:Ek; simpl;
        try discriminate.
      intros [= _ <-]. apply (IH lx1 ts l Hok1); [lia|exact Ek].
Qed.

(** ** Statements in a row *)

Lemma visit_children_app l1 :
  forall l2 scope,
    visit_children (l1 ++ l2) scope
    = match visit_children l1 scope with
      | (Ok _, s1) => visit_children l2 s1
      | (Raise e, s1) => (Raise e, s1)
      | (OutOfFuel, s1) => (OutOfFuel, s1)
      end.
Proof.
  induction l1 as [|a l1 IH]; intros l2 scope; [reflexivity|].
  simpl. unfold Interpreter.seq.
  destruct (Interpreter.visit a scope) as [[v|e|] s]; [apply IH|reflexivity..].
Qed.

(** ** What a visit raises and returns *)

Lemma arith_raise f g a b e :
  is_number a = true -> is_number b = true ->
  Py.arith f g a b = Raise e -> e = OverflowError.
Proof.
  destruct a as [|x|x], b as [|y|y]; simpl; try discriminate; intros _ _ H.
  - destruct (Py.float_of_int x) eqn:E; simpl in H; try discriminate.
    inversion H; subst. now apply float_of_int_raise in E.
  - destruct (Py.float_of_int y) eqn:E; simpl in H; try discriminate.
    inversion H; subst. now apply float_of_int_raise in E.
Qed.

Lemma truediv_raise a b e :
  is_number a = true -> is_number b = true ->
  Py.truediv a b = Raise e -> e = ZeroDivisionError \/ e = OverflowError.
Proof.
  destruct a as [|x|x], b as [|y|y]; simpl; try discriminate; intros _ _ H.
  - unfold Py.int_truediv in H. destruct (y =? 0); [inversion H; auto|].
    destruct (SFdiv _ _ _ _); simpl in H; inversion H; auto.
  - destruct (Py.float_of_int x) eqn:E; simpl in H; try discriminate.
    + destruct (PrimFloat.eqb y 0); inversion H; auto.
    + inversion H; subst. apply float_of_int_raise in E. auto.
  - destruct (Py.float_of_int y) eqn:E; simpl in H; try discriminate.
    + destruct (PrimFloat.eqb a 0); inversion H; auto.
    + inversion H; subst. apply float_of_int_raise in E. auto.
  - destruct (PrimFloat.eqb y 0); inversion H; auto.
Qed.

Lemma arith_float f g a b v :
  Py.arith f g a b = Ok v -> is_float v = is_float a || is_float b.
Proof.
  destruct a as [|x|x], b as [|y|y]; simpl; try discriminate; intros H.
  - now inversion H.
  - destruct (Py.float_of_int x); simpl in H; inversion H; reflexivity.
  - destruct (Py.float_of_int y); simpl in H; inversion H; reflexivity.
  - now inversion H.
Qed.

Lemma truediv_float a b v : Py.truediv a b = Ok v -> is_float v = true.
Proof.
  destruct a as [|x|x], b as [|y|y]; simpl; try discriminate; intros H.
  - destruct (Py.int_truediv x y); simpl in H; inversion H; reflexivity.
  - destruct (Py.float_of_int x); simpl in H; try discriminate.
    destruct (PrimFloat.eqb y 0); inversion H; reflexivity.
  - destruct (Py.float_of_int y); simpl in H; try discriminate.
    destruct (PrimFloat.eqb a 0); inversion H; reflexivity.
  - destruct (PrimFloat.eqb y 0); inversion H; reflexivity.
Qed.

Lemma visit_expr_raises node :
  is_expr node = true ->
  forall scope e scope',
    Interpreter.visit node scope = (Raise e, scope') -> is_runtime_error e = true.
Proof.
  induction node as [l op r IHl IHr|value|children _|x op r _|value| |op e0 IHe]
    using AST_ind; intros He scope e scope' H; simpl in He; try discriminate.
  - apply andb_true_iff in He as (He & Hr). apply andb_true_iff in He as (Hop & Hl).
    specialize (IHl Hl). specialize (IHr Hr).
    assert (Hgen : forall f : pyval -> pyval -> outcome pyval,
               (forall a b, is_number a = true -> is_number b = true ->
                            f a b = Raise e -> is_runtime_error e = true) ->
               Interpreter.seq (Interpreter.visit l)
                 (fun a => Interpreter.seq (Interpreter.visit r)
                             (fun b => Interpreter.ret (f a b))) scope
               = (Raise e, scope') ->
               is_runtime_error e = true).
    { intros f Hf Hs. unfold Interpreter.seq, Interpreter.ret in Hs.
      destruct (Interpreter.visit l scope) as [rl s1] eqn:El.
      destruct (visit_expr l Hl _ _ _ El) as (-> & Hna).
      destruct rl as [a|e1|]; [|inversion Hs; subst; eapply IHl; eassumption|discriminate].
      destruct (Interpreter.visit r scope) as [rr s2] eqn:Er.
      destruct (visit_expr r Hr _ _ _ Er) as (-> & Hnb).
      destruct rr as [b|e1|]; [|inversion Hs; subst; eapply IHr; eassumption|discriminate].
      inversion Hs as [Hfab]. eapply Hf; [apply Hna|apply Hnb|exact Hfab]; reflexivity. }
    simpl in H.
    destruct (decide (type op = PLUS));
      [apply (Hgen Py.add); [intros a b Ha Hb Hr'; now rewrite (arith_raise _ _ _ _ _ Ha Hb Hr')|exact H]|].
    destruct (decide (type op = MINUS));
      [apply (Hgen Py.sub); [intros a b Ha Hb Hr'; now rewrite (arith_raise _ _ _ _ _ Ha Hb Hr')|exact H]|].
    destruct (decide (type op = MUL));
      [apply (Hgen Py.mul); [intros a b Ha Hb Hr'; now rewrite (arith_raise _ _ _ _ _ Ha Hb Hr')|exact H]|].
    destruct (decide (type op = DIV));
      [apply (Hgen Py.truediv);
       [intros a b Ha Hb Hr'; now destruct (truediv_raise _ _ _ Ha Hb Hr') as [-> | ->]|exact H]|].
    rewrite !bool_decide_eq_false_2 in Hop by assumption. discriminate.
  - simpl in H. unfold Interpreter.visit_Var in H.
    destruct (default PNone (scope !! value)) eqn:Ed; inversion H; reflexivity.
  - apply andb_true_iff in He as (Hop & He). specialize (IHe He).
    assert (Hgen : forall f : pyval -> outcome pyval,
               (forall a, is_number a = true -> f a = Raise e -> False) ->
               Interpreter.seq (Interpreter.visit e0)
                 (fun a => Interpreter.ret (f a)) scope = (Raise e, scope') ->
               is_runtime_error e = true).
    { intros f Hf Hs. unfold Interpreter.seq, Interpreter.ret in Hs.
      destruct (Interpreter.visit e0 scope) as [re s1] eqn:Ee.
      destruct (visit_expr e0 He _ _ _ Ee) as (-> & Hna).
      destruct re as [a|e1|]; [|inversion Hs; subst; eapply IHe; eassumption|discriminate].
      inversion Hs as [Hfa]. exfalso. eapply Hf; [|exact Hfa]. now apply Hna. }
    simpl in H.
    destruct (decide (type op = PLUS));
      [apply (Hgen Py.pos); [intros [] ? ?; discriminate|exact H]|].
    destruct (decide (type op = MINUS));
      [apply (Hgen Py.neg); [intros [] ? ?; discriminate|exact H]|].
    rewrite !bool_decide_eq_false_2 in Hop by assumption. discriminate.
Qed.


Lemma visit_expr_float node :
  is_expr node = true ->
  forall scope v scope',
    Interpreter.visit node scope = (Ok v, scope') ->
    is_float v = has_float scope node.
Proof.
  induction node as [l op r IHl IHr|value|children _|x op r _|value| |op e0 IHe]
    using AST_ind; intros He scope v scope' H; simpl in He; try discriminate.
  - apply andb_true_iff in He as (He & Hr). apply andb_true_iff in He as (Hop & Hl).
    specialize (IHl Hl). specialize (IHr Hr).
    assert (Hgen : forall f : pyval -> pyval -> outcome pyval,
               Interpreter.seq (Interpreter.visit l)
                 (fun a => Interpreter.seq (Interpreter.visit r)
                             (fun b => Interpreter.ret (f a b))) scope
               = (Ok v, scope') ->
               exists a b, f a b = Ok v /\ is_float a = has_float scope l
                           /\ is_float b = has_float scope r).
    { intros f Hs. apply seq2_inv in Hs as (a & s1 & b & El & Er & Hf).
      destruct (visit_expr l Hl _ _ _ El) as (-> & _).
      exists a, b. split; [exact Hf|]. split; [eapply IHl|eapply IHr]; eassumption. }
    simpl in H. cbn [has_float].
    destruct (decide (type op = PLUS)) as [Ho|];
      [destruct (Hgen _ H) as (a & b & Hf & <- & <-);
       rewrite bool_decide_eq_false_2 by congruence; now apply arith_float in Hf|].
    destruct (decide (type op = MINUS)) as [Ho|];
      [destruct (Hgen _ H) as (a & b & Hf & <- & <-);
       rewrite bool_decide_eq_false_2 by congruence; now apply arith_float in Hf|].
    destruct (decide (type op = MUL)) as [Ho|];
      [destruct (Hgen _ H) as (a & b & Hf & <- & <-);
       rewrite bool_decide_eq_false_2 by congruence; now apply arith_float in Hf|].
    destruct (decide (type op = DIV)) as [Ho|];
      [destruct (Hgen _ H) as (a & b & Hf & _);
       rewrite bool_decide_eq_true_2 by assumption; now apply truediv_float in Hf|].
    rewrite !bool_decide_eq_false_2 in Hop by assumption. discriminate.
  - now inversion H.
  - simpl in H. unfold Interpreter.visit_Var in H. cbn [has_float].
    destruct (scope !! value) as [[| |]|]; simpl in H; inversion H; reflexivity.
  - apply andb_true_iff in He as (Hop & He). specialize (IHe He).
    simpl in H. cbn [has_float].
    destruct (decide (type op = PLUS));
      [apply seq1_inv in H as (a & Ee & Hf); rewrite <- (IHe _ _ _ Ee);
       destruct a; simpl in Hf; inversion Hf; reflexivity|].
    destruct (decide (type op = MINUS));
      [apply seq1_inv in H as (a & Ee & Hf); rewrite <- (IHe _ _ _ Ee);
       destruct a; simpl in Hf; inversion Hf; reflexivity|].
    rewrite !bool_decide_eq_false_2 in Hop by assumption. discriminate.
Qed.

(** ** What the lexer and the parser raise *)
















(** ** Parsing the tokens of a tree *)

Lemma nodes_pos node : (1 <= nodes node)%nat.
Proof. destruct node; simpl; lia. Qed.

Lemma is_expr_op l op r :
  is_expr (BinOp l op r) = true ->
  (op = TokPlus \/ op = TokMinus \/ op = TokMul \/ op = TokDiv)
  /\ is_expr l = true /\ is_expr r = true.
Proof.
  simpl. intros H. apply andb_true_iff in H as (H & Hr).
  apply andb_true_iff in H as (Hop & Hl).
  split; [|auto]. destruct op; try discriminate Hop; auto.
Qed.

Lemma is_expr_unary op e :
  is_expr (UnaryOp op e) = true -> (op = TokPlus \/ op = TokMinus) /\ is_expr e = true.
Proof.
  simpl. intros H. apply andb_true_iff in H as (Hop & He).
  split; [|auto]. destruct op; try discriminate Hop; auto.
Qed.

Lemma stops_RParen : stops TokRParen.
Proof. repeat split; discriminate. Qed.

(** An expression in parentheses is a factor. *)
Lemma factor_paren e n p rest :
  (forall n p t ts,
      (4 * nodes e + 3 <= n)%nat -> stops t ->
      reads p (expr_tokens e ++ t :: ts) ->
      exists p', Parser.expr n p = Ok (e, p') /\ reads p' (t :: ts)) ->
  (4 * nodes e + 4 <= n)%nat -> rest <> [] ->
  reads p (TokLParen :: expr_tokens e ++ TokRParen :: rest) ->
  exists p', Parser.factor n p = Ok (e, p') /\ reads p' rest.
Proof.
  intros IH Hn Hne H. destruct n as [|n]; [lia|].
  pose proof (reads_current _ _ _ H) as Hc.
  destruct (eat_reads LPAREN p _ _ H eq_refl) as (p1 & He1 & Hr1);
    [apply app_cons_nonempty|].
  destruct (IH n p1 TokRParen rest) as (p2 & He & Hr2);
    [lia|apply stops_RParen|exact Hr1|].
  destruct (eat_reads RPAREN p2 _ _ Hr2 eq_refl Hne) as (p3 & He3 & Hr3).
  exists p3. split; [|exact Hr3].
  rewrite factor_S, Hc. cbv zeta. rewrite He1, bind_Ok, He, bind_Ok. cbv beta iota.
  now rewrite He3, bind_Ok.
Qed.

Lemma expr_tokens_parse node :
  is_expr node = true ->
  forall n p t ts,
    (4 * nodes node + 3 <= n)%nat -> stops t ->
    reads p (expr_tokens node ++ t :: ts) ->
    exists p', Parser.expr n p = Ok (node, p') /\ reads p' (t :: ts).
Proof.
  induction node as [l op r IHl IHr|value|children _|x op r _|name| |op e IHe]
    using AST_ind; intros Hx n p t ts Hn Hs H; try discriminate Hx.
  - (* BinOp *)
    apply is_expr_op in Hx as (Hop & Hl & Hr).
    specialize (IHl Hl). specialize (IHr Hr).
    pose proof (nodes_pos l) as Hpl. pose proof (nodes_pos r) as Hpr.
    cbn [nodes] in Hn.
    assert (E : expr_tokens (BinOp l op r) ++ t :: ts
                = TokLParen :: expr_tokens l
                    ++ TokRParen :: op :: TokLParen :: expr_tokens r
                    ++ TokRParen :: t :: ts).
    { cbn [expr_tokens app]. rewrite <- ?app_assoc. cbn [app]. rewrite <- ?app_assoc. reflexivity. }
    rewrite E in H. clear E.
    destruct Hs as (H1 & H2 & H3 & H4).
    destruct n as [|[|[|[|n]]]]; try lia.
    destruct (factor_paren l (S (S n)) p
                (op :: TokLParen :: expr_tokens r ++ TokRParen :: t :: ts) IHl)
      as (p1 & Hf1 & Hr1); [lia|discriminate|exact H|].
    pose proof (reads_current _ _ _ Hr1) as Hc1.
    destruct (eat_reads (type op) p1 _ _ Hr1 eq_refl) as (p2 & He2 & Hr2);
      [discriminate|].
    destruct (factor_paren r (S n) p2 (t :: ts) IHr) as (p3 & Hf3 & Hr3);
      [lia|discriminate|exact Hr2|].
    exists p3. split; [|exact Hr3].
    rewrite expr_S, term_S, Hf1, bind_Ok. cbv beta iota.
    destruct Hop as [-> | [-> | [-> | ->]]].
    + rewrite (term_loop_stop (S n) _ p1 _ _ Hr1) by discriminate.
      rewrite bind_Ok. cbv beta iota.
      rewrite expr_loop_S, Hc1. cbv zeta. simpl in He2 |- *.
      rewrite He2, bind_Ok, term_S, Hf3, bind_Ok. cbv beta iota.
      rewrite (term_loop_stop n _ p3 _ _ Hr3 H3 H4), bind_Ok. cbv beta iota.
      apply (expr_loop_stop (S n) _ p3 _ _ Hr3 H1 H2).
    + rewrite (term_loop_stop (S n) _ p1 _ _ Hr1) by discriminate.
      rewrite bind_Ok. cbv beta iota.
      rewrite expr_loop_S, Hc1. cbv zeta. simpl in He2 |- *.
      rewrite He2, bind_Ok, term_S, Hf3, bind_Ok. cbv beta iota.
      rewrite (term_loop_stop n _ p3 _ _ Hr3 H3 H4), bind_Ok. cbv beta iota.
      apply (expr_loop_stop (S n) _ p3 _ _ Hr3 H1 H2).
    + rewrite term_loop_S, Hc1. cbv zeta. simpl in He2 |- *.
      rewrite He2, bind_Ok, Hf3, bind_Ok. cbv beta iota.
      rewrite (term_loop_stop n _ p3 _ _ Hr3 H3 H4), bind_Ok. cbv beta iota.
      apply (expr_loop_stop (S (S n)) _ p3 _ _ Hr3 H1 H2).
    + rewrite term_loop_S, Hc1. cbv zeta. simpl in He2 |- *.
      rewrite He2, bind_Ok, Hf3, bind_Ok. cbv beta iota.
      rewrite (term_loop_stop n _ p3 _ _ Hr3 H3 H4), bind_Ok. cbv beta iota.
      apply (expr_loop_stop (S (S n)) _ p3 _ _ Hr3 H1 H2).
  - (* Num *)
    apply (expr_chain [] n p value t ts); try assumption; [constructor|].
    simpl in *. lia.
  - (* Var *)
    cbn [expr_tokens nodes app] in H, Hn. destruct Hs as (H1 & H2 & H3 & H4).
    destruct n as [|[|[|n]]]; try lia.
    pose proof (reads_current _ _ _ H) as Hc.
    destruct (eat_reads ID p _ _ H eq_refl) as (p1 & He1 & Hr1); [discriminate|].
    exists p1. split; [|exact Hr1].
    rewrite expr_S, term_S, factor_S, Hc. cbv zeta. unfold Parser.variable.
    rewrite Hc, He1, !bind_Ok. cbv beta iota.
    rewrite (term_loop_stop n _ p1 _ _ Hr1 H3 H4), bind_Ok. cbv beta iota.
    apply (expr_loop_stop (S n) _ p1 _ _ Hr1 H1 H2).
  - (* UnaryOp *)
    apply is_expr_unary in Hx as (Hop & He). specialize (IHe He).
    cbn [nodes] in Hn.
    assert (E : expr_tokens (UnaryOp op e) ++ t :: ts
                = op :: TokLParen :: expr_tokens e ++ TokRParen :: t :: ts).
    { cbn [expr_tokens app]. rewrite <- ?app_assoc. cbn [app]. rewrite <- ?app_assoc. reflexivity. }
    rewrite E in H. clear E.
    destruct Hs as (H1 & H2 & H3 & H4).
    destruct n as [|[|[|n]]]; try lia.
    pose proof (reads_current _ _ _ H) as Hc.
    destruct (eat_reads (type op) p _ _ H eq_refl) as (p1 & He1 & Hr1); [discriminate|].
    destruct (factor_paren e n p1 (t :: ts) IHe) as (p2 & Hf2 & Hr2);
      [lia|discriminate|exact Hr1|].
    exists p2. split; [|exact Hr2].
    rewrite expr_S, term_S, factor_S, Hc. cbv zeta.
    destruct Hop as [-> | ->]; simpl in He1 |- *;
      rewrite He1, bind_Ok, Hf2, !bind_Ok; cbv beta iota;
      rewrite (term_loop_stop n _ p2 _ _ Hr2 H3 H4), bind_Ok; cbv beta iota;
      apply (expr_loop_stop (S n) _ p2 _ _ Hr2 H1 H2).
Qed.

Lemma follows_after node t : follows t -> after node t.
Proof.
  intros [H|[H|H]]; destruct node; simpl; try exact I; repeat split; congruence.
Qed.

Lemma assignment_tokens_parse name e n p t ts :
  is_expr e = true -> (4 * nodes e + 3 <= n)%nat -> stops t ->
  reads p (TokId name :: TokAssign :: expr_tokens e ++ t :: ts) ->
  exists p', Parser.assignment_statement n p = Ok (Assign name TokAssign e, p')
             /\ reads p' (t :: ts).
Proof.
  intros He Hn Hs H. pose proof (reads_current _ _ _ H) as Hc.
  destruct (eat_reads ID p _ _ H eq_refl) as (p1 & He1 & Hr1); [discriminate|].
  pose proof (reads_current _ _ _ Hr1) as Hc1.
  destruct (eat_reads ASSIGN p1 _ _ Hr1 eq_refl) as (p2 & He2 & Hr2);
    [apply app_cons_nonempty|].
  destruct (expr_tokens_parse e He n p2 t ts Hn Hs Hr2) as (p3 & He3 & Hr3).
  exists p3. split; [|exact Hr3].
  unfold Parser.assignment_statement, Parser.variable.
  rewrite Hc, He1, !bind_Ok. cbv beta iota.
  now rewrite Hc1, He2, bind_Ok, He3, bind_Ok.
Qed.

(** What a statement of a block is followed by. *)
Lemma statements_head (cs : list AST) (ts : list Token) :
  exists t' ts',
    flat_map (fun c => TokSemi :: stmt_tokens c) cs ++ TokEnd :: ts = t' :: ts'
    /\ follows t'.
Proof.
  destruct cs as [|c cs]; simpl.
  - exists TokEnd, ts. split; [reflexivity|]. right; left; reflexivity.
  - eexists _, _. split; [reflexivity|]. left; reflexivity.
Qed.

Lemma statement_list_loop_tokens cs :
  Forall (fun c =>
            is_parsed c = true ->
            forall n p t ts,
              (4 * nodes c + 3 <= n)%nat -> after c t ->
              reads p (stmt_tokens c ++ t :: ts) ->
              exists p', Parser.statement n p = Ok (c, p') /\ reads p' (t :: ts)) cs ->
  forallb is_parsed cs = true ->
  forall n results p ts,
    (4 * list_sum (map nodes cs) + 4 <= n)%nat ->
    reads p (flat_map (fun c => TokSemi :: stmt_tokens c) cs ++ TokEnd :: ts) ->
    exists p', Parser.statement_list_loop n results p = Ok (results ++ cs, p')
               /\ reads p' (TokEnd :: ts).
Proof.
  induction cs as [|c cs IH]; intros HF Hp n results p ts Hn H.
  - simpl in H. destruct n as [|n]; [lia|]. exists p. split; [|exact H].
    rewrite statement_list_loop_S, (reads_current _ _ _ H), app_nil_r.
    now rewrite decide_False by discriminate.
  - inversion HF as [|c' cs' Hc HF']; subst.
    simpl in Hp. apply andb_true_iff in Hp as (Hpc & Hpcs).
    cbn [flat_map app] in H. simpl in Hn. rewrite <- app_assoc in H.
    destruct n as [|n]; [lia|].
    pose proof (reads_current _ _ _ H) as Hcur.
    destruct (eat_reads SEMI p _ _ H eq_refl) as (p1 & He1 & Hr1);
      [rewrite app_assoc; apply app_cons_nonempty|].
    destruct (statements_head cs ts) as (t' & ts' & E & Hf). rewrite E in Hr1.
    pose proof (nodes_pos c) as Hpos.
    destruct (Hc Hpc n p1 t' ts') as (p2 & Hs2 & Hr2);
      [lia|now apply follows_after|exact Hr1|].
    rewrite <- E in Hr2.
    destruct (IH HF' Hpcs n (results ++ [c]) p2 ts) as (p3 & Hl3 & Hr3);
      [lia|exact Hr2|].
    exists p3. split; [|exact Hr3].
    rewrite statement_list_loop_S, Hcur.
    rewrite decide_True by reflexivity.
    rewrite He1, bind_Ok, Hs2, bind_Ok. cbv beta iota.
    now rewrite Hl3, <- app_assoc.
Qed.

Lemma compound_tokens_parse cs :
  Forall (fun c =>
            is_parsed c = true ->
            forall n p t ts,
              (4 * nodes c + 3 <= n)%nat -> after c t ->
              reads p (stmt_tokens c ++ t :: ts) ->
              exists p', Parser.statement n p = Ok (c, p') /\ reads p' (t :: ts)) cs ->
  is_parsed (Compound cs) = true ->
  forall n p t ts,
    (4 * nodes (Compound cs) + 2 <= n)%nat ->
    reads p (stmt_tokens (Compound cs) ++ t :: ts) ->
    exists p', Parser.compound_statement n p = Ok (Compound cs, p')
               /\ reads p' (t :: ts).
Proof.
  intros HF Hp n p t ts Hn H. destruct cs as [|c cs]; [discriminate|].
  cbn [is_parsed] in Hp. apply andb_true_iff in Hp as (_ & Hp).
  simpl in Hp. apply andb_true_iff in Hp as (Hpc & Hpcs).
  inversion HF as [|c' cs' Hc HF']; subst.
  assert (E : stmt_tokens (Compound (c :: cs)) ++ t :: ts
              = TokBegin :: stmt_tokens c
                  ++ flat_map (fun c => TokSemi :: stmt_tokens c) cs
                  ++ TokEnd :: t :: ts).
  { cbn [stmt_tokens app]. rewrite <- ?app_assoc. cbn [app]. reflexivity. }
  rewrite E in H. clear E. simpl in Hn.
  destruct n as [|[|n]]; try lia.
  destruct (eat_reads BEGIN p _ _ H eq_refl) as (p1 & He1 & Hr1);
    [rewrite app_assoc; apply app_cons_nonempty|].
  destruct (statements_head cs (t :: ts)) as (t' & ts' & E & Hf). rewrite E in Hr1.
  destruct (Hc Hpc n p1 t' ts') as (p2 & Hs2 & Hr2);
    [lia|now apply follows_after|exact Hr1|].
  rewrite <- E in Hr2. pose proof (nodes_pos c) as Hpos.
  destruct (statement_list_loop_tokens cs HF' Hpcs n [c] p2 (t :: ts))
    as (p3 & Hl3 & Hr3); [lia|exact Hr2|].
  destruct (eat_reads END p3 _ _ Hr3 eq_refl) as (p4 & He4 & Hr4); [discriminate|].
  exists p4. split; [|exact Hr4].
  rewrite compound_statement_S, He1, bind_Ok, statement_list_S, Hs2, bind_Ok.
  cbv beta iota. rewrite Hl3, bind_Ok. cbv beta iota.
  now rewrite He4, bind_Ok.
Qed.

Lemma stmt_tokens_parse node :
  is_parsed node = true ->
  forall n p t ts,
    (4 * nodes node + 3 <= n)%nat -> after node t ->
    reads p (stmt_tokens node ++ t :: ts) ->
    exists p', Parser.statement n p = Ok (node, p') /\ reads p' (t :: ts).
Proof.
  induction node as [l op r IHl IHr|value|children IH|x op r _|name| |op e IHe]
    using AST_ind; intros Hp n p t ts Hn Hf H; try discriminate Hp.
  - (* Compound *)
    destruct n as [|n]; [lia|].
    destruct (compound_tokens_parse children IH Hp n p t ts) as (p' & Hc & Hr);
      [lia|exact H|].
    exists p'. split; [|exact Hr].
    rewrite statement_S. destruct children as [|c cs]; [discriminate|].
    cbn [stmt_tokens app] in H. rewrite (reads_current _ _ _ H).
    now rewrite decide_True by reflexivity.
  - (* Assign *)
    cbn [is_parsed] in Hp. apply andb_true_iff in Hp as (Hop & He).
    destruct op; try discriminate Hop.
    cbn [stmt_tokens app nodes] in H, Hn. destruct n as [|n]; [lia|].
    destruct (assignment_tokens_parse x r n p t ts He) as (p' & Ha & Hr);
      [lia|exact Hf|exact H|].
    exists p'. split; [|exact Hr].
    rewrite statement_S, (reads_current _ _ _ H).
    rewrite decide_False by discriminate. now rewrite decide_True by reflexivity.
  - (* NoOp *)
    cbn [stmt_tokens app] in H. destruct n as [|n]; [simpl in Hn; lia|].
    exists p. split; [|exact H].
    destruct Hf as (Hf1 & Hf2).
    apply statement_empty; now rewrite (reads_current _ _ _ H).
Qed.

Lemma program_tokens_parse cs n p :
  is_parsed (Compound cs) = true ->
  (4 * nodes (Compound cs) + 3 <= n)%nat ->
  reads p (program_tokens (Compound cs)) ->
  exists p', Parser.parse n p = Ok (Compound cs, p')
             /\ Parser.current_token p' = TokEOF.
Proof.
  intros Hp Hn H. unfold program_tokens in H.
  destruct (compound_tokens_parse cs) with (n := n) (p := p) (t := TokDot)
                                          (ts := [TokEOF])
    as (p1 & Hc & Hr1); [|exact Hp|lia|exact H|].
  { apply Forall_forall. intros c _. apply stmt_tokens_parse. }
  destruct (eat_reads DOT p1 _ _ Hr1 eq_refl) as (p2 & He2 & Hr2); [discriminate|].
  exists p2. split; [|exact (reads_current _ _ _ Hr2)].
  unfold Parser.parse, Parser.program.
  rewrite Hc, bind_Ok. cbv beta iota. rewrite He2, !bind_Ok. cbv beta iota.
  rewrite (reads_current _ _ _ Hr2). reflexivity.
Qed.

(** ** Reading back the text of tokens *)

Lemma peek_is_reading (before : string) (c : ascii) (rest : string) (d : ascii) :
  Lexer.peek_is (reading before (String c rest)) d
  = match rest with
    | String c' _ => Ascii.eqb c' d
    | EmptyString => false
    end.
Proof.
  unfold Lexer.peek_is.
  replace (Lexer.peek (reading before (String c rest)))
    with (Lexer.current_char (Lexer.advance (reading before (String c rest)))).
  - rewrite advance_reading, current_char_reading. now destruct rest.
  - unfold Lexer.peek, Lexer.advance. destruct (_ >? _); reflexivity.
Qed.

Lemma get_next_token_lexeme (t : Token) (before rest : string) :
  lexable t = true ->
  Lexer.get_next_token
    (reading before (String.append (lexeme t) (String " " rest)))
  = Ok (t, reading (String.append before (lexeme t)) (String " " rest)).
Proof.
  intros Hl.
  assert (Hone : forall c tok,
             Lexer.get_next_token_loop
               (Lexer.fuel (reading before (String c (String " " rest))))
               (reading before (String c (String " " rest)))
             = Ok (tok, Lexer.advance (reading before (String c (String " " rest)))) ->
             Lexer.get_next_token
               (reading before (String.append (String c "") (String " " rest)))
             = Ok (tok, reading (String.append before (String c "")) (String " " rest))).
  { intros c tok H. rewrite append_cons, append_nil. unfold Lexer.get_next_token.
    rewrite H, advance_reading. reflexivity. }
  destruct t; try discriminate Hl; cbn [lexeme];
    try (apply Hone; rewrite fuel_reading; reflexivity).
  - (* INTEGER *)
    cbn [lexable] in Hl. apply andb_true_iff in Hl as (Hl & _).
    apply Z.leb_le in Hl.
    destruct (numeral_cons (Z.to_N value)) as (c & ds & E).
    pose proof (int_numeral (Z.to_N value)) as Hi.
    assert (Hr : run Char.isdigit (numeral (Z.to_N value)) = true).
    { rewrite numeral_uint. eapply run_impl; [apply isdecimal_isdigit|].
      apply run_decimal_uint. }
    rewrite E in *. rewrite get_next_token_digits by (assumption || reflexivity).
    rewrite Hi, bind_Ok, Z2N.id by assumption. reflexivity.
  - (* BEGIN *)
    now rewrite (get_next_token_word "B" "EGIN").
  - (* END *)
    now rewrite (get_next_token_word "E" "ND").
  - (* ASSIGN *)
    rewrite !append_cons, append_nil. unfold Lexer.get_next_token.
    rewrite get_next_token_loop_eq, current_char_reading. cbn [String.get].
    rewrite peek_is_reading. change (Char.isalpha ":") with false.
    change (Lexer.char_is ":" ":" && Ascii.eqb "=" "=") with true. cbv iota.
    rewrite !advance_reading. unfold append_char.
    now rewrite append_assoc, append_cons, append_nil.
  - (* ID *)
    simpl in Hl. apply andb_true_iff in Hl as (Hl & He).
    apply andb_true_iff in Hl as (Hw & Hb).
    destruct value as [|c w]; [discriminate|]. simpl in Hw.
    apply andb_true_iff in Hw as (Hc & Hw).
    rewrite get_next_token_word by (assumption || reflexivity).
    unfold Lexer.RESERVED_KEYWORDS_get.
    apply negb_true_iff in Hb, He. now rewrite Hb, He.
Qed.

Lemma get_next_tokens_same k lx1 lx2 :
  Lexer.get_next_token lx1 = Lexer.get_next_token lx2 ->
  Lexer.get_next_tokens (S k) lx1 = Lexer.get_next_tokens (S k) lx2.
Proof. intros H. cbn [Lexer.get_next_tokens]. now rewrite H. Qed.

Lemma get_next_tokens_text tokens :
  forallb lexable tokens = true ->
  forall before,
    Lexer.get_next_tokens (S (length tokens)) (reading before (tokens_text tokens))
    = Ok (tokens ++ [TokEOF], reading (String.append before (tokens_text tokens)) "").
Proof.
  induction tokens as [|t tokens IH]; intros Hl before.
  - simpl. now rewrite append_nil_r.
  - simpl in Hl. apply andb_true_iff in Hl as (Ht & Hl).
    cbn [tokens_text fold_right length].
    change (fold_right (fun t s => String.append (lexeme t) (String " " s)) "" tokens)
      with (tokens_text tokens).
    cbn [Lexer.get_next_tokens]. rewrite get_next_token_lexeme by assumption.
    rewrite bind_Ok. cbv beta iota.
    change (Lexer.get_next_token (reading (String.append before (lexeme t))
                                    (String " " (tokens_text tokens)))
            ≫= (fun '(token, self) =>
                  Lexer.get_next_tokens (length tokens) self
                  ≫= (fun '(tokens0, self0) => Ok (token :: tokens0, self0))))
      with (Lexer.get_next_tokens (S (length tokens))
              (reading (String.append before (lexeme t))
                 (String " " (tokens_text tokens)))).
    rewrite (get_next_tokens_same _ _
               (reading (String.append (String.append before (lexeme t)) " ")
                  (tokens_text tokens))).
    + rewrite IH by assumption. rewrite bind_Ok. cbv beta iota.
      now rewrite !append_assoc, append_cons, append_nil.
    + change (String " " (tokens_text tokens))
        with (String.append " " (tokens_text tokens)).
      destruct (span Char.isspace (tokens_text tokens)) as (ws & r2 & -> & Hw & He).
      rewrite <- append_assoc, get_next_token_loop_space by (simpl; now rewrite ?Hw).
      rewrite (get_next_token_loop_space ws) by assumption.
      now rewrite !append_assoc.
Qed.

Lemma get_next_tokens_yields k :
  forall lx tokens lx',
    Lexer.get_next_tokens k lx = Ok (tokens, lx') -> yields lx tokens.
Proof.
  induction k as [|k IH]; intros lx tokens lx' H; simpl in H.
  - inversion H; constructor.
  - apply bind_Ok_inv in H as ([tok lx1] & Hg & H).
    apply bind_Ok_inv in H as ([toks lx2] & Hk & H). inversion H; subst.
    econstructor; [exact Hg|]. eapply IH; eassumption.
Qed.

Lemma length_tokens_text tokens :
  (length tokens <= String.length (tokens_text tokens))%nat.
Proof.
  induction tokens as [|t tokens IH]; simpl; [lia|].
  rewrite length_append. simpl. lia.
Qed.

Lemma nodes_expr_tokens node :
  is_expr node = true -> (nodes node <= length (expr_tokens node))%nat.
Proof.
  induction node as [l op r IHl IHr|value|children _|x op r _|name| |op e IHe]
    using AST_ind; intros Hx; try discriminate Hx; simpl.
  - apply is_expr_op in Hx as (_ & Hl & Hr). specialize (IHl Hl). specialize (IHr Hr).
    rewrite !length_app. simpl. rewrite length_app. simpl. lia.
  - lia.
  - lia.
  - apply is_expr_unary in Hx as (_ & He). specialize (IHe He).
    rewrite length_app. simpl. lia.
Qed.

Lemma nodes_stmt_tokens node :
  is_parsed node = true -> (nodes node <= S (length (stmt_tokens node)))%nat.
Proof.
  induction node as [l op r IHl IHr|value|children IH|x op r _|name| |op e IHe]
    using AST_ind; intros Hp; try discriminate Hp.
  - cbn [is_parsed] in Hp. apply andb_true_iff in Hp as (_ & Hp).
    cbn [nodes stmt_tokens length].
    assert (H : (list_sum (map nodes children)
                 <= length (flat_map (fun c => TokSemi :: stmt_tokens c) children))%nat).
    { induction children as [|c cs IHcs]; [simpl; lia|].
      simpl in Hp. apply andb_true_iff in Hp as (Hc & Hcs).
      inversion IH as [|c' cs' Hc' IH']; subst. specialize (Hc' Hc).
      specialize (IHcs IH' Hcs). simpl. rewrite length_app. lia. }
    destruct children as [|c cs]; [simpl; lia|].
    simpl in H |- *. rewrite !length_app in *. simpl. lia.
  - cbn [is_parsed] in Hp. apply andb_true_iff in Hp as (_ & He).
    apply nodes_expr_tokens in He. simpl. lia.
  - simpl. lia.
Qed.

(** ** The lexer *)

(** X1: whitespace in front of a token is skipped: with the cursor in front of
    a run [ws] of whitespace, [get_next_token] returns (or raises) what it
    does with the cursor behind the run, the state it leaves included. *)
Theorem lexer_skips_whitespace (before ws rest : string) :
  run Char.isspace ws = true ->
  Lexer.get_next_token (reading before (String.append ws rest))
  = Lexer.get_next_token (reading (String.append before ws) rest).
Proof.
  intros Hw. destruct (span Char.isspace rest) as (ws2 & rest2 & -> & H2 & He).
  assert (Hrun : forall a b, run Char.isspace a = true -> run Char.isspace b = true ->
                             run Char.isspace (String.append a b) = true).
  { intros a b Ha Hb. induction a as [|x a IH]; [exact Hb|].
    rewrite append_cons. simpl in *. apply andb_prop in Ha as [-> Ha]. now apply IH. }
  rewrite <- append_assoc.
  rewrite get_next_token_loop_space by auto.
  rewrite (get_next_token_loop_space ws2) by auto.
  now rewrite append_assoc.
Qed.

Lemma lexer_skips_whitespace_witness :
  run Char.isspace "  " = true
  /\ Lexer.get_next_token (reading "a" (String.append "  " "+1"))
     = Lexer.get_next_token (reading (String.append "a" "  ") "+1").
Proof. split; [reflexivity|]. apply lexer_skips_whitespace. reflexivity. Defined.

(** X2: [integer] and [int] read back what [str] writes: in front of the
    decimal numeral of [n], of no more digits than every version of
    Python converts, followed by the end of the text or by a character
    that is not a digit, [get_next_token] returns the [INTEGER] token of
    value [n] and leaves the cursor behind the numeral. *)
Theorem lexer_reads_numeral (n : N) (before rest : string) :
  (String.length (numeral n) <= max_str_digits)%nat ->
  ends_run Char.isdigit rest = true ->
  Lexer.get_next_token (reading before (String.append (numeral n) rest))
  = Ok (TokInteger (Z.of_N n), reading (String.append before (numeral n)) rest).
Proof.
  intros _ He. destruct (numeral_cons n) as (c & ds & E).
  pose proof (int_numeral n) as Hi.
  assert (Hr : run Char.isdigit (numeral n) = true).
  { rewrite numeral_uint. eapply run_impl; [apply isdecimal_isdigit|].
    apply run_decimal_uint. }
  rewrite E in *. rewrite get_next_token_digits by assumption.
  now rewrite Hi.
Qed.

Lemma lexer_reads_numeral_witness :
  (String.length (numeral 1203) <= max_str_digits)%nat
  /\ ends_run Char.isdigit "+4" = true
  /\ Lexer.get_next_token (reading "" (String.append (numeral 1203) "+4"))
     = Ok (TokInteger (Z.of_N 1203), reading (String.append "" (numeral 1203)) "+4").
Proof.
  assert (H : (String.length (numeral 1203) <= max_str_digits)%nat)
    by (apply Nat.leb_le; vm_compute; reflexivity).
  split; [exact H|]. split; [reflexivity|].
  apply lexer_reads_numeral; [exact H|reflexivity].
Defined.

(** X3: a run of digits that holds a digit which is not decimal (a superscript
    two, three or one) makes [integer] raise the [ValueError] of [int],
    not the 'Invalid character' exception of the lexer. *)
Theorem lexer_digit_not_decimal (before ds rest : string) :
  run Char.isdigit ds = true -> run Char.isdecimal ds = false ->
  ends_run Char.isdigit rest = true ->
  Lexer.get_next_token (reading before (String.append ds rest)) = Raise ValueError.
Proof.
  intros Hr Hd He. destruct ds as [|c ds]; [discriminate|].
  rewrite get_next_token_digits by assumption.
  unfold Char.int. now rewrite int_digits_not_decimal.
Qed.

Lemma lexer_digit_not_decimal_witness :
  run Char.isdigit (String "1" (String "178" "")) = true
  /\ run Char.isdecimal (String "1" (String "178" "")) = false
  /\ ends_run Char.isdigit " + 1" = true
  /\ Lexer.get_next_token
       (reading "" (String.append (String "1" (String "178" "")) " + 1"))
     = Raise ValueError.
Proof.
  split; [reflexivity|]. split; [reflexivity|]. split; [reflexivity|].
  apply lexer_digit_not_decimal; reflexivity.
Defined.

(** X4: [_id] takes the longest run of alphanumeric characters that starts
    with a letter; the word is the keyword token when it is exactly
    [BEGIN] or [END], and an [ID] token carrying the word otherwise. *)
Theorem lexer_reads_word (c : ascii) (w before rest : string) :
  Char.isalpha c = true -> run Char.isalnum w = true ->
  ends_run Char.isalnum rest = true ->
  Lexer.get_next_token (reading before (String.append (String c w) rest))
  = Ok (if String.eqb (String c w) "BEGIN" then TokBegin
        else if String.eqb (String c w) "END" then TokEnd
        else TokId (String c w),
        reading (String.append before (String c w)) rest).
Proof. intros Hc Hw He. now rewrite get_next_token_word. Qed.

Lemma lexer_reads_word_witness :
  Char.isalpha "b" = true /\ run Char.isalnum "egin1" = true
  /\ ends_run Char.isalnum " := 2" = true
  /\ Lexer.get_next_token (reading "" (String.append "begin1" " := 2"))
     = Ok (TokId "begin1", reading (String.append "" "begin1") " := 2").
Proof.
  split; [reflexivity|]. split; [reflexivity|]. split; [reflexivity|].
  exact (lexer_reads_word "b" "egin1" "" " := 2" eq_refl eq_refl eq_refl).
Defined.

(** X5: a colon is the start of [:=] only: followed by [=] it gives the
    [ASSIGN] token and the cursor moves two characters; followed by
    anything else, or by the end of the text (where [peek] returns [None]),
    it is an invalid character. *)
Theorem lexer_colon (before rest : string) :
  Lexer.get_next_token (reading before (String ":" rest))
  = match rest with
    | String "=" rest' => Ok (TokAssign, reading (String.append before ":=") rest')
    | _ => Raise InvalidCharacter
    end.
Proof.
  unfold Lexer.get_next_token.
  rewrite get_next_token_loop_eq, current_char_reading. cbn [String.get].
  change (Char.isalpha ":") with false. cbv iota.
  change (Lexer.char_is ":" ":") with true. cbn [andb].
  assert (Hp : Lexer.peek_is (reading before (String ":" rest)) "="
               = match rest with String c _ => Ascii.eqb c "=" | _ => false end).
  { unfold Lexer.peek_is.
    replace (Lexer.peek (reading before (String ":" rest)))
      with (Lexer.current_char (Lexer.advance (reading before (String ":" rest)))).
    - rewrite advance_reading, current_char_reading. now destruct rest.
    - unfold Lexer.peek, Lexer.advance.
      destruct (_ >? _); reflexivity. }
  rewrite Hp. destruct rest as [|c rest]; [reflexivity|].
  destruct (Ascii.eqb_spec c "=") as [->|Hne].
  - rewrite !advance_reading. unfold append_char.
    now rewrite append_assoc, append_cons, append_nil.
  - transitivity (@Raise (Token * Lexer.t) InvalidCharacter); [reflexivity|].
    destruct c as [[] [] [] [] [] [] [] []]; try reflexivity. congruence.
Qed.

(** X6: the token [EOF] is returned exactly when nothing but whitespace is
    left of the text; the call then leaves the cursor past the end. *)
Theorem lexer_eof_iff_blank (before rest : string) (lx' : Lexer.t) :
  Lexer.get_next_token (reading before rest) = Ok (TokEOF, lx')
  <-> run Char.isspace rest = true /\ lx' = reading (String.append before rest) "".
Proof.
  destruct (span Char.isspace rest) as (ws & r2 & -> & Hw & He).
  rewrite get_next_token_loop_space by assumption.
  rewrite run_append, Hw. cbn [andb]. split.
  - intros H.
    destruct (get_next_token_loop_eof _ _ _ (ends_run_current _ _ _ He) H) as [-> Hn].
    rewrite current_char_reading in Hn. destruct r2; [|discriminate].
    now rewrite append_nil_r.
  - intros [Hr ->]. destruct r2 as [|c r2].
    + now rewrite append_nil_r.
    + simpl in He, Hr. apply andb_prop in Hr as [Hc _]. rewrite Hc in He. discriminate.
Qed.

(** X7: a text of [n] characters holds at most [n] tokens: after [n] calls of
    [get_next_token] that returned, on the lexer of a text of length [n],
    the cursor is past the end and the next token is [EOF]. *)
Theorem lexer_tokens_bounded (text : string) (lx lx' : Lexer.t) (tokens : list Token) :
  Lexer.init text = Ok lx ->
  Lexer.get_next_tokens (String.length text) lx = Ok (tokens, lx') ->
  Lexer.get_next_token lx' = Ok (TokEOF, lx').
Proof.
  intros Hi Hk. apply get_next_token_None.
  apply (get_next_tokens_bounded (String.length text) lx tokens lx').
  - eapply cursor_ok_init; eassumption.
  - rewrite (init_remaining _ _ Hi). lia.
  - exact Hk.
Qed.

Lemma lexer_tokens_bounded_witness :
  Lexer.init "a:=1" = Ok (reading "" "a:=1")
  /\ Lexer.get_next_tokens (String.length "a:=1") (reading "" "a:=1")
     = Ok ([TokId "a"; TokAssign; TokInteger 1; TokEOF], reading "a:=1" "")
  /\ Lexer.get_next_token (reading "a:=1" "") = Ok (TokEOF, reading "a:=1" "").
Proof.
  assert (H1 : Lexer.init "a:=1" = Ok (reading "" "a:=1")) by reflexivity.
  assert (H2 : Lexer.get_next_tokens (String.length "a:=1") (reading "" "a:=1")
               = Ok ([TokId "a"; TokAssign; TokInteger 1; TokEOF], reading "a:=1" ""))
    by reflexivity.
  split; [exact H1|]. split; [exact H2|].
  exact (lexer_tokens_bounded _ _ _ _ H1 H2).
Defined.

(** ** The parser *)

Lemma statement_list_loop_nonempty n :
  forall results p nodes p',
    results <> [] ->
    Parser.statement_list_loop n results p = Ok (nodes, p') -> nodes <> [].
Proof.
  induction n as [|n IH]; intros results p nodes p' Hne H; [discriminate|].
  rewrite statement_list_loop_S in H.
  destruct (decide (type (Parser.current_token p) = SEMI)).
  - apply bind_Ok_inv in H as (p1 & _ & H).
    apply bind_Ok_inv in H as ([node p2] & _ & H).
    apply IH in H; [exact H|]. destruct results; discriminate.
  - inversion H; subst; assumption.
Qed.


Lemma assignment_statement_is_parsed n p node p' :
  Parser.assignment_statement n p = Ok (node, p') -> is_parsed node = true.
Proof.
  unfold Parser.assignment_statement. intros H.
  apply bind_Ok_inv in H as ([l p1] & _ & H).
  apply bind_Ok_inv in H as (p2 & He & H).
  apply bind_Ok_inv in H as ([r p3] & Hr & H). inversion H; subst.
  cbn [is_parsed]. apply (expr_is_expr n) in Hr. rewrite Hr, andb_true_r.
  unfold Parser.eat in He.
  destruct (decide (type (Parser.current_token p1) = ASSIGN)) as [Ht|Ht];
    [|discriminate].
  now destruct (Parser.current_token p1).
Qed.

(** Every node that the statement rules return is a parsed statement: a
    block has a child, an assignment keeps the token [:=]. *)
Lemma statement_is_parsed n :
  (forall p node p',
      Parser.compound_statement n p = Ok (node, p') -> is_parsed node = true)
  /\ (forall results p nodes p',
        forallb is_parsed results = true ->
        Parser.statement_list_loop n results p = Ok (nodes, p') ->
        forallb is_parsed nodes = true)
  /\ (forall p nodes p',
        Parser.statement_list n p = Ok (nodes, p') ->
        forallb is_parsed nodes = true /\ nodes <> [])
  /\ (forall p node p', Parser.statement n p = Ok (node, p') -> is_parsed node = true).
Proof.
  induction n as [|n (IHc & IHl & IHsl & IHs)].
  - repeat split; intros; discriminate.
  - repeat split.
    + intros p node p' H. rewrite compound_statement_S in H.
      apply bind_Ok_inv in H as (p1 & _ & H).
      apply bind_Ok_inv in H as ([nodes p2] & Hn & H).
      apply bind_Ok_inv in H as (p3 & _ & H). inversion H; subst.
      apply IHsl in Hn as (Hn & Hne). cbn [is_parsed]. rewrite Hn.
      destruct nodes; [congruence|reflexivity].
    + intros results p nodes p' H0 H. rewrite statement_list_loop_S in H.
      destruct (decide (type (Parser.current_token p) = SEMI)).
      * apply bind_Ok_inv in H as (p1 & _ & H).
        apply bind_Ok_inv in H as ([node p2] & Hs & H).
        apply IHl in H; [exact H|]. rewrite forallb_app, H0. simpl.
        apply IHs in Hs. now rewrite Hs.
      * inversion H; subst; assumption.
    + rewrite statement_list_S in H.
      apply bind_Ok_inv in H as ([node p1] & Hs & H).
      apply IHl in H; [exact H|]. simpl. apply IHs in Hs. now rewrite Hs.
    + rewrite statement_list_S in H.
      apply bind_Ok_inv in H as ([node p1] & _ & H).
      eapply statement_list_loop_nonempty; [|exact H]. discriminate.
    + intros p node p' H. rewrite statement_S in H.
      destruct (decide (type (Parser.current_token p) = BEGIN)); [now apply IHc in H|].
      destruct (decide (type (Parser.current_token p) = ID));
        [now apply assignment_statement_is_parsed in H|].
      inversion H; reflexivity.
Qed.

(** X8: what [parse] returns is a [Compound] node with at least one child (a
    program without statements has the child [NoOp]); its children, and
    theirs, are blocks with at least one child, assignments that keep the
    token [:=] and whose right side is an expression node built with the
    four binary and the two unary operators, and [NoOp] nodes. *)
Theorem parse_builds_statements (n : nat) (p p' : Parser.t) (tree : AST) :
  Parser.parse n p = Ok (tree, p') ->
  exists children,
    tree = Compound children /\ children <> [] /\ is_parsed tree = true.
Proof.
  intros H. unfold Parser.parse, Parser.program in H.
  apply bind_Ok_inv in H as ([node p1] & H & H').
  apply bind_Ok_inv in H as ([node' p2] & Hc & H).
  apply bind_Ok_inv in H as (p3 & _ & H). inversion H; subst.
  destruct (decide (type (Parser.current_token p1) <> EOF)); [discriminate|].
  inversion H'; subst.
  pose proof (proj1 (statement_is_parsed n) _ _ _ Hc) as Hp.
  destruct n as [|n]; [discriminate|].
  rewrite compound_statement_S in Hc.
  apply bind_Ok_inv in Hc as (q1 & _ & Hc).
  apply bind_Ok_inv in Hc as ([nodes q2] & Hl & Hc).
  apply bind_Ok_inv in Hc as (q3 & _ & Hc). inversion Hc; subst.
  exists nodes. split; [reflexivity|]. split; [|exact Hp].
  now apply (statement_is_parsed n) in Hl.
Qed.

Lemma parse_builds_statements_witness :
  Parser.parse 9 (Parser.mk (reading "BEGIN" " END.") TokBegin)
  = Ok (Compound [NoOp], Parser.mk (reading "BEGIN END." "") TokEOF)
  /\ exists children,
       Compound [NoOp] = Compound children /\ children <> []
       /\ is_parsed (Compound [NoOp]) = true.
Proof.
  assert (H : Parser.parse 9 (Parser.mk (reading "BEGIN" " END.") TokBegin)
              = Ok (Compound [NoOp], Parser.mk (reading "BEGIN END." "") TokEOF))
    by (vm_compute; reflexivity).
  split; [exact H|]. exact (parse_builds_statements _ _ _ _ H).
Defined.

(** X9: [parse] leaves nothing unread: when it returns, the current token is
    [EOF] and the cursor of the lexer is past the end of the text. *)
Theorem parse_reads_all (text : string) (lx : Lexer.t) (p p' : Parser.t) (tree : AST) :
  Lexer.init text = Ok lx -> Parser.init lx = Ok p ->
  Parser.parse (depth text) p = Ok (tree, p') ->
  Parser.current_token p' = TokEOF /\ Lexer.exhausted (Parser.lexer p').
Proof.
  intros Ei Ep H.
  destruct (init_steps lx (cursor_ok_init _ _ Ei)) as [(p0 & E0 & Hok & Hw)|(e & E0)];
    [|congruence].
  rewrite Ep in E0. injection E0 as <-. rewrite (init_remaining _ _ Ei) in Hw.
  unfold Parser.parse, Parser.program in H.
  destruct (proj1 (statement_steps (depth text) p Hok))
    as [(node & p1 & Hc & Hok1 & Hw1)|(e & Hc)]; [unfold depth; lia| |];
    rewrite Hc in H; [|discriminate].
  rewrite bind_Ok in H. cbv beta iota in H.
  unfold Parser.eat in H.
  destruct (decide (type (Parser.current_token p1) = DOT)) as [Hd|Hd]; [|discriminate].
  destruct (Lexer.get_next_token (Parser.lexer p1)) as [[tok lx']|e'|] eqn:Eg;
    try discriminate.
  rewrite !bind_Ok in H. cbv beta iota in H. simpl in H.
  destruct (decide (type tok <> EOF)) as [Hne|He]; [discriminate|].
  injection H as <- <-. simpl.
  destruct tok; try (exfalso; apply He; discriminate).
  split; [reflexivity|].
  pose proof (get_next_token_eof _ _ Hok1 Eg) as Hn.
  pose proof (get_next_token_cursor_ok _ _ _ Hok1 Eg) as Hok'.
  unfold Lexer.exhausted. unfold Lexer.cursor_ok in Hok'. rewrite Hn in Hok'.
  destruct (le_lt_dec (String.length (Lexer.text lx')) (Lexer.pos lx'))
    as [Hle|Hlt]; [exact Hle|].
  destruct (string_get_Some _ _ Hlt) as (c & Hc'). congruence.
Qed.

Lemma parse_reads_all_witness :
  Lexer.init "BEGIN END. " = Ok (reading "" "BEGIN END. ")
  /\ Parser.init (reading "" "BEGIN END. ") = Ok (Parser.mk (reading "BEGIN" " END. ") TokBegin)
  /\ Parser.parse (depth "BEGIN END. ") (Parser.mk (reading "BEGIN" " END. ") TokBegin)
     = Ok (Compound [NoOp], Parser.mk (reading "BEGIN END. " "") TokEOF)
  /\ Lexer.exhausted (reading "BEGIN END. " "").
Proof.
  assert (H1 : Lexer.init "BEGIN END. " = Ok (reading "" "BEGIN END. ")) by reflexivity.
  assert (H2 : Parser.init (reading "" "BEGIN END. ")
               = Ok (Parser.mk (reading "BEGIN" " END. ") TokBegin)) by reflexivity.
  assert (H3 : Parser.parse (depth "BEGIN END. ")
                 (Parser.mk (reading "BEGIN" " END. ") TokBegin)
               = Ok (Compound [NoOp], Parser.mk (reading "BEGIN END. " "") TokEOF))
    by reflexivity.
  repeat split; try assumption.
  exact (proj2 (parse_reads_all _ _ _ _ _ H1 H2 H3)).
Defined.

(** X10: a text that does not start with the keyword [BEGIN] is no program:
    [main] raises 'Invalid syntax' and runs nothing.  In particular the
    interpreter of [spi_updated.py] takes no bare expression. *)
Theorem program_needs_BEGIN (text : string) (lx : Lexer.t) (p : Parser.t) :
  Lexer.init text = Ok lx -> Parser.init lx = Ok p ->
  type (Parser.current_token p) <> BEGIN ->
  main text = (Raise InvalidSyntax, ∅).
Proof.
  intros Ei Ep Hb. unfold main. rewrite Ei, bind_Ok, Ep.
  unfold Interpreter.interpret, Interpreter.init, Parser.parse, Parser.program, depth.
  cbn [Interpreter.parser Interpreter.GLOBAL_SCOPE].
  replace (4 * String.length text + 16)%nat
    with (S (4 * String.length text + 15))%nat by lia.
  rewrite compound_statement_S.
  assert (He : Parser.eat BEGIN p = Raise InvalidSyntax).
  { unfold Parser.eat. now rewrite decide_False by assumption. }
  now rewrite He.
Qed.

Lemma program_needs_BEGIN_witness :
  Lexer.init "7 / 2" = Ok (reading "" "7 / 2")
  /\ Parser.init (reading "" "7 / 2") = Ok (Parser.mk (reading "7" " / 2") (TokInteger 7))
  /\ type (Parser.current_token (Parser.mk (reading "7" " / 2") (TokInteger 7))) <> BEGIN
  /\ main "7 / 2" = (Raise InvalidSyntax, ∅).
Proof.
  assert (H1 : Lexer.init "7 / 2" = Ok (reading "" "7 / 2")) by reflexivity.
  assert (H2 : Parser.init (reading "" "7 / 2")
               = Ok (Parser.mk (reading "7" " / 2") (TokInteger 7))) by reflexivity.
  assert (H3 : type (Parser.current_token (Parser.mk (reading "7" " / 2") (TokInteger 7)))
               <> BEGIN) by discriminate.
  split; [exact H1|]. split; [exact H2|]. split; [exact H3|].
  exact (program_needs_BEGIN _ _ _ H1 H2 H3).
Defined.



(** ** The visitor *)

(** X12: evaluating an expression that [expr] has parsed stores nothing,
    whether it returns or raises; what it returns is a number, never
    [None]; what it raises is a [NameError], a [ZeroDivisionError] or an
    [OverflowError], never a [TypeError]. *)
Theorem expression_visit (n : nat) (p p' : Parser.t) (node : AST)
    (scope scope' : gmap string pyval) (r : outcome pyval) :
  Parser.expr n p = Ok (node, p') ->
  Interpreter.visit node scope = (r, scope') ->
  scope' = scope
  /\ match r with
     | Ok v => is_number v = true
     | Raise e => is_runtime_error e = true
     | OutOfFuel => False
     end.
Proof.
  intros Hp Hv. apply (expr_is_expr n) in Hp.
  destruct (visit_expr node Hp _ _ _ Hv) as (-> & Hn). split; [reflexivity|].
  destruct r as [v|e|].
  - now apply Hn.
  - eapply visit_expr_raises; eassumption.
  - pose proof (visit_fuel node scope) as Hf. rewrite Hv in Hf. now apply Hf.
Qed.

Lemma expression_visit_witness :
  Parser.expr 9 (Parser.mk (reading "x" " / 0") (TokId "x"))
  = Ok (BinOp (Var "x") TokDiv (Num 0), Parser.mk (reading "x / 0" "") TokEOF)
  /\ Interpreter.visit (BinOp (Var "x") TokDiv (Num 0)) (<["x" := PInt 1]> ∅)
     = (Raise ZeroDivisionError, <["x" := PInt 1]> ∅)
  /\ is_runtime_error ZeroDivisionError = true.
Proof.
  assert (H1 : Parser.expr 9 (Parser.mk (reading "x" " / 0") (TokId "x"))
               = Ok (BinOp (Var "x") TokDiv (Num 0),
                     Parser.mk (reading "x / 0" "") TokEOF)) by reflexivity.
  assert (H2 : Interpreter.visit (BinOp (Var "x") TokDiv (Num 0)) (<["x" := PInt 1]> ∅)
               = (Raise ZeroDivisionError, <["x" := PInt 1]> ∅)) by reflexivity.
  split; [exact H1|]. split; [exact H2|].
  exact (proj2 (expression_visit _ _ _ _ _ _ _ H1 H2)).
Defined.

(** X13: the value of a parsed expression is a float exactly when the
    expression holds a division or reads a variable whose value is a
    float: [/] gives a float even for two ints that divide evenly, a float
    operand makes the result of [+], [-] and [*] a float, and ints alone
    give an int. *)
Theorem expression_float (n : nat) (p p' : Parser.t) (node : AST)
    (scope scope' : gmap string pyval) (v : pyval) :
  Parser.expr n p = Ok (node, p') ->
  Interpreter.visit node scope = (Ok v, scope') ->
  is_float v = has_float scope node.
Proof.
  intros Hp Hv. apply (expr_is_expr n) in Hp. eapply visit_expr_float; eassumption.
Qed.

Lemma expression_float_witness :
  Parser.expr 9 (Parser.mk (reading "4" " / 2") (TokInteger 4))
  = Ok (BinOp (Num 4) TokDiv (Num 2), Parser.mk (reading "4 / 2" "") TokEOF)
  /\ Interpreter.visit (BinOp (Num 4) TokDiv (Num 2)) ∅ = (Ok (PFloat 2%float), ∅)
  /\ is_float (PFloat 2%float) = has_float ∅ (BinOp (Num 4) TokDiv (Num 2)).
Proof.
  assert (H1 : Parser.expr 9 (Parser.mk (reading "4" " / 2") (TokInteger 4))
               = Ok (BinOp (Num 4) TokDiv (Num 2),
                     Parser.mk (reading "4 / 2" "") TokEOF)) by reflexivity.
  assert (H2 : Interpreter.visit (BinOp (Num 4) TokDiv (Num 2)) ∅
               = (Ok (PFloat 2%float), ∅)) by reflexivity.
  split; [exact H1|]. split; [exact H2|].
  exact (expression_float _ _ _ _ _ _ _ H1 H2).
Defined.

(** X14: an assignment that [assignment_statement] has parsed evaluates its
    right side first.  When that returns [v], the statement returns [None]
    and stores [v] under the name: reading the name afterwards gives [v],
    and no other name has changed.  When it raises, nothing is stored. *)
Theorem assignment_stores (n : nat) (p p' : Parser.t) (node : AST)
    (scope scope' : gmap string pyval) (r : outcome pyval) :
  Parser.assignment_statement n p = Ok (node, p') ->
  Interpreter.visit node scope = (r, scope') ->
  exists name op e,
    Parser.current_token p = TokId name /\ node = Assign name op e
    /\ match r with
       | Ok res =>
           res = PNone
           /\ exists v,
               Interpreter.visit e scope = (Ok v, scope)
               /\ scope' = <[name := v]> scope
               /\ Interpreter.visit (Var name) scope' = (Ok v, scope')
               /\ forall other, other <> name -> scope' !! other = scope !! other
       | Raise err => Interpreter.visit e scope = (Raise err, scope) /\ scope' = scope
       | OutOfFuel => False
       end.
Proof.
  intros Hp Hv. unfold Parser.assignment_statement in Hp.
  apply bind_Ok_inv in Hp as ([l p1] & Hl & Hp).
  apply bind_Ok_inv in Hp as (p2 & _ & Hp).
  apply bind_Ok_inv in Hp as ([e p3] & He & Hp). inversion Hp; subst.
  unfold Parser.variable in Hl.
  destruct (Parser.current_token p) as [| | | | | | | | | | | | |name] eqn:Hc;
    try discriminate.
  apply bind_Ok_inv in Hl as (p4 & _ & Hl). inversion Hl; subst. simpl.
  exists name, (Parser.current_token p1), e. split; [reflexivity|]. split; [reflexivity|].
  apply (expr_is_expr n) in He. rewrite visit_Assign in Hv.
  unfold Interpreter.seq in Hv.
  destruct (Interpreter.visit e scope) as [re s1] eqn:Ee.
  destruct (visit_expr e He _ _ _ Ee) as (-> & Hn).
  destruct re as [v|err|]; injection Hv as <- <-.
  - split; [reflexivity|]. exists v. split; [reflexivity|]. split; [reflexivity|].
    split.
    + simpl. unfold Interpreter.visit_Var. rewrite lookup_insert_eq. simpl.
      specialize (Hn v eq_refl). destruct v; [discriminate|reflexivity..].
    + intros other Hne. now rewrite lookup_insert_ne by congruence.
  - auto.
  - pose proof (visit_fuel e scope) as Hf. rewrite Ee in Hf. now apply Hf.
Qed.

Lemma assignment_stores_witness :
  Parser.assignment_statement 9 (Parser.mk (reading "x" ":=y+1") (TokId "x"))
  = Ok (Assign "x" TokAssign (BinOp (Var "y") TokPlus (Num 1)),
        Parser.mk (reading "x:=y+1" "") TokEOF)
  /\ Interpreter.visit (Assign "x" TokAssign (BinOp (Var "y") TokPlus (Num 1)))
       (<["y" := PInt 2]> ∅)
     = (Ok PNone, <["x" := PInt 3]> (<["y" := PInt 2]> ∅))
  /\ exists name op e,
       TokId "x" = TokId name
       /\ Assign "x" TokAssign (BinOp (Var "y") TokPlus (Num 1)) = Assign name op e.
Proof.
  assert (H1 : Parser.assignment_statement 9 (Parser.mk (reading "x" ":=y+1") (TokId "x"))
               = Ok (Assign "x" TokAssign (BinOp (Var "y") TokPlus (Num 1)),
                     Parser.mk (reading "x:=y+1" "") TokEOF)) by reflexivity.
  assert (H2 : Interpreter.visit (Assign "x" TokAssign (BinOp (Var "y") TokPlus (Num 1)))
                 (<["y" := PInt 2]> ∅)
               = (Ok PNone, <["x" := PInt 3]> (<["y" := PInt 2]> ∅))) by reflexivity.
  split; [exact H1|]. split; [exact H2|].
  destruct (assignment_stores _ _ _ _ _ _ _ H1 H2) as (name & op & e & Ha & Hb & _).
  exists name, op, e. split; [exact Ha|exact Hb].
Defined.

(** X15: [visit_Compound] runs the statements in order on the one scope and
    stops at the first that raises: the statements before it have had
    their effect, those after it are not visited. *)
Theorem compound_in_order (l1 l2 : list AST) (scope : gmap string pyval) :
  Interpreter.visit (Compound (l1 ++ l2)) scope
  = match Interpreter.visit (Compound l1) scope with
    | (Ok _, s1) => Interpreter.visit (Compound l2) s1
    | (Raise e, s1) => (Raise e, s1)
    | (OutOfFuel, s1) => (OutOfFuel, s1)
    end.
Proof. rewrite !visit_Compound, visit_children_app. reflexivity. Qed.

(** X16: a [BEGIN ... END] block inside a block is no scope of its own: its
    statements run on the one [GLOBAL_SCOPE] as if they stood in the outer
    block. *)
Theorem compound_nested (l1 l2 l3 : list AST) (scope : gmap string pyval) :
  Interpreter.visit (Compound (l1 ++ Compound l2 :: l3)) scope
  = Interpreter.visit (Compound (l1 ++ l2 ++ l3)) scope.
Proof.
  rewrite !visit_Compound, !visit_children_app.
  destruct (visit_children l1 scope) as [[v|e|] s1]; try reflexivity.
  rewrite visit_children_app. cbn [visit_children]. unfold Interpreter.seq.
  rewrite visit_Compound. destruct (visit_children l2 s1) as [[v2|e|] s2]; reflexivity.
Qed.

(** ** One round of [main] *)


(** ** Writing and reading back *)

(** X18: the lexer reads back what is written token by token: for tokens that
    it can return before the end of a text (integers that are not
    negative, identifiers that are no keywords, operators, parentheses,
    keywords, [:=], [;] and [.]), written one after the other with a blank
    behind each, the calls of [get_next_token] on a new lexer return these
    tokens in order, then [EOF], and leave the cursor at the end. *)
Theorem lexer_round_trip (tokens : list Token) (lx : Lexer.t) :
  forallb lexable tokens = true ->
  Lexer.init (tokens_text tokens) = Ok lx ->
  Lexer.get_next_tokens (S (length tokens)) lx
  = Ok (tokens ++ [TokEOF], reading (tokens_text tokens) "").
Proof.
  intros Hl Hi.
  assert (Hne : tokens_text tokens <> "").
  { intros E. rewrite E in Hi. discriminate. }
  rewrite (init_reading _ Hne) in Hi. injection Hi as <-.
  now rewrite get_next_tokens_text, append_nil.
Qed.

Lemma lexer_round_trip_witness :
  forallb lexable [TokId "x"; TokAssign; TokInteger 12; TokSemi] = true
  /\ Lexer.init (tokens_text [TokId "x"; TokAssign; TokInteger 12; TokSemi])
     = Ok (reading "" "x := 12 ; ")
  /\ Lexer.get_next_tokens 5 (reading "" "x := 12 ; ")
     = Ok ([TokId "x"; TokAssign; TokInteger 12; TokSemi; TokEOF],
           reading "x := 12 ; " "").
Proof.
  split; [reflexivity|]. split; [reflexivity|].
  exact (lexer_round_trip [TokId "x"; TokAssign; TokInteger 12; TokSemi]
           (reading "" "x := 12 ; ") eq_refl eq_refl).
Defined.

(** X19: [factor], [term] and [expr] read back what is written from a tree:
    every expression node, written as tokens with the operands of its
    operators in parentheses and followed by a token that is no operator,
    is what [expr] returns, with the parser left at that token. *)
Theorem expr_tokens_round_trip (node : AST) (n : nat) (p : Parser.t)
    (t : Token) (ts : list Token) :
  is_expr node = true -> (4 * nodes node + 3 <= n)%nat -> stops t ->
  reads p (expr_tokens node ++ t :: ts) ->
  exists p', Parser.expr n p = Ok (node, p') /\ reads p' (t :: ts).
Proof.
  intros Hx Hn Hs H.
  destruct (expr_tokens_parse node Hx n p t ts Hn Hs H) as (p' & He & Hr).
  exists p'. split; [exact He|exact Hr].
Qed.

Lemma expr_tokens_round_trip_witness :
  is_expr (BinOp (Num 1) TokMul (UnaryOp TokMinus (Var "x"))) = true
  /\ stops TokEOF
  /\ reads (Parser.mk (reading "(" "1)*(-(x))") TokLParen)
       (expr_tokens (BinOp (Num 1) TokMul (UnaryOp TokMinus (Var "x"))) ++ [TokEOF])
  /\ exists p',
       Parser.expr 19 (Parser.mk (reading "(" "1)*(-(x))") TokLParen)
       = Ok (BinOp (Num 1) TokMul (UnaryOp TokMinus (Var "x")), p')
       /\ reads p' [TokEOF].
Proof.
  assert (Hs : stops TokEOF) by (repeat split; discriminate).
  assert (Hr : reads (Parser.mk (reading "(" "1)*(-(x))") TokLParen)
                 (expr_tokens (BinOp (Num 1) TokMul (UnaryOp TokMinus (Var "x")))
                    ++ [TokEOF])).
  { constructor. repeat (eapply yields_cons; [reflexivity|]). constructor. }
  split; [reflexivity|]. split; [exact Hs|]. split; [exact Hr|].
  apply (expr_tokens_round_trip (BinOp (Num 1) TokMul (UnaryOp TokMinus (Var "x")))
           19 _ TokEOF [] eq_refl); [simpl; lia|exact Hs|exact Hr].
Defined.

(** X20: the whole front end reads back what is written from a tree: a block of
    statements as the parser builds them, with lexable integers and names,
    written as text, is the tree that [parse] returns for this text, and a
    round of [main] on the text is the visit of the tree in the empty
    scope. *)
Theorem program_round_trip (tree : AST) :
  is_program tree = true ->
  parse_text (program_text tree) = Ok tree
  /\ main (program_text tree) = Interpreter.visit tree ∅.
Proof.
  intros H. unfold is_program in H.
  apply andb_true_iff in H as (H & Hl). apply andb_true_iff in H as (Hc & Hp).
  destruct tree as [| |cs| | | |]; try discriminate Hc. clear Hc.
  set (tokens := stmt_tokens (Compound cs) ++ [TokDot]).
  assert (Hlt : forallb lexable tokens = true).
  { unfold tokens. now rewrite forallb_app, Hl. }
  assert (Hne : program_text (Compound cs) <> "").
  { unfold program_text. cbn [stmt_tokens app tokens_text fold_right lexeme].
    discriminate. }
  pose proof (get_next_tokens_text tokens Hlt "") as Hg. rewrite append_nil in Hg.
  apply get_next_tokens_yields in Hg.
  destruct (init_reads _ _ Hg) as (p & Hi & Hr); [apply app_cons_nonempty|].
  unfold tokens in Hr. rewrite <- app_assoc in Hr.
  destruct (program_tokens_parse cs (depth (program_text (Compound cs))) p Hp)
    as (p' & Hparse & _); [|exact Hr|].
  { pose proof (nodes_stmt_tokens _ Hp) as H1.
    pose proof (length_tokens_text tokens) as H2.
    assert (H3 : length tokens = (length (stmt_tokens (Compound cs)) + 1)%nat)
      by (unfold tokens; now rewrite length_app).
    unfold depth, program_text. fold tokens. lia. }
  change (tokens_text tokens) with (program_text (Compound cs)) in Hi.
  unfold parse_text, main. rewrite (init_reading _ Hne), !bind_Ok, Hi, bind_Ok.
  unfold Interpreter.interpret, Interpreter.init.
  cbn [Interpreter.parser Interpreter.GLOBAL_SCOPE].
  rewrite Hparse. split; reflexivity.
Qed.

Lemma program_round_trip_witness :
  is_program
    (Compound [Assign "a" TokAssign (BinOp (Num 1) TokPlus (Var "b")); NoOp]) = true
  /\ program_text
       (Compound [Assign "a" TokAssign (BinOp (Num 1) TokPlus (Var "b")); NoOp])
     = "BEGIN a := ( 1 ) + ( b ) ; END . "
  /\ parse_text "BEGIN a := ( 1 ) + ( b ) ; END . "
     = Ok (Compound [Assign "a" TokAssign (BinOp (Num 1) TokPlus (Var "b")); NoOp]).
Proof.
  split; [reflexivity|]. split; [reflexivity|].
  exact (proj1 (program_round_trip
                  (Compound [Assign "a" TokAssign (BinOp (Num 1) TokPlus (Var "b")); NoOp])
                  eq_refl)).
Defined.

(** ** What a program leaves of the scope *)

Lemma visit_stmt_frame node :
  is_stmt node = true ->
  forall scope r scope',
    Interpreter.visit node scope = (r, scope') ->
    forall name,
      (~ In name (assigned node) -> scope' !! name = scope !! name)
      /\ (is_Some (scope !! name) -> is_Some (scope' !! name)).
Proof.
  induction node as [l op r IHl IHr|value|children IH|x op r _|name0| |op e IHe]
    using AST_ind; intros Hs scope res scope' H name; simpl in Hs; try discriminate.
  - rewrite visit_Compound in H. revert scope H.
    induction children as [|c cs IHcs]; intros scope H; simpl in H.
    + inversion H; subst. auto.
    + simpl in Hs. apply andb_true_iff in Hs as (Hc & Hcs).
      inversion IH as [|c' cs' IHc IHrest]; subst.
      unfold Interpreter.seq in H.
      destruct (Interpreter.visit c scope) as [rc s1] eqn:Ec.
      destruct (IHc Hc _ _ _ Ec name) as (Hc1 & Hc2).
      assert (Hin : ~ In name (assigned (Compound (c :: cs))) ->
                    ~ In name (assigned c) /\ ~ In name (assigned (Compound cs))).
      { cbn [assigned flat_map]. rewrite in_app_iff. tauto. }
      destruct rc as [a|e1|].
      * destruct (IHcs IHrest Hcs s1 H) as (Hr1 & Hr2). split.
        -- intros Hn. apply Hin in Hn as (Hn1 & Hn2).
           now rewrite (Hr1 Hn2), (Hc1 Hn1).
        -- auto.
      * inversion H; subst. split; [|assumption].
        intros Hn. apply Hin in Hn as (Hn1 & _). auto.
      * inversion H; subst. split; [|assumption].
        intros Hn. apply Hin in Hn as (Hn1 & _). auto.
  - rewrite visit_Assign in H. unfold Interpreter.seq in H.
    destruct (Interpreter.visit r scope) as [rr s1] eqn:Er.
    destruct (visit_expr r Hs _ _ _ Er) as (-> & _).
    destruct rr as [v|e1|]; inversion H; subst; auto.
    split.
    + cbn [assigned In]. intros Hn. rewrite lookup_insert_ne; [reflexivity|tauto].
    + intros Hsome. destruct (decide (x = name)) as [->|Hne].
      * rewrite lookup_insert_eq. eauto.
      * now rewrite lookup_insert_ne.
  - inversion H; subst. auto.
Qed.

(** X21: a program never removes a name from the scope, and changes the value
    of no name that it does not assign to, whether it ends or raises. *)
Theorem program_frame (n : nat) (p p' : Parser.t) (tree : AST)
    (scope scope' : gmap string pyval) (r : outcome pyval) :
  Parser.parse n p = Ok (tree, p') ->
  Interpreter.visit tree scope = (r, scope') ->
  forall name,
    (~ In name (assigned tree) -> scope' !! name = scope !! name)
    /\ (is_Some (scope !! name) -> is_Some (scope' !! name)).
Proof.
  intros Hp Hv. apply parse_is_stmt in Hp. now apply (visit_stmt_frame tree Hp scope r).
Qed.

Lemma program_frame_witness :
  Parser.parse 12 (Parser.mk (reading "BEGIN" " a := b / 0 END.") TokBegin)
  = Ok (Compound [Assign "a" TokAssign (BinOp (Var "b") TokDiv (Num 0))],
        Parser.mk (reading "BEGIN a := b / 0 END." "") TokEOF)
  /\ Interpreter.visit (Compound [Assign "a" TokAssign (BinOp (Var "b") TokDiv (Num 0))])
       (<["b" := PInt 1]> ∅)
     = (Raise ZeroDivisionError, <["b" := PInt 1]> ∅)
  /\ ~ In "b" (assigned (Compound [Assign "a" TokAssign (BinOp (Var "b") TokDiv (Num 0))]))
  /\ (<["b" := PInt 1]> ∅ : gmap string pyval) !! "b"
     = (<["b" := PInt 1]> ∅ : gmap string pyval) !! "b".
Proof.
  assert (H1 : Parser.parse 12 (Parser.mk (reading "BEGIN" " a := b / 0 END.") TokBegin)
               = Ok (Compound [Assign "a" TokAssign (BinOp (Var "b") TokDiv (Num 0))],
                     Parser.mk (reading "BEGIN a := b / 0 END." "") TokEOF))
    by (vm_compute; reflexivity).
  assert (H2 : Interpreter.visit
                 (Compound [Assign "a" TokAssign (BinOp (Var "b") TokDiv (Num 0))])
                 (<["b" := PInt 1]> ∅)
               = (Raise ZeroDivisionError, <["b" := PInt 1]> ∅)) by reflexivity.
  assert (H3 : ~ In "b" (assigned (Compound [Assign "a" TokAssign
                                               (BinOp (Var "b") TokDiv (Num 0))])))
    by (simpl; intros [H|[]]; discriminate H).
  split; [exact H1|]. split; [exact H2|]. split; [exact H3|].
  exact (proj1 (program_frame _ _ _ _ _ _ _ H1 H2 "b") H3).
Defined.
